(** * Trigger routines of obspy.signal.trigger

    A shallow embedding of [trunk/obspy.signal/obspy/signal/trigger.py]:
    the characteristic functions [recSTALTAPy], [classicSTALTA],
    [delayedSTALTA], [carlSTATrig], [zDetect] and the onset detector
    [triggerOnset].

    Samples are IEEE-754 binary64 values (Python [float], NumPy
    [float64]), embedded as Rocq's primitive [float]; window lengths and
    sample indices are Python integers of machine size, embedded as [Z];
    one-dimensional NumPy arrays and Python lists are [list]s.  Python
    exceptions are explicit results; NumPy arithmetic raises none (a
    division by zero or an overflow gives [nan] or [inf] and a warning),
    Python float arithmetic does. *)

From Stdlib Require Import ZArith List Bool Lia Floats Sorted.
Import ListNotations.

Set Implicit Arguments.

(** ** Python results *)

Module Py.

(** The exceptions the modelled code can raise. *)
Inductive exc : Type :=
| ZeroDivisionError   (* Python float division by a zero divisor *)
| OverflowError       (* Python float power out of range *)
| IndexError          (* index out of bounds, or [l[0]]/[l[-1]] on an empty list *)
| ValueError.         (* NumPy: negative dimension, or shapes that cannot be broadcast *)

Inductive res (A : Type) : Type :=
| Ok (a : A)
| Raise (e : exc).

Arguments Ok {A} a.
Arguments Raise {A} e.

Definition bind {A B : Type} (c : res A) (k : A -> res B) : res B :=
  match c with
  | Ok a => k a
  | Raise e => Raise e
  end.

(** [for x in xs: s = body(s, x)], stopping at the first exception. *)
Fixpoint for_each {S X : Type} (body : S -> X -> res S) (xs : list X) (s : S)
  : res S :=
  match xs with
  | [] => Ok s
  | x :: xs' => bind (body s x) (for_each body xs')
  end.

(** [xrange(lo, hi)] as the list of its values. *)
Definition xrange (lo hi : Z) : list Z :=
  map (fun k => (lo + Z.of_nat k)%Z) (seq 0 (Z.to_nat (hi - lo))).

(** Normalisation of one bound of a slice [l[i:j]] over a sequence of
    length [n]: a negative bound counts from the end, and the result is
    clamped to [0 .. n]. *)
Definition clamp (n k : Z) : Z :=
  let k' := if (k <? 0)%Z then (k + n)%Z else k in
  Z.max 0 (Z.min n k').

(** [l[i:j]] *)
Definition slice {A : Type} (l : list A) (i j : Z) : list A :=
  let n := Z.of_nat (length l) in
  let lo := clamp n i in
  let hi := clamp n j in
  firstn (Z.to_nat (hi - lo)) (skipn (Z.to_nat lo) l).

(** [l[i:j] = v] for a scalar [v] (NumPy slice assignment). *)
Definition set_slice {A : Type} (l : list A) (i j : Z) (v : A) : list A :=
  let n := Z.of_nat (length l) in
  let lo := clamp n i in
  let hi := clamp n j in
  firstn (Z.to_nat lo) l
    ++ repeat v (Z.to_nat (hi - lo))
    ++ skipn (Z.to_nat (Z.max lo hi)) l.

(** [l[k] = v] for an index known to be in range. *)
Fixpoint set_item {A : Type} (l : list A) (k : nat) (v : A) : list A :=
  match l, k with
  | [], _ => []
  | _ :: t, O => v :: t
  | x :: t, S k' => x :: set_item t k' v
  end.

(** [l[k]] with Python's negative indices; [IndexError] out of range. *)
Definition get_item {A : Type} (l : list A) (k : Z) : res A :=
  let n := Z.of_nat (length l) in
  let k' := if (k <? 0)%Z then (k + n)%Z else k in
  if ((k' <? 0) || (n <=? k'))%Z then Raise IndexError
  else match nth_error l (Z.to_nat k') with
       | Some x => Ok x
       | None => Raise IndexError
       end.

End Py.

Import Py.

Declare Scope py_scope.
Notation "x <- c ;; k" := (Py.bind c (fun x => k))
  (at level 61, c at next level, right associativity) : py_scope.
Open Scope py_scope.

(** ** Floating-point values *)

Module Fl.

Open Scope float_scope.

(** Conversion of an integer to binary64, rounding to nearest even, as
    Python and NumPy do when an integer meets a float. *)
Definition of_int (z : Z) : float :=
  SF2Prim (binary_normalize prec emax z 0 false).

(** [x ** 2] on Python floats: the square, with [OverflowError] when a
    finite [x] has a square out of range ([inf ** 2] is [inf]). *)
Definition py_square (x : float) : res float :=
  let r := x * x in
  if is_infinity r && negb (is_infinity x) then Raise OverflowError
  else Ok r.

(** [x / y] on Python floats: [ZeroDivisionError] when [y == 0]. *)
Definition py_div (x y : float) : res float :=
  if PrimFloat.eqb y 0 then Raise ZeroDivisionError else Ok (x / y).

(** The literal [1e-99]. *)
Definition eps : float := 0x1.17f7d4ed8c33ep-329.

End Fl.

(** ** Recursive STA/LTA ([recSTALTAPy]) *)

Section RecSTALTA.

Open Scope float_scope.

Variable a : list float.
Variables nsta nlta : Z.

(** The loop state: [sta], [lta] and the list [charfct]. *)
Definition rec_state : Type := (float * float * list float)%type.

(** One pass of the body of [for i in xrange(1, ndat)]. *)
Definition rec_body (csta clta icsta iclta : float)
           (st : rec_state) (i : Z) : res rec_state :=
  let '(sta, lta, charfct) := st in
  x <- Py.get_item a i ;;
  sq <- Fl.py_square x ;;
  let sta := csta * sq + icsta * sta in
  let lta := clta * sq + iclta * lta in
  q <- Fl.py_div sta lta ;;
  let charfct := Py.set_item charfct (Z.to_nat i) q in
  let charfct := if (i <? nlta)%Z
                 then Py.set_item charfct (Z.to_nat i) 0
                 else charfct in
  Ok (sta, lta, charfct).

Definition recSTALTAPy : res (list float) :=
  let ndat := Z.of_nat (length a) in
  csta <- Fl.py_div 1 (Fl.of_int nsta) ;;
  clta <- Fl.py_div 1 (Fl.of_int nlta) ;;
  let sta := 0 in
  let lta := Fl.eps in
  let charfct := repeat 0 (length a) in
  let icsta := 1 - csta in
  let iclta := 1 - clta in
  st <- Py.for_each (rec_body csta clta icsta iclta)
                    (Py.xrange 1 ndat) (sta, lta, charfct) ;;
  Ok (snd st).

End RecSTALTA.

(** The recurrences as the specification words them: the smoothed
    average after sample [i], [avg_i = c * x_i^2 + (1 - c) * avg_(i-1)],
    started from [init] at index 0.  The STA uses [c = 1/nsta] from 0 and
    the LTA uses [c = 1/nlta] from [1e-99]. *)
Fixpoint smoothed (c init : float) (a : list float) (i : nat) : float :=
  match i with
  | O => init
  | S k =>
      let x := nth i a 0%float in
      (c * (x * x) + (1 - c) * smoothed c init a k)%float
  end.

Definition spec_sta (a : list float) (nsta : Z) (i : nat) : float :=
  smoothed (1 / Fl.of_int nsta)%float 0%float a i.

Definition spec_lta (a : list float) (nlta : Z) (i : nat) : float :=
  smoothed (1 / Fl.of_int nlta)%float Fl.eps a i.

(** [CF[i]] in the specification's words: zero below [nlta], the ratio
    from there on. *)
Definition spec_cf (a : list float) (nsta nlta : Z) (i : nat) : float :=
  if (Z.of_nat i <? nlta)%Z then 0%float
  else (spec_sta a nsta i / spec_lta a nlta i)%float.

(** The samples and averages on which the recursive STA/LTA raises
    nothing: the conversions of the window lengths are not zero, no
    square is out of range and no [lta] is zero. *)
Definition rec_defined (a : list float) (nsta nlta : Z) : Prop :=
  PrimFloat.eqb (Fl.of_int nsta) 0 = false
  /\ PrimFloat.eqb (Fl.of_int nlta) 0 = false
  /\ forall i, (1 <= i < length a)%nat ->
               (exists sq, Fl.py_square (nth i a 0%float) = Ok sq)
               /\ PrimFloat.eqb (spec_lta a nlta i) 0 = false.

(** ** NumPy operations on one-dimensional float64 arrays *)

Module Np.

Open Scope float_scope.

Definition array : Type := list float.

(** [np.zeros(n)] and [np.ones(n)]: a negative size is a [ValueError]. *)
Definition full (v : float) (n : Z) : res array :=
  if (n <? 0)%Z then Raise ValueError else Ok (repeat v (Z.to_nat n)).

Definition zeros : Z -> res array := full 0.
Definition ones : Z -> res array := full 1.

(** [np.zeros(len(a), dtype='float64')] *)
Definition zeros_like (x : array) : array := repeat 0 (length x).

Fixpoint zip_with (f : float -> float -> float) (x y : array) : array :=
  match x, y with
  | u :: x', v :: y' => f u v :: zip_with f x' y'
  | _, _ => []
  end.

(** A binary element-wise operation [x op y] with broadcasting: equal
    lengths, or one operand of length one. *)
Definition broadcast (f : float -> float -> float) (x y : array) : res array :=
  if (length x =? length y)%nat then Ok (zip_with f x y)
  else match x, y with
       | [u], _ => Ok (map (f u) y)
       | _, [v] => Ok (map (fun u => f u v) x)
       | _, _ => Raise ValueError
       end.

(** The in-place form [x op= y]: the result must keep the shape of [x]. *)
Definition broadcast_inplace (f : float -> float -> float) (x y : array)
  : res array :=
  if (length x =? length y)%nat then Ok (zip_with f x y)
  else match y with
       | [v] => Ok (map (fun u => f u v) x)
       | _ => Raise ValueError
       end.

Definition add : array -> array -> res array := broadcast PrimFloat.add.
Definition sub : array -> array -> res array := broadcast PrimFloat.sub.
Definition div : array -> array -> res array := broadcast PrimFloat.div.
Definition iadd : array -> array -> res array := broadcast_inplace PrimFloat.add.

(** [x ** 2]: element-wise square; overflow gives [inf], no exception. *)
Definition square (x : array) : array := map (fun u => u * u) x.

(** [abs(x)] *)
Definition absolute (x : array) : array := map PrimFloat.abs x.

(** [x / n] and [x /= n] for a Python integer [n]. *)
Definition div_int (x : array) (n : Z) : array :=
  map (fun u => u / Fl.of_int n) x.

(** [c * x], [x - c] and [(x - c) / d] for float scalars. *)
Definition scale (c : float) (x : array) : array := map (fun u => c * u) x.
Definition sub_scalar (x : array) (c : float) : array := map (fun u => u - c) x.
Definition div_scalar (x : array) (d : float) : array := map (fun u => u / d) x.

(** Summation in index order. *)
Definition sum (x : array) : float := fold_left PrimFloat.add x 0.

(** [np.mean(x)] *)
Definition mean (x : array) : float :=
  sum x / Fl.of_int (Z.of_nat (length x)).

(** [np.std(x)]: the square root of the mean squared deviation. *)
Definition std (x : array) : float :=
  let d := sub_scalar x (mean x) in
  PrimFloat.sqrt (mean (zip_with PrimFloat.mul d d)).

End Np.

(** ** Sliding-window sums shared by the window-based variants

    [for i in xrange(n): acc = acc + np.concatenate((pad, src(i)))]
    where [src(i)] is a slice [..[i:m - n + i]]. *)

Definition window_pass (op : Np.array -> Np.array -> res Np.array)
           (pad : Np.array) (src : Z -> res Np.array) (n : Z) (acc : Np.array)
  : res Np.array :=
  Py.for_each (fun acc i => s <- src i ;; op acc (pad ++ s)) (Py.xrange 0 n) acc.

(** ** Classic STA/LTA ([classicSTALTA]) *)

Definition classicSTALTA (a : Np.array) (nsta nlta : Z) : res Np.array :=
  let m := Z.of_nat (length a) in
  let sta := Np.zeros_like a in
  pad_sta <- Np.zeros nsta ;;
  sta <- window_pass Np.add pad_sta
           (fun i => Ok (Np.square (Py.slice a i (m - nsta + i)))) nsta sta ;;
  let sta := Np.div_int sta nsta in
  let lta := Np.zeros_like a in
  pad_lta <- Np.ones nlta ;;
  lta <- window_pass Np.add pad_lta
           (fun i => Ok (Np.square (Py.slice a i (m - nlta + i)))) nlta lta ;;
  let lta := Np.div_int lta nlta in
  let sta := Py.set_slice sta 0 nlta 0%float in
  Np.div sta lta.

(** ** Delayed STA/LTA ([delayedSTALTA]) *)

Definition delayed_body (a : Np.array) (nsta nlta : Z)
           (st : Np.array * Np.array) (i : Z) : res (Np.array * Np.array) :=
  let '(sta, lta) := st in
  let sq (x : float) := (x * x)%float in
  x0 <- Py.get_item a i ;;
  x1 <- Py.get_item a (i - nsta) ;;
  s1 <- Py.get_item sta (i - 1) ;;
  let sta := Py.set_item sta (Z.to_nat i)
               ((sq x0 + sq x1) / Fl.of_int nsta + s1)%float in
  x2 <- Py.get_item a (i - nsta - 1) ;;
  x3 <- Py.get_item a (i - nsta - nlta - 1) ;;
  l1 <- Py.get_item lta (i - 1) ;;
  let lta := Py.set_item lta (Z.to_nat i)
               ((sq x2 + sq x3) / Fl.of_int nlta + l1)%float in
  Ok (sta, lta).

Definition delayedSTALTA (a : Np.array) (nsta nlta : Z) : res Np.array :=
  let m := Z.of_nat (length a) in
  let sta := Np.zeros_like a in
  let lta := Np.zeros_like a in
  st <- Py.for_each (delayed_body a nsta nlta) (Py.xrange 0 m) (sta, lta) ;;
  let '(sta, lta) := st in
  let sta := Py.set_slice sta 0 (nlta + nsta + 50) 0%float in
  Np.div sta lta.

(** ** Carl-Sta-Trig ([carlSTATrig]) *)

Definition carlSTATrig (a : Np.array) (nsta nlta : Z) (ratio quiet : float)
  : res Np.array :=
  let m := Z.of_nat (length a) in
  let sta := Np.zeros_like a in
  let lta := Np.zeros_like a in
  let star := Np.zeros_like a in
  let ltar := Np.zeros_like a in
  pad_sta <- Np.zeros nsta ;;
  pad_lta <- Np.zeros nlta ;;
  sta <- window_pass Np.iadd pad_sta
           (fun i => Ok (Py.slice a i (m - nsta + i))) nsta sta ;;
  let sta := Np.div_int sta nsta in
  lta <- window_pass Np.iadd pad_lta
           (fun i => Ok (Py.slice sta i (m - nlta + i))) nlta lta ;;
  let lta := Np.div_int lta nlta in
  let lta := Py.slice (0%float :: lta) 0 m in
  star <- window_pass Np.iadd pad_sta
            (fun i => d <- Np.sub (Py.slice a i (m - nsta + i))
                                  (Py.slice lta i (m - nsta + i)) ;;
                      Ok (Np.absolute d)) nsta star ;;
  let star := Np.div_int star nsta in
  ltar <- window_pass Np.iadd pad_lta
            (fun i => Ok (Py.slice star i (m - nlta + i))) nlta ltar ;;
  let ltar := Np.div_int ltar nlta in
  t1 <- Np.sub star (Np.scale ratio ltar) ;;
  d <- Np.sub sta lta ;;
  t2 <- Np.sub t1 (Np.absolute d) ;;
  let eta := Np.sub_scalar t2 quiet in
  Ok (Py.set_slice eta 0 nlta (-1)%float).

(** ** Z-detector ([zDetect]) *)

(** The windowed sum [sta] of squared samples that [zDetect] normalises. *)
Definition zDetect_sta (a : Np.array) (nsta : Z) : res Np.array :=
  let m := Z.of_nat (length a) in
  let sta := Np.zeros_like a in
  pad_sta <- Np.zeros nsta ;;
  window_pass Np.add pad_sta
    (fun i => Ok (Np.square (Py.slice a i (m - nsta + i)))) nsta sta.

Definition zDetect (a : Np.array) (nsta : Z) : res Np.array :=
  sta <- zDetect_sta a nsta ;;
  let a_mean := Np.mean sta in
  let a_std := Np.std sta in
  Ok (Np.div_scalar (Np.sub_scalar sta a_mean) a_std).

(** ** The family of characteristic functions

    The five functions take the trace and the window lengths; Carl-Sta-Trig
    takes two more floats and the Z-detector has a single window. *)

Inductive variant : Type :=
| Recursive
| Classic
| Delayed
| CarlStaTrig (ratio quiet : float)
| ZDetector.

Definition compute (v : variant) (samples : list float) (nsta nlta : Z)
  : res (list float) :=
  match v with
  | Recursive => recSTALTAPy samples nsta nlta
  | Classic => classicSTALTA samples nsta nlta
  | Delayed => delayedSTALTA samples nsta nlta
  | CarlStaTrig ratio quiet => carlSTATrig samples nsta nlta ratio quiet
  | ZDetector => zDetect samples nsta
  end.

(** ** Onset detection ([triggerOnset])

    The lists [on] and [of] hold sample indices.  [on] holds integers
    only.  [of] can also hold the float [1e99], appended when
    [max_len_delete] is set; it is larger than every index, and
    [1e99 - i] rounds back to [1e99] for every index [i] of an array.
    [max_len] is a number of samples, or the default [9e99] of the
    signature when the caller does not pass it.  The list [of] of the
    source is written [of_]. *)

Module Onset.

Open Scope Z_scope.

(** An element of [of]. *)
Inductive off : Type :=
| Idx (z : Z)
| Sentinel.      (* 1e99 *)

(** The argument [max_len]. *)
Inductive maxlen : Type :=
| Len (z : Z)
| NoLimit.       (* the default, 9e99 *)

(** The integer value of the binary64 number nearest to [1e99]. *)
Definition sentinel_value : Z := 8236092143148846 * 2 ^ 276.

(** [i <= f], [f < i] and [i > f] for an integer [i] and an element
    [f] of [of]. *)
Definition le_off (i : Z) (f : off) : bool :=
  match f with Idx z => i <=? z | Sentinel => true end.
Definition off_lt (f : off) (i : Z) : bool :=
  match f with Idx z => z <? i | Sentinel => false end.
Definition gt_off (i : Z) (f : off) : bool :=
  match f with Idx z => z <? i | Sentinel => false end.

(** [of[0] - on[0] > max_len] *)
Definition exceeds (f : off) (o : Z) (ml : maxlen) : bool :=
  match f, ml with
  | Idx z, Len m => m <? z - o
  | Idx _, NoLimit => false
  | Sentinel, Len m => m <? sentinel_value
  | Sentinel, NoLimit => false
  end.

(** [on[0] + max_len]; it is evaluated only after [exceeds], which is
    false for the default [max_len]. *)
Definition plus_maxlen (o : Z) (ml : maxlen) : off :=
  match ml with
  | Len m => Idx (o + m)
  | NoLimit => Sentinel
  end.

(** [np.where(charfct > thres)[0]], counting indices from [k]. *)
Fixpoint where_gt_from (k : Z) (charfct : list float) (thres : float) : list Z :=
  match charfct with
  | [] => []
  | x :: t =>
      if PrimFloat.ltb thres x then k :: where_gt_from (k + 1) t thres
      else where_gt_from (k + 1) t thres
  end.

Definition where_gt : list float -> float -> list Z := where_gt_from 0.

(** [ind[np.diff(ind) > 1]]: the indices followed by a gap. *)
Fixpoint gap_ends (ind : list Z) : list Z :=
  match ind with
  | x :: (y :: _) as t => if 1 <? y - x then x :: gap_ends t else gap_ends t
  | _ => []
  end.

(** [ind[np.where(np.diff(ind) > 1)[0] + 1]]: the indices preceded by a
    gap. *)
Fixpoint gap_starts (ind : list Z) : list Z :=
  match ind with
  | x :: (y :: _) as t => if 1 <? y - x then y :: gap_starts t else gap_starts t
  | _ => []
  end.

(** [while on[0] <= of[0]: on.pop(0)], for the current [of[0]]. *)
Fixpoint pop_on (on : list Z) (f : off) : res (list Z) :=
  match on with
  | [] => Raise IndexError
  | o :: on' => if le_off o f then pop_on on' f else Ok on
  end.

(** [while of[0] < on[0]: of.pop(0)], for the current [on[0]]. *)
Fixpoint pop_of (of_ : list off) (o : Z) : res (list off) :=
  match of_ with
  | [] => Raise IndexError
  | f :: of' => if off_lt f o then pop_of of' o else Ok of_
  end.

Definition interval : Type := (Z * off)%type.

(** [l[-1]] and [l[0]] *)
Definition last_item {A : Type} (l : list A) : res A :=
  match rev l with
  | [] => Raise IndexError
  | x :: _ => Ok x
  end.

Definition first_item {A : Type} (l : list A) : res A :=
  match l with
  | [] => Raise IndexError
  | x :: _ => Ok x
  end.

(** What one evaluation of the loop condition and, when it holds, one
    pass of the body lead to: the loop ends with the picks, an exception
    is raised, or the loop goes on with new [on], [of] and [pick]. *)
Inductive pass_result : Type :=
| Done (pick : list interval)
| Fails (e : exc)
| Again (on : list Z) (of_ : list off) (pick : list interval).

(** [while on[-1] > of[0]:] and the body of the loop. *)
Definition pass (max_len : maxlen) (max_len_delete : bool)
           (on : list Z) (of_ : list off) (pick : list interval)
  : pass_result :=
  match last_item on with
  | Raise e => Fails e
  | Ok lst =>
  match first_item of_ with
  | Raise e => Fails e
  | Ok f0 =>
  if gt_off lst f0 then
    match pop_on on f0 with
    | Raise e => Fails e
    | Ok [] => Fails IndexError
    | Ok ((o :: on') as on1) =>
    match pop_of of_ o with
    | Raise e => Fails e
    | Ok [] => Fails IndexError
    | Ok ((f :: _) as of1) =>
        if exceeds f o max_len then
          if max_len_delete then
            (* on.pop(0); continue *)
            Again on' of1 pick
          else
            (* of.insert(0, on[0] + max_len); pick.append([on[0], of[0]]) *)
            let t := plus_maxlen o max_len in
            Again on1 (t :: of1) (pick ++ [(o, t)])
        else
          (* pick.append([on[0], of[0]]) *)
          Again on1 of1 (pick ++ [(o, f)])
    end
    end
  else Done pick
  end
  end.

(** The loop is not structurally recursive, so it runs on fuel: [None]
    means that the fuel ran out before the loop condition became
    false. *)
Fixpoint loop (fuel : nat) (max_len : maxlen) (max_len_delete : bool)
         (on : list Z) (of_ : list off) (pick : list interval)
  : option (res (list interval)) :=
  match fuel with
  | O => None
  | S fuel' =>
      match pass max_len max_len_delete on of_ pick with
      | Done pick' => Some (Ok pick')
      | Fails e => Some (Raise e)
      | Again on' of' pick' => loop fuel' max_len max_len_delete on' of' pick'
      end
  end.

(** The lists [on] and [of] before the loop. *)
Definition candidates (max_len_delete : bool) (ind1 ind2 : list Z) (first : Z)
  : res (list Z * list off) :=
  let on := [first] in
  let of_ := [Idx (-1)] in
  let of_ := of_ ++ map Idx (gap_ends ind2) in
  let on := on ++ gap_starts ind1 in
  if max_len_delete then
    lst <- last_item on ;;
    Ok (on ++ [lst], of_ ++ [Sentinel])
  else
    lst <- last_item ind2 ;;
    Ok (on, of_ ++ [Idx lst]).

(** The first indices of the runs of consecutive indices in [ind], and
    the first index of the last run. *)
Definition run_starts (ind : list Z) : list Z :=
  match ind with
  | [] => []
  | first :: _ => first :: gap_starts ind
  end.

Definition last_run_start (ind : list Z) : option Z :=
  match last_item (run_starts ind) with
  | Ok s => Some s
  | Raise _ => None
  end.

(** Each pass of the loop that does not end it removes an element of
    [on], at once or in the pass that follows, so twice the length of
    [on] bounds the number of passes when [max_len] is not negative. *)
Definition passes (on : list Z) : nat := 2 * length on + 1.

End Onset.

Import Onset.

Definition triggerOnset (charfct : list float) (thres1 thres2 : float)
           (max_len : maxlen) (max_len_delete : bool)
  : option (res (list interval)) :=
  let ind1 := where_gt charfct thres1 in
  match ind1 with
  | [] => Some (Ok [])
  | first :: _ =>
      let ind2 := where_gt charfct thres2 in
      match candidates max_len_delete ind1 ind2 first with
      | Raise e => Some (Raise e)
      | Ok (on, of_) => loop (passes on) max_len max_len_delete on of_ []
      end
  end.

(** * Predicates of the statements and of the loop invariants *)

(** The window lengths that the contract of the characteristic functions
    rejects for a trace of [n] samples. *)
Definition invalid_window (n nsta nlta : Z) : Prop :=
  (nsta <= 0 \/ nlta <= 0 \/ nsta >= n \/ nlta >= n)%Z.

(** The value that the classic STA/LTA divides by on its prefix: [nlta]
    ones summed up, over [nlta]. *)
Definition classic_prefix_lta (nlta : Z) : float :=
  (Nat.iter (Z.to_nat nlta) (fun s => s + 1) 0 / Fl.of_int nlta)%float.

(** The loop state once the samples [1 .. k] are processed. *)
Definition rec_inv (a : list float) (nsta nlta : Z) (k : nat) (st : rec_state)
  : Prop :=
  fst (fst st) = spec_sta a nsta k
  /\ snd (fst st) = spec_lta a nlta k
  /\ length (snd st) = length a
  /\ nth 0 (snd st) 0%float = 0%float
  /\ forall j, (1 <= j <= k)%nat -> nth j (snd st) 0%float = spec_cf a nsta nlta j.

(** [max_len] is not negative. *)
Definition nonneg (ml : maxlen) : Prop :=
  match ml with Len m => (0 <= m)%Z | NoLimit => True end.

(** The first pass to come removes the head of [on]. *)
Definition stale (on : list Z) (of_ : list off) : Prop :=
  match on, of_ with
  | o :: _, h :: _ => le_off o h = true
  | _, _ => False
  end.

(** When events are not deleted, [of] holds indices only and every pick
    is at most [max_len] long. *)
Definition bounded (m : Z) (of_ : list off) (pick : list interval) : Prop :=
  Forall (fun f => exists z, f = Idx z) of_
  /\ Forall (fun p => exists z, snd p = Idx z /\ (z - fst p <= m)%Z) pick.

(** [f <= h] for two elements of [of]. *)
Definition off_le (f h : off) : Prop :=
  match f, h with
  | Idx a, Idx b => (a <= b)%Z
  | _, Sentinel => True
  | Sentinel, Idx _ => False
  end.

(** The picks as the detector promises them: every pick has its on index
    at or before its off index, and of two picks the earlier one has the
    smaller on index and ends before the later one starts. *)
Definition well_ordered (pick : list interval) : Prop :=
  Forall (fun p => le_off (fst p) (snd p) = true) pick
  /\ forall i j p q,
       (i < j)%nat -> nth_error pick i = Some p -> nth_error pick j = Some q ->
       (fst p < fst q)%Z /\ off_lt (snd p) (fst q) = true.

(** The loop invariant: the picks are well ordered and none of them ends
    after [of[0]]. *)
Definition ordered_inv (of_ : list off) (pick : list interval) : Prop :=
  well_ordered pick
  /\ (pick = []
      \/ exists h t, of_ = h :: t /\ Forall (fun p => off_le (snd p) h) pick).

(** With a negative [max_len] and no deletion the loop never ends: every
    pass finds an interval that is too long, inserts an off index below
    [on[0]] and leaves [on] as it is. *)
Definition endless (on : list Z) (of_ : list off) : Prop :=
  exists o on' h t lst,
    on = o :: on' /\ of_ = h :: t
    /\ last_item on = Ok lst /\ (o <= lst)%Z
    /\ le_off o h = false.

(** When the last event is kept: [of] ends with the last index above
    [thres2], which no on-candidate exceeds. *)
Definition keep_safe (on : list Z) (of_ : list off) : Prop :=
  on <> []
  /\ exists pre lst, of_ = pre ++ [Idx lst] /\ Forall (fun o => (o <= lst)%Z) on.

(** When the last event is dropped: [of] ends with the sentinel, and [on]
    ends with its last candidate twice, or is down to that candidate. *)
Definition drop_safe (on : list Z) (of_ : list off) : Prop :=
  (exists pre, of_ = pre ++ [Sentinel])
  /\ ((exists pre a, on = pre ++ [a; a])
      \/ (exists a h t, on = [a] /\ of_ = h :: t /\ le_off a h = true)).

(** When events are deleted and [max_len] is below the sentinel, every
    pick ends at an index followed by a gap. *)
Definition from_gaps (G : list Z) (on : list Z) (of_ : list off)
           (pick : list interval) : Prop :=
  Forall (fun o => (0 <= o)%Z) on
  /\ Forall (fun f => f = Sentinel \/ f = Idx (-1)
                      \/ exists z, f = Idx z /\ In z G) of_
  /\ Forall (fun p => exists z, snd p = Idx z /\ In z G) pick.

(** [z] is an index of the trace and [charfct[z] > thres]. *)
Definition above (charfct : list float) (thres : float) (z : Z) : bool :=
  (0 <=? z)%Z && (z <? Z.of_nat (length charfct))%Z
  && PrimFloat.ltb thres (nth (Z.to_nat z) charfct 0%float).

(** Every on index, in [on] or in a pick, is one of [R]. *)
Definition on_from (R : list Z) (on : list Z) (pick : list interval) : Prop :=
  Forall (fun o => In o R) on /\ Forall (fun p => In (fst p) R) pick.

(** When events are deleted, every pick is at most [max_len] long. *)
Definition within (m : Z) (pick : list interval) : Prop :=
  Forall (fun p => exists z, snd p = Idx z /\ (z - fst p <= m)%Z) pick.

(** The loop cannot end while every element of [of] lies before the last
    on-candidate. *)
Definition off_short (s : Z) (on : list Z) (of_ : list off) : Prop :=
  last_item on = Ok s
  /\ Forall (fun f => exists z, f = Idx z /\ (z < s)%Z) of_.

(** With a negative [max_len] and no deletion, the state in which every
    pass inserts a new off index and leaves [on] untouched. *)
Definition runs_on (lst_of : Z) (on : list Z) (of_ : list off) : Prop :=
  exists o on' lst h t pre,
    on = o :: on' /\ last_item on = Ok lst /\ (o <= lst)%Z
    /\ of_ = h :: t /\ le_off o h = false
    /\ of_ = pre ++ [Idx lst_of] /\ (o <= lst_of)%Z.

(** [z] is the last index of a run of consecutive indices of [ind2], whose
    last index is [lst]. *)
Definition is_end (ind2 : list Z) (lst : Z) (z : Z) : Prop :=
  In z (gap_ends ind2) \/ z = lst.

(** [z] lies in one of the picks. *)
Definition covered (pick : list interval) (z : Z) : Prop :=
  exists o f, In (o, Idx f) pick /\ (o <= z <= f)%Z.

(** The loop invariant of the default detector ([max_len] left at its
    default, no deletion): [on] holds, in order, the run starts of [ind1]
    beyond [of[0]]; [of] holds, in order, the run ends of [ind2] from
    [of[0]] on; every pick runs from a run start of [ind1] to the first run
    end of [ind2] that is not before it; and every index of [ind1] up to
    [of[0]] lies in a pick. *)
Definition default_inv (ind1 ind2 : list Z) (lst : Z)
           (on : list Z) (of_ : list off) (pick : list interval) : Prop :=
  StronglySorted Z.lt on
  /\ Forall (fun o => In o (run_starts ind1)) on
  /\ (exists h ez,
         of_ = map Idx (h :: ez)
         /\ StronglySorted Z.lt (h :: ez)
         /\ (h = (-1)%Z \/ is_end ind2 lst h)
         /\ Forall (is_end ind2 lst) ez
         /\ (forall g, is_end ind2 lst g -> (h <= g)%Z -> In g (h :: ez))
         /\ (forall r, In r (run_starts ind1) -> (h < r)%Z -> In r on)
         /\ (forall z, In z ind1 -> covered pick z \/ (h < z)%Z))
  /\ Forall (fun p => exists f,
                 snd p = Idx f /\ In (fst p) ind1 /\ (fst p <= f)%Z
                 /\ is_end ind2 lst f
                 /\ forall g, is_end ind2 lst g -> (fst p <= g)%Z -> (f <= g)%Z)
            pick.

(** All on-candidates are indices and all of [of] lies below [n]. *)
Definition in_trace (n : Z) (on : list Z) (of_ : list off) : Prop :=
  Forall (fun o => (0 <= o)%Z) on
  /\ Forall (fun f => exists z, f = Idx z /\ (z < n)%Z) of_.

(** A window length that fits the trace: between 0 and the number of
    samples, both included. *)
Definition fits_trace (a : Np.array) (n : Z) : Prop :=
  (0 <= n <= Z.of_nat (length a))%Z.

(** The sum that the sliding-sum loop builds at index [k] for a window of
    [n] samples: the squares of [a[k - n]], ..., [a[k - 1]], added to 0 in
    this order. *)
Definition window_sum (a : Np.array) (n : Z) (k : nat) : float :=
  fold_left (fun s i =>
               let x := nth (Z.to_nat (Z.of_nat k - n + i)) a 0%float in
               (s + x * x)%float)
            (Py.xrange 0 n) 0%float.

(** [a[z]] for an index in range, a negative one counting from the end. *)
Definition wrapped (a : Np.array) (z : Z) : float :=
  nth (Z.to_nat (if (z <? 0)%Z then z + Z.of_nat (length a) else z)%Z) a 0%float.

(** [s[k] = term(k) + s[k - 1]], started from 0. *)
Fixpoint running (term : Z -> float) (k : nat) : float :=
  match k with
  | O => (term 0%Z + 0)%float
  | S j => (term (Z.of_nat k) + running term j)%float
  end.

Definition delayed_sta (a : Np.array) (nsta : Z) : nat -> float :=
  running (fun i => ((wrapped a i * wrapped a i
                      + wrapped a (i - nsta) * wrapped a (i - nsta))
                     / Fl.of_int nsta)%float).

Definition delayed_lta (a : Np.array) (nsta nlta : Z) : nat -> float :=
  running (fun i => ((wrapped a (i - nsta - 1) * wrapped a (i - nsta - 1)
                      + wrapped a (i - nsta - nlta - 1)
                        * wrapped a (i - nsta - nlta - 1))
                     / Fl.of_int nlta)%float).

(** The loop state once the indices below [k] are processed. *)
Definition delayed_inv (a : Np.array) (nsta nlta : Z) (k : nat)
           (st : Np.array * Np.array) : Prop :=
  length (fst st) = length a /\ length (snd st) = length a
  /\ (forall j, (j < k)%nat ->
                nth j (fst st) 0%float = delayed_sta a nsta j
                /\ nth j (snd st) 0%float = delayed_lta a nsta nlta j)
  /\ (forall j, (k <= j)%nat ->
                nth j (fst st) 0%float = 0%float
                /\ nth j (snd st) 0%float = 0%float).

(** The loop state of the detector with the default [max_len] and
    [max_len_delete] set, when every gap end of the indices above [thres2]
    lies before the last on-candidate [s]: [on] still ends with [s], [of]
    holds the sentinel and indices before [s], and the last pick, when
    there is one, ends at [of[0]]. *)
Definition sentinel_inv (s : Z) (on : list Z) (of_ : list off)
           (pick : list interval) : Prop :=
  last_item on = Ok s
  /\ Forall (fun f => f = Sentinel \/ exists z, f = Idx z /\ (z < s)%Z) of_
  /\ ((pick = [] /\ exists t, of_ = Idx (-1) :: t)
      \/ exists o f t, of_ = f :: t /\ last_item pick = Ok (o, f)).

(** * Properties *)

(** ** The two float constants of the onset detector

    [sentinel_value] is the value of the binary64 literal [1e99];
    subtracting a sample index from [1e99] gives [1e99] again, which is
    not above the default [max_len], [9e99]. *)
Lemma sentinel_as_float :
  Prim2SF 0x1.d42aea2879f2ep+328 = S754_finite false 8236092143148846 276
  /\ (0x1.d42aea2879f2ep+328 - Fl.of_int 2 = 0x1.d42aea2879f2ep+328)%float
  /\ PrimFloat.ltb 0x1.075823b6c498ap+332
                   (0x1.d42aea2879f2ep+328 - Fl.of_int 2) = false.
Proof. repeat split; vm_compute; reflexivity. Qed.

(** ** Lists, slices and loops *)

Section ListFacts.

Context {A : Type}.

Lemma set_item_length (l : list A) k v : length (Py.set_item l k v) = length l.
Proof.
  revert k; induction l as [|x l IH]; intros [|k]; simpl; auto.
Qed.

Lemma set_item_same (l : list A) k v d :
  (k < length l)%nat -> nth k (Py.set_item l k v) d = v.
Proof.
  revert k; induction l as [|x l IH]; intros [|k] H; simpl in *;
    try lia; auto.
  apply IH; lia.
Qed.

Lemma set_item_other (l : list A) k j v d :
  j <> k -> nth j (Py.set_item l k v) d = nth j l d.
Proof.
  revert k j; induction l as [|x l IH]; intros [|k] [|j] H; simpl;
    auto; try congruence.
Qed.

Lemma clamp_range n k : (0 <= n -> 0 <= Py.clamp n k <= n)%Z.
Proof. unfold Py.clamp; intros; destruct (k <? 0)%Z; lia. Qed.

Lemma clamp_id n k : (0 <= k <= n -> Py.clamp n k = k)%Z.
Proof.
  unfold Py.clamp; intros H.
  destruct (k <? 0)%Z eqn:E; [apply Z.ltb_lt in E|]; lia.
Qed.

Lemma slice_length (l : list A) i j :
  (0 <= i <= j)%Z -> (j <= Z.of_nat (length l))%Z ->
  length (Py.slice l i j) = Z.to_nat (j - i).
Proof.
  intros Hi Hj. unfold Py.slice.
  rewrite !clamp_id by lia.
  rewrite length_firstn, length_skipn. lia.
Qed.

Lemma set_slice_length (l : list A) i j v :
  length (Py.set_slice l i j v) = length l.
Proof.
  unfold Py.set_slice.
  pose proof (clamp_range i (Nat2Z.is_nonneg (length l))) as Hi.
  pose proof (clamp_range j (Nat2Z.is_nonneg (length l))) as Hj.
  rewrite !length_app, length_firstn, repeat_length, length_skipn. lia.
Qed.

Lemma set_slice_prefix (l : list A) j v d k :
  (0 <= j)%Z -> (Z.of_nat k < j)%Z -> (k < length l)%nat ->
  nth k (Py.set_slice l 0 j v) d = v.
Proof.
  intros Hj Hk Hl. unfold Py.set_slice.
  rewrite (@clamp_id _ 0%Z) by lia. simpl.
  rewrite Z.sub_0_r, app_nth1.
  - apply nth_repeat_lt.
    unfold Py.clamp. destruct (j <? 0)%Z eqn:E; [apply Z.ltb_lt in E|]; lia.
  - rewrite repeat_length.
    unfold Py.clamp. destruct (j <? 0)%Z eqn:E; [apply Z.ltb_lt in E|]; lia.
Qed.

Lemma get_item_in_range (l : list A) k :
  (- Z.of_nat (length l) <= k < Z.of_nat (length l))%Z ->
  exists x, Py.get_item l k = Ok x.
Proof.
  intros H. unfold Py.get_item.
  set (k' := if (k <? 0)%Z then (k + Z.of_nat (length l))%Z else k).
  assert (Hk : (0 <= k' < Z.of_nat (length l))%Z).
  { unfold k'. destruct (k <? 0)%Z eqn:E;
      [apply Z.ltb_lt in E | apply Z.ltb_ge in E]; lia. }
  replace ((k' <? 0)%Z || (Z.of_nat (length l) <=? k')%Z) with false
    by (symmetry; apply orb_false_iff; split;
        [apply Z.ltb_ge | apply Z.leb_gt]; lia).
  destruct (nth_error l (Z.to_nat k')) eqn:E; eauto.
  apply nth_error_None in E. lia.
Qed.

End ListFacts.

(** A loop keeps what each pass keeps. *)
Lemma for_each_invariant {S X : Type} (P : S -> Prop) (Q : X -> Prop)
      (body : S -> X -> res S) xs :
  (forall s x s', P s -> Q x -> body s x = Ok s' -> P s') ->
  Forall Q xs ->
  forall s s', P s -> Py.for_each body xs s = Ok s' -> P s'.
Proof.
  intros Hbody HQ. induction HQ as [|x xs Hx _ IH]; simpl; intros s s' Hs H.
  - congruence.
  - destruct (body s x) as [s1|e] eqn:E; simpl in H; [|discriminate].
    eapply IH; [|exact H]. eapply Hbody; eauto.
Qed.

(** A loop whose passes never raise under an invariant never raises. *)
Lemma for_each_total {S X : Type} (P : S -> Prop) (Q : X -> Prop)
      (body : S -> X -> res S) xs :
  (forall s x, P s -> Q x -> exists s', body s x = Ok s' /\ P s') ->
  Forall Q xs ->
  forall s, P s -> exists s', Py.for_each body xs s = Ok s' /\ P s'.
Proof.
  intros Hbody HQ. induction HQ as [|x xs Hx _ IH]; simpl; intros s Hs.
  - eauto.
  - destruct (Hbody s x Hs Hx) as (s1 & E & H1). rewrite E. simpl. auto.
Qed.

Lemma xrange_bounds lo hi : Forall (fun i => (lo <= i < hi)%Z) (Py.xrange lo hi).
Proof.
  unfold Py.xrange. apply Forall_forall. intros i Hi.
  apply in_map_iff in Hi. destruct Hi as (k & <- & Hk).
  apply in_seq in Hk. lia.
Qed.

(** ** Shapes of NumPy results *)

Lemma zip_with_length f x y :
  length x = length y -> length (Np.zip_with f x y) = length x.
Proof.
  revert y; induction x as [|u x IH]; intros [|v y] H; simpl in *;
    try discriminate; auto.
Qed.

Lemma zip_with_nth f x y k :
  length x = length y -> (k < length x)%nat ->
  nth k (Np.zip_with f x y) 0%float = f (nth k x 0%float) (nth k y 0%float).
Proof.
  revert y k; induction x as [|u x IH]; intros [|v y] [|k] H Hk; simpl in *;
    try discriminate; try lia; auto.
  apply IH; lia.
Qed.

Lemma broadcast_same f x y :
  length x = length y -> Np.broadcast f x y = Ok (Np.zip_with f x y).
Proof. intros H. unfold Np.broadcast. rewrite H, Nat.eqb_refl. reflexivity. Qed.

Lemma broadcast_inplace_same f x y :
  length x = length y -> Np.broadcast_inplace f x y = Ok (Np.zip_with f x y).
Proof.
  intros H. unfold Np.broadcast_inplace. rewrite H, Nat.eqb_refl. reflexivity.
Qed.

Lemma full_nonneg v n : (0 <= n)%Z -> Np.full v n = Ok (repeat v (Z.to_nat n)).
Proof.
  intros H. unfold Np.full.
  destruct (n <? 0)%Z eqn:E; [apply Z.ltb_lt in E; lia | reflexivity].
Qed.

Lemma full_negative v n : (n < 0)%Z -> Np.full v n = Raise ValueError.
Proof. intros H. unfold Np.full. apply Z.ltb_lt in H. rewrite H. reflexivity. Qed.

(** With a window that fits the trace, each pass of the sliding sum adds
    an array of the length of the accumulator. *)
Section WindowPass.

Variable op : Np.array -> Np.array -> res Np.array.
Variable f : float -> float -> float.
Hypothesis op_same :
  forall x y, length x = length y -> op x y = Ok (Np.zip_with f x y).

Variable m : nat.
Variable n : Z.
Variable pad : Np.array.
Variable src : Z -> res Np.array.
Hypothesis pad_length : length pad = Z.to_nat n.
Hypothesis src_ok :
  forall i, (0 <= i < n)%Z ->
            exists s, src i = Ok s /\ length s = (m - Z.to_nat n)%nat.
Hypothesis fits : (0 <= n <= Z.of_nat m)%Z.

Lemma window_pass_total acc :
  length acc = m ->
  exists r, window_pass op pad src n acc = Ok r /\ length r = m.
Proof.
  intros Hacc. unfold window_pass.
  apply for_each_total with (P := fun s => length s = m)
                            (Q := fun i => (0 <= i < n)%Z); auto.
  - intros s i Hs Hi. destruct (src_ok Hi) as (w & -> & Hw). simpl.
    assert (L : length s = length (pad ++ w))
      by (rewrite length_app, pad_length, Hw; lia).
    rewrite (op_same _ _ L). eexists; split; [reflexivity|].
    rewrite zip_with_length; auto.
  - apply xrange_bounds.
Qed.

End WindowPass.

Lemma square_length x : length (Np.square x) = length x.
Proof. apply length_map. Qed.

Lemma div_int_length x n : length (Np.div_int x n) = length x.
Proof. apply length_map. Qed.

Lemma zeros_like_length x : length (Np.zeros_like x) = length x.
Proof. apply repeat_length. Qed.

(** The slice [x[i : m - n + i]] taken in pass [i] of a window of length
    [n] over an array of length [m]. *)
Lemma window_slice_length (x : Np.array) n i :
  (0 <= n <= Z.of_nat (length x))%Z -> (0 <= i < n)%Z ->
  length (Py.slice x i (Z.of_nat (length x) - n + i))
  = (length x - Z.to_nat n)%nat.
Proof. intros Hn Hi. rewrite slice_length; lia. Qed.

(** ** Classic STA/LTA: shape of the result *)

Lemma classicSTALTA_shape a nsta nlta :
  (0 <= nsta <= Z.of_nat (length a))%Z ->
  (0 <= nlta <= Z.of_nat (length a))%Z ->
  exists sta lta,
    length sta = length a /\ length lta = length a /\
    classicSTALTA a nsta nlta
    = Ok (Np.zip_with PrimFloat.div (Py.set_slice sta 0 nlta 0%float) lta).
Proof.
  intros Hs Hl. unfold classicSTALTA, Np.zeros, Np.ones.
  rewrite (full_nonneg _ (proj1 Hs)). simpl.
  destruct (@window_pass_total Np.add PrimFloat.add (broadcast_same PrimFloat.add)
              (length a) nsta (repeat 0%float (Z.to_nat nsta))
              (fun i => Ok (Np.square
                 (Py.slice a i (Z.of_nat (length a) - nsta + i)))))
    with (acc := Np.zeros_like a) as (sta & Esta & Lsta).
  { apply repeat_length. }
  { intros i Hi. eexists; split; [reflexivity|].
    rewrite square_length. apply window_slice_length; lia. }
  { lia. }
  { apply zeros_like_length. }
  rewrite Esta. simpl.
  rewrite (full_nonneg _ (proj1 Hl)). simpl.
  destruct (@window_pass_total Np.add PrimFloat.add (broadcast_same PrimFloat.add)
              (length a) nlta (repeat 1%float (Z.to_nat nlta))
              (fun i => Ok (Np.square
                 (Py.slice a i (Z.of_nat (length a) - nlta + i)))))
    with (acc := Np.zeros_like a) as (lta & Elta & Llta).
  { apply repeat_length. }
  { intros i Hi. eexists; split; [reflexivity|].
    rewrite square_length. apply window_slice_length; lia. }
  { lia. }
  { apply zeros_like_length. }
  rewrite Elta. simpl.
  exists (Np.div_int sta nsta), (Np.div_int lta nlta).
  rewrite !div_int_length. repeat split; auto.
  unfold Np.div. apply broadcast_same.
  rewrite set_slice_length, !div_int_length. congruence.
Qed.

(** ** Z-detector: shape of the result *)

Lemma zDetect_sta_total a nsta :
  (0 <= nsta <= Z.of_nat (length a))%Z ->
  exists sta, zDetect_sta a nsta = Ok sta /\ length sta = length a.
Proof.
  intros Hs. unfold zDetect_sta, Np.zeros.
  rewrite (full_nonneg _ (proj1 Hs)). simpl.
  apply (@window_pass_total Np.add PrimFloat.add (broadcast_same PrimFloat.add)
              (length a) nsta (repeat 0%float (Z.to_nat nsta))).
  - apply repeat_length.
  - intros i Hi. eexists; split; [reflexivity|].
    rewrite square_length. apply window_slice_length; lia.
  - lia.
  - apply zeros_like_length.
Qed.

Lemma zDetect_total a nsta :
  (0 <= nsta <= Z.of_nat (length a))%Z ->
  exists cf, zDetect a nsta = Ok cf /\ length cf = length a.
Proof.
  intros Hs. destruct (zDetect_sta_total a Hs) as (sta & E & L).
  unfold zDetect. rewrite E. simpl. eexists; split; [reflexivity|].
  unfold Np.div_scalar, Np.sub_scalar. rewrite !length_map. exact L.
Qed.

(** ** Carl-Sta-Trig: shape of the result *)

Lemma absolute_length x : length (Np.absolute x) = length x.
Proof. apply length_map. Qed.

Lemma iadd_pass_total (m : nat) (n : Z) (src : Z -> res Np.array) acc :
  (0 <= n <= Z.of_nat m)%Z ->
  (forall i, (0 <= i < n)%Z ->
             exists s, src i = Ok s /\ length s = (m - Z.to_nat n)%nat) ->
  length acc = m ->
  exists r, window_pass Np.iadd (repeat 0%float (Z.to_nat n)) src n acc = Ok r
            /\ length r = m.
Proof.
  intros Hn Hsrc Hacc.
  apply (@window_pass_total Np.iadd PrimFloat.add
           (broadcast_inplace_same PrimFloat.add) m n); auto.
  apply repeat_length.
Qed.

Lemma carlSTATrig_shape a nsta nlta ratio quiet :
  (0 <= nsta <= Z.of_nat (length a))%Z ->
  (0 <= nlta <= Z.of_nat (length a))%Z ->
  exists eta,
    length eta = length a /\
    carlSTATrig a nsta nlta ratio quiet
    = Ok (Py.set_slice eta 0 nlta (-1)%float).
Proof.
  intros Hs Hl. unfold carlSTATrig, Np.zeros.
  rewrite (full_nonneg _ (proj1 Hs)), (full_nonneg _ (proj1 Hl)). simpl.
  set (m := Z.of_nat (length a)).
  (* sta *)
  destruct (@iadd_pass_total (length a) nsta
              (fun i => Ok (Py.slice a i (m - nsta + i))) (Np.zeros_like a))
    as (sta & Esta & Lsta); [lia | | apply zeros_like_length |].
  { intros i Hi. eexists; split; [reflexivity|].
    apply window_slice_length; lia. }
  rewrite Esta. simpl.
  assert (Lsta' : length (Np.div_int sta nsta) = length a)
    by (rewrite div_int_length; exact Lsta).
  (* lta *)
  destruct (@iadd_pass_total (length a) nlta
              (fun i => Ok (Py.slice (Np.div_int sta nsta) i (m - nlta + i)))
              (Np.zeros_like a))
    as (lta & Elta & Llta); [lia | | apply zeros_like_length |].
  { intros i Hi. eexists; split; [reflexivity|].
    unfold m. rewrite <- Lsta'. rewrite window_slice_length; lia. }
  rewrite Elta. simpl.
  set (lta' := Py.slice (0%float :: Np.div_int lta nlta) 0 m).
  assert (Llta' : length lta' = length a).
  { unfold lta'. rewrite slice_length; simpl; rewrite ?div_int_length; lia. }
  (* star *)
  destruct (@iadd_pass_total (length a) nsta
              (fun i => d <- Np.sub (Py.slice a i (m - nsta + i))
                                    (Py.slice lta' i (m - nsta + i)) ;;
                        Ok (Np.absolute d)) (Np.zeros_like a))
    as (star & Estar & Lstar); [lia | | apply zeros_like_length |].
  { intros i Hi.
    assert (L1 : length (Py.slice a i (m - nsta + i))
                 = (length a - Z.to_nat nsta)%nat)
      by (apply window_slice_length; lia).
    assert (L2 : length (Py.slice lta' i (m - nsta + i))
                 = (length a - Z.to_nat nsta)%nat)
      by (unfold m; rewrite <- Llta'; rewrite window_slice_length; lia).
    unfold Np.sub. rewrite broadcast_same by congruence. simpl.
    eexists; split; [reflexivity|].
    rewrite absolute_length, zip_with_length; congruence. }
  rewrite Estar. simpl.
  assert (Lstar' : length (Np.div_int star nsta) = length a)
    by (rewrite div_int_length; exact Lstar).
  (* ltar *)
  destruct (@iadd_pass_total (length a) nlta
              (fun i => Ok (Py.slice (Np.div_int star nsta) i (m - nlta + i)))
              (Np.zeros_like a))
    as (ltar & Eltar & Lltar); [lia | | apply zeros_like_length |].
  { intros i Hi. eexists; split; [reflexivity|].
    unfold m. rewrite <- Lstar'. rewrite window_slice_length; lia. }
  rewrite Eltar. simpl.
  (* eta *)
  set (sta' := Np.div_int sta nsta) in *.
  set (star' := Np.div_int star nsta) in *.
  assert (Lltar' : length (Np.scale ratio (Np.div_int ltar nlta)) = length a)
    by (unfold Np.scale; rewrite length_map, div_int_length; exact Lltar).
  unfold Np.sub at 1. rewrite broadcast_same by congruence. simpl.
  unfold Np.sub at 1. rewrite broadcast_same by congruence. simpl.
  assert (L1 : length (Np.zip_with PrimFloat.sub star'
                         (Np.scale ratio (Np.div_int ltar nlta))) = length a)
    by (rewrite zip_with_length; congruence).
  assert (L2 : length (Np.absolute (Np.zip_with PrimFloat.sub sta' lta'))
               = length a)
    by (rewrite absolute_length, zip_with_length; congruence).
  unfold Np.sub. rewrite broadcast_same by congruence. simpl.
  eexists; split; [|reflexivity].
  unfold Np.sub_scalar. rewrite length_map, zip_with_length; congruence.
Qed.

(** ** Delayed STA/LTA: shape of the result, and when it raises nothing *)

Lemma bind_ok {A B : Type} (c : res A) (k : A -> res B) b :
  Py.bind c k = Ok b -> exists a, c = Ok a /\ k a = Ok b.
Proof. destruct c; simpl; intros H; [eauto | discriminate]. Qed.

Lemma delayed_body_lengths a nsta nlta st i st' :
  delayed_body a nsta nlta st i = Ok st' ->
  length (fst st') = length (fst st) /\ length (snd st') = length (snd st).
Proof.
  destruct st as [sta lta]. unfold delayed_body. intros H.
  repeat (apply bind_ok in H; destruct H as (? & _ & H)).
  inversion H; subst; simpl. rewrite !set_item_length. auto.
Qed.

Lemma delayedSTALTA_shape a nsta nlta cf :
  delayedSTALTA a nsta nlta = Ok cf ->
  exists sta lta,
    length sta = length a /\ length lta = length a /\
    cf = Np.zip_with PrimFloat.div
           (Py.set_slice sta 0 (nlta + nsta + 50) 0%float) lta.
Proof.
  unfold delayedSTALTA. intros H.
  apply bind_ok in H. destruct H as ([sta lta] & Hloop & H).
  assert (L : length sta = length a /\ length lta = length a).
  { apply (@for_each_invariant (Np.array * Np.array) Z
             (fun st => length (fst st) = length a /\ length (snd st) = length a)
             (fun _ => True)) in Hloop; auto.
    - intros s x s' [H1 H2] _ Hb. apply delayed_body_lengths in Hb.
      destruct Hb as [H3 H4].
      split; [exact (eq_trans H3 H1) | exact (eq_trans H4 H2)].
    - apply Forall_forall; auto.
    - simpl. rewrite zeros_like_length; auto. }
  destruct L as [L1 L2]. exists sta, lta. repeat split; auto.
  unfold Np.div in H. rewrite broadcast_same in H
    by (rewrite set_slice_length; congruence).
  congruence.
Qed.

Lemma delayedSTALTA_total a nsta nlta :
  (0 < nsta)%Z -> (0 < nlta)%Z ->
  (nsta + nlta + 1 <= Z.of_nat (length a))%Z ->
  exists cf, delayedSTALTA a nsta nlta = Ok cf.
Proof.
  intros Hs Hl Hm. unfold delayedSTALTA.
  destruct (@for_each_total (Np.array * Np.array) Z
              (fun st => length (fst st) = length a /\ length (snd st) = length a)
              (fun i => (0 <= i < Z.of_nat (length a))%Z)
              (delayed_body a nsta nlta)
              (Py.xrange 0 (Z.of_nat (length a))))
    with (s := (Np.zeros_like a, Np.zeros_like a))
    as ([sta lta] & E & L1 & L2).
  - intros [sta lta] i [L1 L2] Hi. simpl in L1, L2. unfold delayed_body.
    destruct (@get_item_in_range _ a i) as (x0 & ->); [lia|].
    destruct (@get_item_in_range _ a (i - nsta)) as (x1 & ->); [lia|].
    destruct (@get_item_in_range _ sta (i - 1)) as (s1 & ->); [lia|].
    destruct (@get_item_in_range _ a (i - nsta - 1)) as (x2 & ->); [lia|].
    destruct (@get_item_in_range _ a (i - nsta - nlta - 1)) as (x3 & ->); [lia|].
    destruct (@get_item_in_range _ lta (i - 1)) as (l1 & ->); [lia|].
    simpl. eexists; split; [reflexivity|]. simpl.
    rewrite !set_item_length. auto.
  - apply xrange_bounds.
  - simpl. rewrite zeros_like_length. auto.
  - rewrite E. simpl in *. unfold Np.div.
    rewrite broadcast_same by (rewrite set_slice_length; congruence).
    eauto.
Qed.

(** ** Recursive STA/LTA: shape of the result *)

Lemma rec_body_length a nlta c1 c2 c3 c4 st i st' :
  rec_body a nlta c1 c2 c3 c4 st i = Ok st' ->
  length (snd st') = length (snd st).
Proof.
  destruct st as [[sta lta] charfct]. unfold rec_body. intros H.
  repeat (apply bind_ok in H; destruct H as (? & _ & H)).
  inversion H; subst; simpl.
  destruct (i <? nlta)%Z; rewrite !set_item_length; reflexivity.
Qed.

Lemma recSTALTAPy_length a nsta nlta cf :
  recSTALTAPy a nsta nlta = Ok cf -> length cf = length a.
Proof.
  unfold recSTALTAPy. intros H.
  apply bind_ok in H. destruct H as (csta & _ & H).
  apply bind_ok in H. destruct H as (clta & _ & H).
  apply bind_ok in H. destruct H as (st & Hloop & H).
  inversion H; subst.
  apply (@for_each_invariant _ _ (fun st => length (snd st) = length a)
           (fun _ => True)) in Hloop; auto.
  - intros s x s' Hs _ Hb. apply rec_body_length in Hb. congruence.
  - apply Forall_forall; auto.
  - simpl. apply repeat_length.
Qed.

(** * Window lengths are not validated *)

(** C1, as stated, fails: with [nsta = nlta = len(samples)] the recursive
    and the classic STA/LTA raise nothing and return a characteristic
    function. *)
Lemma compute_accepts_windows_of_trace_length :
  invalid_window (Z.of_nat (length [1; 1]%float)) 2 2
  /\ compute Recursive [1; 1]%float 2 2 = Ok [0; 0]%float
  /\ invalid_window (Z.of_nat (length [1; 2; 3; 4]%float)) 4 4
  /\ compute Classic [1; 2; 3; 4]%float 4 4 = Ok [0; 0; 0; 0]%float.
Proof.
  repeat split; try (vm_compute; reflexivity);
    unfold invalid_window; simpl; lia.
Qed.

(** C1, amended: the failures that depend on the window lengths alone.
    The recursive STA/LTA raises [ZeroDivisionError] when [nsta = 0] or
    [nlta = 0], and the classic STA/LTA, Carl-Sta-Trig and the Z-detector
    raise [ValueError] when [nsta < 0]; the exception is the same for
    every trace, so it does not come from an access to the samples. *)
Theorem window_errors_before_samples (a : list float) (nsta nlta : Z) :
  ((nsta = 0 \/ nlta = 0)%Z ->
   recSTALTAPy a nsta nlta = Raise ZeroDivisionError)
  /\ ((nsta < 0)%Z ->
      classicSTALTA a nsta nlta = Raise ValueError
      /\ (forall ratio quiet,
             carlSTATrig a nsta nlta ratio quiet = Raise ValueError)
      /\ zDetect a nsta = Raise ValueError).
Proof.
  split.
  - intros [-> | ->]; unfold recSTALTAPy.
    + reflexivity.
    + destruct (Fl.py_div 1 (Fl.of_int nsta)) as [c|[]] eqn:E;
        try reflexivity; unfold Fl.py_div in E;
        destruct (PrimFloat.eqb _ _) in E; discriminate.
  - intros H. repeat split; intros;
      unfold classicSTALTA, carlSTATrig, zDetect, zDetect_sta, Np.zeros;
      rewrite (full_negative _ H); reflexivity.
Qed.

Lemma window_errors_before_samples_witness :
  recSTALTAPy [1; 2; 3]%float 0 2 = Raise ZeroDivisionError
  /\ classicSTALTA [1; 2; 3]%float (-1) 2 = Raise ValueError.
Proof.
  split.
  - apply (proj1 (window_errors_before_samples [1; 2; 3]%float 0 2)).
    left; reflexivity.
  - apply (proj2 (window_errors_before_samples [1; 2; 3]%float (-1) 2)).
    reflexivity.
Defined.

(** * Length of the characteristic function *)

(** C9, as stated, fails: within the window preconditions the delayed
    STA/LTA can raise [IndexError] (here [a[i - nsta - nlta - 1]] is
    [a[-5]] in a trace of three samples), so no characteristic function
    is returned. *)
Lemma delayedSTALTA_raises_within_preconditions :
  (0 < 2 < Z.of_nat (length [1; 1; 1]%float))%Z
  /\ compute Delayed [1; 1; 1]%float 2 2 = Raise IndexError.
Proof. split; [simpl; lia | vm_compute; reflexivity]. Qed.

(** C9, amended: under the window preconditions, a characteristic
    function that is returned has the length of the trace; the classic
    STA/LTA, Carl-Sta-Trig and the Z-detector always return one, and the
    delayed STA/LTA does when [nsta + nlta + 1 <= len(samples)]. *)
Theorem compute_length (v : variant) (a : list float) (nsta nlta : Z) :
  (0 < nsta < Z.of_nat (length a))%Z ->
  (0 < nlta < Z.of_nat (length a))%Z ->
  (forall cf, compute v a nsta nlta = Ok cf -> length cf = length a)
  /\ match v with
     | Recursive => True
     | Delayed =>
         (nsta + nlta + 1 <= Z.of_nat (length a))%Z ->
         exists cf, compute v a nsta nlta = Ok cf
     | _ => exists cf, compute v a nsta nlta = Ok cf
     end.
Proof.
  intros Hs Hl. destruct v as [| | |ratio quiet|]; simpl.
  - split; [|exact I]. intros cf. apply recSTALTAPy_length.
  - destruct (@classicSTALTA_shape a nsta nlta) as (sta & lta & L1 & L2 & E);
      try lia.
    rewrite E. split; [|eauto]. intros cf H. inversion H; subst.
    rewrite zip_with_length; rewrite set_slice_length; congruence.
  - split.
    + intros cf H. apply delayedSTALTA_shape in H.
      destruct H as (sta & lta & L1 & L2 & ->).
      rewrite zip_with_length; rewrite set_slice_length; congruence.
    + intros Hm. apply delayedSTALTA_total; lia.
  - destruct (@carlSTATrig_shape a nsta nlta ratio quiet) as (eta & L & E);
      try lia.
    rewrite E. split; [|eauto]. intros cf H. inversion H; subst.
    rewrite set_slice_length. exact L.
  - destruct (@zDetect_total a nsta) as (cf0 & E & L); try lia.
    rewrite E. split; [|eauto]. intros cf H. inversion H; subst. exact L.
Qed.

Lemma compute_length_witness :
  (forall cf, compute Classic [1; 2; 3; 4; 5; 6]%float 2 3 = Ok cf ->
              length cf = 6%nat)
  /\ exists cf, compute Classic [1; 2; 3; 4; 5; 6]%float 2 3 = Ok cf.
Proof.
  apply (@compute_length Classic [1; 2; 3; 4; 5; 6]%float 2 3);
    simpl; lia.
Defined.

(** * No onset *)

(** C5: when no sample of the characteristic function exceeds [thres1],
    the detector returns the empty sequence at once, whatever the other
    arguments are; no exception is raised and the loop is not entered. *)
Theorem triggerOnset_no_onset (charfct : list float) (thres1 thres2 : float)
        (max_len : maxlen) (max_len_delete : bool) :
  existsb (PrimFloat.ltb thres1) charfct = false ->
  triggerOnset charfct thres1 thres2 max_len max_len_delete = Some (Ok []).
Proof.
  intros H. unfold triggerOnset, where_gt.
  assert (E : forall k, where_gt_from k charfct thres1 = []).
  { revert H. induction charfct as [|x t IH]; simpl; intros H k; auto.
    apply orb_false_iff in H. destruct H as [-> H]. auto. }
  rewrite E. reflexivity.
Qed.

Lemma triggerOnset_no_onset_witness :
  triggerOnset [0; 1; 2; 1; 0]%float 3 1 NoLimit false = Some (Ok []).
Proof.
  apply (@triggerOnset_no_onset [0; 1; 2; 1; 0]%float 3 1 NoLimit false).
  reflexivity.
Defined.

(** * The warm-up prefix *)

Lemma xrange_length lo hi : length (Py.xrange lo hi) = Z.to_nat (hi - lo).
Proof. unfold Py.xrange. rewrite length_map, length_seq. reflexivity. Qed.

(** What a pass of the sliding sum does at one index carries over to the
    whole loop. *)
Lemma for_each_pointwise (g : float -> float) (k m : nat)
      (body : Np.array -> Z -> res Np.array) (Q : Z -> Prop) xs :
  (forall s i s', length s = m -> Q i -> body s i = Ok s' ->
                  length s' = m /\ nth k s' 0%float = g (nth k s 0%float)) ->
  Forall Q xs ->
  forall s r, length s = m -> Py.for_each body xs s = Ok r ->
              nth k r 0%float = Nat.iter (length xs) g (nth k s 0%float).
Proof.
  intros Hbody HQ. induction HQ as [|x xs Hx _ IH]; simpl; intros s r Hs H.
  - congruence.
  - apply bind_ok in H. destruct H as (s1 & E & H).
    destruct (Hbody _ _ _ Hs Hx E) as [L1 N1].
    rewrite (IH _ _ L1 H), N1. symmetry. apply Nat.iter_succ_r.
Qed.

(** In the padded part of the window the sliding sum adds the padding
    value once per pass, whatever the samples are. *)
Lemma window_pass_padding (pad_value : float) (a acc r : Np.array) (n : Z) k :
  (0 <= n <= Z.of_nat (length a))%Z ->
  length acc = length a ->
  (Z.of_nat k < n)%Z ->
  window_pass Np.add (repeat pad_value (Z.to_nat n))
    (fun i => Ok (Np.square (Py.slice a i (Z.of_nat (length a) - n + i))))
    n acc = Ok r ->
  nth k r 0%float
  = Nat.iter (Z.to_nat n) (fun s => (s + pad_value)%float) (nth k acc 0%float).
Proof.
  intros Hn Hacc Hk H. unfold window_pass in H.
  replace (Z.to_nat n) with (length (Py.xrange 0 n))
    by (rewrite xrange_length; f_equal; lia).
  eapply (@for_each_pointwise _ k (length a) _ (fun i => (0 <= i < n)%Z));
    [| apply xrange_bounds | exact Hacc | exact H].
  intros s i s' Ls Hi Hb. simpl in Hb.
  assert (L : length s
              = length (repeat pad_value (Z.to_nat n)
                          ++ Np.square (Py.slice a i (Z.of_nat (length a) - n + i)))).
  { rewrite length_app, repeat_length, square_length, window_slice_length; lia. }
  unfold Np.add in Hb. rewrite (broadcast_same _ _ _ L) in Hb.
  inversion Hb; subst s'. split.
  - rewrite zip_with_length; auto.
  - rewrite zip_with_nth by (auto; lia). f_equal.
    rewrite app_nth1 by (rewrite repeat_length; lia).
    apply nth_repeat_lt. lia.
Qed.

Lemma rec_body_prefix a nlta c1 c2 c3 c4 st i st' :
  (1 <= i)%Z ->
  (forall k, (Z.of_nat k < nlta)%Z -> nth k (snd st) 0%float = 0%float) ->
  rec_body a nlta c1 c2 c3 c4 st i = Ok st' ->
  forall k, (Z.of_nat k < nlta)%Z -> nth k (snd st') 0%float = 0%float.
Proof.
  destruct st as [[sta lta] charfct]. unfold rec_body. intros Hi Hst H k Hk.
  repeat (apply bind_ok in H; destruct H as (? & _ & H)).
  inversion H; subst; simpl in *. clear H.
  destruct (i <? nlta)%Z eqn:E.
  - destruct (Nat.eq_dec k (Z.to_nat i)) as [->|Hne].
    + destruct (Nat.lt_ge_cases (Z.to_nat i) (length charfct)) as [Hlt|Hge].
      * apply set_item_same. rewrite set_item_length. exact Hlt.
      * apply nth_overflow. rewrite !set_item_length. exact Hge.
    + rewrite !set_item_other by exact Hne. auto.
  - apply Z.ltb_ge in E. rewrite set_item_other by lia. auto.
Qed.

Lemma recSTALTAPy_prefix a nsta nlta cf :
  recSTALTAPy a nsta nlta = Ok cf ->
  forall k, (Z.of_nat k < nlta)%Z -> nth k cf 0%float = 0%float.
Proof.
  unfold recSTALTAPy. intros H.
  apply bind_ok in H. destruct H as (csta & _ & H).
  apply bind_ok in H. destruct H as (clta & _ & H).
  apply bind_ok in H. destruct H as (st & Hloop & H).
  inversion H; subst.
  eapply (@for_each_invariant rec_state Z
            (fun st => forall k, (Z.of_nat k < nlta)%Z ->
                                 nth k (snd st) 0%float = 0%float)
            (fun i => (1 <= i < Z.of_nat (length a))%Z));
    [ | apply xrange_bounds | | exact Hloop].
  - intros s x s' Hs Hx Hb. eapply rec_body_prefix; eauto. lia.
  - simpl. intros k _. apply nth_repeat.
Qed.

Lemma classicSTALTA_prefix a nsta nlta :
  (0 <= nsta <= Z.of_nat (length a))%Z ->
  (0 <= nlta <= Z.of_nat (length a))%Z ->
  exists cf,
    classicSTALTA a nsta nlta = Ok cf /\
    forall k, (Z.of_nat k < nlta)%Z ->
              nth k cf 0%float = (0 / classic_prefix_lta nlta)%float.
Proof.
  intros Hs Hl. unfold classicSTALTA, Np.zeros, Np.ones.
  rewrite (full_nonneg _ (proj1 Hs)). simpl.
  destruct (@window_pass_total Np.add PrimFloat.add (broadcast_same PrimFloat.add)
              (length a) nsta (repeat 0%float (Z.to_nat nsta))
              (fun i => Ok (Np.square
                 (Py.slice a i (Z.of_nat (length a) - nsta + i)))))
    with (acc := Np.zeros_like a) as (sta & Esta & Lsta).
  { apply repeat_length. }
  { intros i Hi. eexists; split; [reflexivity|].
    rewrite square_length. apply window_slice_length; lia. }
  { lia. }
  { apply zeros_like_length. }
  rewrite Esta. simpl.
  rewrite (full_nonneg _ (proj1 Hl)). simpl.
  destruct (@window_pass_total Np.add PrimFloat.add (broadcast_same PrimFloat.add)
              (length a) nlta (repeat 1%float (Z.to_nat nlta))
              (fun i => Ok (Np.square
                 (Py.slice a i (Z.of_nat (length a) - nlta + i)))))
    with (acc := Np.zeros_like a) as (lta & Elta & Llta).
  { apply repeat_length. }
  { intros i Hi. eexists; split; [reflexivity|].
    rewrite square_length. apply window_slice_length; lia. }
  { lia. }
  { apply zeros_like_length. }
  rewrite Elta. simpl.
  assert (L : length (Py.set_slice (Np.div_int sta nsta) 0 nlta 0%float)
              = length (Np.div_int lta nlta))
    by (rewrite set_slice_length, !div_int_length; congruence).
  unfold Np.div. rewrite (broadcast_same _ _ _ L).
  eexists; split; [reflexivity|]. intros k Hk.
  assert (Hka : (k < length a)%nat) by lia.
  rewrite zip_with_nth
    by (auto; rewrite set_slice_length, div_int_length; lia).
  rewrite set_slice_prefix by (rewrite ?div_int_length; lia).
  unfold classic_prefix_lta. f_equal.
  unfold Np.div_int.
  rewrite (nth_indep _ 0%float (0 / Fl.of_int nlta)%float)
    by (rewrite length_map; lia).
  rewrite (map_nth (fun u => (u / Fl.of_int nlta)%float)). f_equal.
  rewrite (@window_pass_padding 1%float a (Np.zeros_like a) lta nlta k);
    auto using zeros_like_length.
  unfold Np.zeros_like. rewrite nth_repeat. reflexivity.
Qed.

Lemma delayedSTALTA_prefix a nsta nlta cf :
  (0 <= nlta + nsta + 50)%Z ->
  delayedSTALTA a nsta nlta = Ok cf ->
  exists lta,
    length lta = length a /\
    forall k, (Z.of_nat k < nlta + nsta + 50)%Z -> (k < length a)%nat ->
              nth k cf 0%float = (0 / nth k lta 0)%float.
Proof.
  intros Hn H. apply delayedSTALTA_shape in H.
  destruct H as (sta & lta & L1 & L2 & ->).
  exists lta. split; [exact L2|]. intros k Hk Hka.
  rewrite zip_with_nth by (rewrite set_slice_length; lia || congruence).
  rewrite set_slice_prefix by lia. reflexivity.
Qed.




(** For instance the classic prefix value is zero for a window of three
    samples. *)
Example classic_prefix_three : (0 / classic_prefix_lta 3)%float = 0%float.
Proof. reflexivity. Qed.

(** * The Z-detector on a flat signal *)

(** A binary64 division by zero gives NaN or an infinity. *)
Lemma div_by_zero (x y : float) :
  PrimFloat.eqb y 0 = true ->
  is_nan (x / y) || is_infinity (x / y) = true.
Proof.
  intros H. unfold is_nan, is_infinity.
  rewrite eqb_spec in H. rewrite !eqb_spec, abs_spec, div_spec.
  change (Prim2SF 0) with (S754_zero false) in H.
  change (Prim2SF infinity) with (S754_infinity false).
  destruct (Prim2SF y) as [s|s| |s m e]; cbn in H;
    try discriminate H; try (destruct s; discriminate H).
  destruct (Prim2SF x) as [sx|sx| |sx mx ex]; try reflexivity;
    destruct sx, s; reflexivity.
Qed.

(** C8, as stated, fails: on a flat signal the standard deviation of the
    windowed sums is zero and the Z-detector raises nothing; it returns
    the quotients [0/0], that is NaN at every index. *)
Lemma zDetect_flat_signal_returns_nan :
  zDetect_sta [0; 0; 0; 0]%float 1 = Ok [0; 0; 0; 0]%float
  /\ Np.std [0; 0; 0; 0]%float = 0%float
  /\ zDetect [0; 0; 0; 0]%float 1 = Ok [nan; nan; nan; nan]%float.
Proof. repeat split; vm_compute; reflexivity. Qed.

(** C8, amended: when the standard deviation of the windowed sums is
    zero, the Z-detector raises nothing: it returns a sequence of the
    length of the sums, and every value in it is NaN or infinite. *)
Theorem zDetect_zero_deviation (a : list float) (nsta : Z) (sta : Np.array) :
  zDetect_sta a nsta = Ok sta ->
  PrimFloat.eqb (Np.std sta) 0 = true ->
  exists cf,
    zDetect a nsta = Ok cf
    /\ length cf = length sta
    /\ Forall (fun z => is_nan z || is_infinity z = true) cf.
Proof.
  intros Hsta Hstd. unfold zDetect. rewrite Hsta. simpl.
  eexists; split; [reflexivity|]. split.
  - unfold Np.div_scalar, Np.sub_scalar. rewrite !length_map. reflexivity.
  - unfold Np.div_scalar. apply Forall_forall. intros z Hz.
    apply in_map_iff in Hz. destruct Hz as (u & <- & _).
    apply div_by_zero. exact Hstd.
Qed.

Lemma zDetect_zero_deviation_witness :
  exists cf,
    zDetect [0; 0; 0; 0]%float 1 = Ok cf
    /\ length cf = 4%nat
    /\ Forall (fun z => is_nan z || is_infinity z = true) cf.
Proof.
  apply (@zDetect_zero_deviation [0; 0; 0; 0]%float 1 [0; 0; 0; 0]%float);
    vm_compute; reflexivity.
Defined.

(** * Constant-zero input *)

(** C6: the code does not keep the property.  On a constant-zero trace the
    classic STA/LTA divides 0 by 0 at every index from [nlta] on and
    returns NaN there; in the recursive STA/LTA the [lta], started at
    [1e-99] and multiplied by [1 - 1/nlta] at each sample, underflows to
    zero on a long trace and the division raises [ZeroDivisionError]. *)
Theorem zero_input_gives_nan_or_raises :
  classicSTALTA [0; 0; 0; 0]%float 1 2 = Ok [0; 0; nan; nan]%float
  /\ recSTALTAPy (repeat 0%float 800) 1 2 = Raise ZeroDivisionError
  /\ recSTALTAPy (repeat 0%float 8) 1 2 = Ok (repeat 0%float 8).
Proof. repeat split; vm_compute; reflexivity. Qed.

(** * The recursive STA/LTA and its recurrences *)

Lemma get_item_nth {A : Type} (l : list A) (k : Z) (x d : A) :
  (0 <= k)%Z -> Py.get_item l k = Ok x ->
  x = nth (Z.to_nat k) l d /\ (Z.to_nat k < length l)%nat.
Proof.
  intros Hk. unfold Py.get_item.
  destruct (k <? 0)%Z eqn:E; [apply Z.ltb_lt in E; lia|].
  destruct ((k <? 0)%Z || (Z.of_nat (length l) <=? k)%Z); [discriminate|].
  destruct (nth_error l (Z.to_nat k)) as [y|] eqn:N; [|discriminate].
  intros H; inversion H; subst. split.
  - symmetry. apply nth_error_nth. exact N.
  - apply nth_error_Some. congruence.
Qed.

Lemma py_square_ok x sq : Fl.py_square x = Ok sq -> sq = (x * x)%float.
Proof.
  unfold Fl.py_square. destruct (_ && _); [discriminate|]. congruence.
Qed.

Lemma py_div_ok x y q : Fl.py_div x y = Ok q -> q = (x / y)%float.
Proof.
  unfold Fl.py_div. destruct (PrimFloat.eqb y 0); [discriminate|]. congruence.
Qed.

Lemma py_div_defined x y :
  PrimFloat.eqb y 0 = false -> Fl.py_div x y = Ok (x / y)%float.
Proof. intros H. unfold Fl.py_div. rewrite H. reflexivity. Qed.

Section RecurrenceProof.

Variable a : list float.
Variables nsta nlta : Z.

Let csta : float := (1 / Fl.of_int nsta)%float.
Let clta : float := (1 / Fl.of_int nlta)%float.
Let body := rec_body a nlta csta clta (1 - csta)%float (1 - clta)%float.

Lemma rec_body_step k st st' :
  rec_inv a nsta nlta k st -> body st (Z.of_nat (S k)) = Ok st' -> rec_inv a nsta nlta (S k) st'.
Proof.
  destruct st as [[sta lta] charfct].
  intros (Hsta & Hlta & Hlen & H0 & Hcf) H. cbn [fst snd] in *. subst sta lta.
  remember (Z.of_nat (S k)) as i eqn:Ei.
  assert (Hi : Z.to_nat i = S k) by lia.
  unfold body, rec_body in H.
  apply bind_ok in H. destruct H as (x & Hx & H).
  apply bind_ok in H. destruct H as (sq & Hsq & H).
  apply bind_ok in H. destruct H as (q & Hq & H).
  apply (get_item_nth _ 0%float) in Hx; [|lia].
  rewrite Hi in Hx. destruct Hx as [-> Hk].
  apply py_square_ok in Hsq. apply py_div_ok in Hq. subst sq.
  change (q = spec_sta a nsta (S k) / spec_lta a nlta (S k))%float in Hq.
  rewrite Hi in H.
  assert (E : snd st'
              = if (i <? nlta)%Z
                then Py.set_item (Py.set_item charfct (S k) q) (S k) 0%float
                else Py.set_item charfct (S k) q)
    by (inversion H; reflexivity).
  assert (Esta : fst (fst st') = spec_sta a nsta (S k))
    by (inversion H; reflexivity).
  assert (Elta : snd (fst st') = spec_lta a nlta (S k))
    by (inversion H; reflexivity).
  clear H. unfold rec_inv. rewrite E.
  split; [exact Esta|]. split; [exact Elta|]. split; [|split].
  - destruct (i <? nlta)%Z; rewrite ?set_item_length; exact Hlen.
  - destruct (i <? nlta)%Z; rewrite ?set_item_other by lia; exact H0.
  - intros j Hj. destruct (Nat.eq_dec j (S k)) as [->|Hne].
    + unfold spec_cf. rewrite <- Ei. destruct (i <? nlta)%Z.
      * apply set_item_same. rewrite set_item_length. lia.
      * rewrite <- Hq. apply set_item_same. lia.
    + destruct (i <? nlta)%Z; rewrite ?set_item_other by exact Hne;
        apply Hcf; lia.
Qed.

Lemma rec_loop_spec n : forall k st st',
  rec_inv a nsta nlta k st ->
  Py.for_each body (map (fun j => (1 + Z.of_nat j)%Z) (seq k n)) st = Ok st' ->
  rec_inv a nsta nlta (k + n) st'.
Proof.
  induction n as [|n IH]; simpl; intros k st st' Hinv H.
  - inversion H; subst. rewrite Nat.add_0_r. exact Hinv.
  - apply bind_ok in H. destruct H as (s1 & E & H).
    replace (k + S n)%nat with (S k + n)%nat by lia.
    apply (IH (S k) s1 st'); [|exact H].
    apply (rec_body_step Hinv).
    replace (Z.of_nat (S k)) with (1 + Z.of_nat k)%Z by lia. exact E.
Qed.

Lemma rec_body_defined k st :
  (S k < length a)%nat ->
  rec_inv a nsta nlta k st ->
  (exists sq, Fl.py_square (nth (S k) a 0%float) = Ok sq) ->
  PrimFloat.eqb (spec_lta a nlta (S k)) 0 = false ->
  exists st', body st (Z.of_nat (S k)) = Ok st'.
Proof.
  destruct st as [[sta lta] charfct].
  intros Hk (Hsta & Hlta & _) [sq Hsq] Hnz. cbn [fst snd] in *. subst sta lta.
  remember (Z.of_nat (S k)) as i eqn:Ei.
  assert (Hi : Z.to_nat i = S k) by lia.
  unfold body, rec_body.
  destruct (@get_item_in_range _ a i) as (x & Hx); [lia|].
  rewrite Hx. cbn [Py.bind].
  apply (get_item_nth _ 0%float) in Hx; [|lia].
  rewrite Hi in Hx. destruct Hx as [-> _].
  rewrite Hsq. cbn [Py.bind]. apply py_square_ok in Hsq. subst sq.
  change (clta * (nth (S k) a 0 * nth (S k) a 0)
          + (1 - clta) * spec_lta a nlta k)%float
    with (spec_lta a nlta (S k)).
  rewrite (py_div_defined _ Hnz). cbn [Py.bind]. eauto.
Qed.

Lemma rec_loop_defined n : forall k st,
  (k + n < length a \/ n = 0)%nat ->
  rec_inv a nsta nlta k st ->
  (forall i, (k < i <= k + n)%nat ->
             (exists sq, Fl.py_square (nth i a 0%float) = Ok sq)
             /\ PrimFloat.eqb (spec_lta a nlta i) 0 = false) ->
  exists st',
    Py.for_each body (map (fun j => (1 + Z.of_nat j)%Z) (seq k n)) st = Ok st'.
Proof.
  induction n as [|n IH]; intros k st Hn Hinv Hok;
    cbn [seq map Py.for_each].
  - eauto.
  - destruct (Hok (S k)) as [Hsq Hnz]; [lia|].
    destruct (@rec_body_defined k st) as (s1 & E); auto; [lia|].
    replace (1 + Z.of_nat k)%Z with (Z.of_nat (S k)) by lia.
    rewrite E. cbn [Py.bind].
    apply (IH (S k) s1).
    + lia.
    + apply (rec_body_step Hinv E).
    + intros i Hi. apply Hok. lia.
Qed.

End RecurrenceProof.

Lemma rec_inv_init a nsta nlta :
  rec_inv a nsta nlta 0 (0%float, Fl.eps, repeat 0%float (length a)).
Proof.
  unfold rec_inv; cbn [fst snd]. repeat split.
  - apply repeat_length.
  - apply nth_repeat.
  - intros j Hj; lia.
Qed.

(** C3: the recursive STA/LTA computes the recurrences of the
    specification.  The [lta] starts from a positive epsilon; a returned
    characteristic function has the length of the trace and holds, at
    every index [i] of the trace, index 0 included, zero when [i < nlta]
    and [sta_i / lta_i] otherwise, where [sta_i] and [lta_i] follow the
    two recurrences; every index [i < nlta] of the output holds 0, and so
    does index 0 whatever [nlta] is; and the function returns whenever the
    window conversions are not zero, no square overflows and no [lta_i] is
    zero. *)
Theorem recSTALTAPy_recurrence (a : list float) (nsta nlta : Z) :
  PrimFloat.ltb 0 Fl.eps = true
  /\ (forall cf, recSTALTAPy a nsta nlta = Ok cf ->
        length cf = length a
        /\ (forall i, (i < length a)%nat ->
                      nth i cf 0%float = spec_cf a nsta nlta i)
        /\ (forall i, (Z.of_nat i < nlta)%Z -> nth i cf 0%float = 0%float)
        /\ nth 0 cf 0%float = 0%float)
  /\ (rec_defined a nsta nlta -> exists cf, recSTALTAPy a nsta nlta = Ok cf).
Proof.
  split; [reflexivity|]. split.
  - intros cf H. pose proof (@recSTALTAPy_prefix a nsta nlta cf H) as Hprefix.
    unfold recSTALTAPy in H.
    apply bind_ok in H. destruct H as (csta & Hcsta & H).
    apply bind_ok in H. destruct H as (clta & Hclta & H).
    apply bind_ok in H. destruct H as (st & Hloop & H).
    apply py_div_ok in Hcsta, Hclta. subst csta clta.
    inversion H; subst cf; clear H.
    unfold Py.xrange in Hloop.
    apply (@rec_loop_spec a nsta nlta _ 0 _ _ (rec_inv_init a nsta nlta))
      in Hloop.
    destruct Hloop as (_ & _ & Hlen & H0 & Hcf).
    split; [exact Hlen|]. split; [|split; [exact Hprefix | exact H0]].
    intros [|i] Hi; [|apply Hcf; lia].
    rewrite H0. unfold spec_cf.
    destruct (Z.of_nat 0 <? nlta)%Z; reflexivity.
  - intros (Hs & Hl & Hok). unfold recSTALTAPy.
    rewrite (py_div_defined _ Hs), (py_div_defined _ Hl). cbn [Py.bind].
    unfold Py.xrange.
    destruct (@rec_loop_defined a nsta nlta
                (Z.to_nat (Z.of_nat (length a) - 1)) 0
                (0%float, Fl.eps, repeat 0%float (length a)))
      as (st & E).
    + lia.
    + apply rec_inv_init.
    + intros i Hi. apply Hok. lia.
    + rewrite E. cbn [Py.bind]. eauto.
Qed.

Lemma recSTALTAPy_recurrence_witness :
  rec_defined [1; 2; 3]%float 1 2
  /\ exists cf, recSTALTAPy [1; 2; 3]%float 1 2 = Ok cf.
Proof.
  assert (D : rec_defined [1; 2; 3]%float 1 2).
  { repeat split; try (vm_compute; reflexivity).
    - destruct i as [|[|[|i]]]; simpl in H; try lia;
        eexists; vm_compute; reflexivity.
    - destruct i as [|[|[|i]]]; simpl in H; try lia;
        vm_compute; reflexivity. }
  split; [exact D|].
  apply (proj2 (proj2 (recSTALTAPy_recurrence [1; 2; 3]%float 1 2)) D).
Defined.

(** The recurrences on a short trace. *)
Example recSTALTAPy_example :
  recSTALTAPy [1; 2; 3; 4]%float 1 2
  = Ok [0; 0; spec_sta [1; 2; 3; 4] 1 2 / spec_lta [1; 2; 3; 4] 2 2;
        spec_sta [1; 2; 3; 4] 1 3 / spec_lta [1; 2; 3; 4] 2 3]%float.
Proof. vm_compute. reflexivity. Qed.

(** * The onset detector *)

(** ** The two inner loops *)

Lemma gt_off_le_off i f : gt_off i f = negb (le_off i f).
Proof. destruct f; simpl; [apply Z.ltb_antisym | reflexivity]. Qed.

Lemma last_item_app {A : Type} (l : list A) x : last_item (l ++ [x]) = Ok x.
Proof. unfold last_item. rewrite rev_app_distr. reflexivity. Qed.

Lemma last_item_cons {A : Type} (x y : A) l :
  last_item (x :: y :: l) = last_item (y :: l).
Proof.
  unfold last_item. simpl.
  destruct (rev l ++ [y]) as [|z t] eqn:E; [|reflexivity].
  destruct (rev l); discriminate.
Qed.

Lemma last_item_In {A : Type} (l : list A) x : last_item l = Ok x -> In x l.
Proof.
  unfold last_item. destruct (rev l) as [|y t] eqn:E; [discriminate|].
  intros H; inversion H; subst. apply in_rev. rewrite E. left; reflexivity.
Qed.

(** [on.pop(0)] stops at the first index above [of[0]]; it cannot empty
    [on] when the last index is above [of[0]]. *)
Lemma pop_on_spec on f lst :
  last_item on = Ok lst -> gt_off lst f = true ->
  exists pre o on',
    pop_on on f = Ok (o :: on')
    /\ on = pre ++ o :: on'
    /\ le_off o f = false
    /\ Forall (fun x => le_off x f = true) pre
    /\ last_item (o :: on') = Ok lst.
Proof.
  induction on as [|x on IH]; intros Hl Hg; [discriminate|].
  simpl. destruct (le_off x f) eqn:E.
  - destruct on as [|y on].
    + unfold last_item in Hl; simpl in Hl. inversion Hl; subst.
      rewrite gt_off_le_off, E in Hg. discriminate.
    + rewrite last_item_cons in Hl.
      destruct (IH Hl Hg) as (pre & o & on' & H1 & H2 & H3 & H4 & H5).
      exists (x :: pre), o, on'. rewrite H1, H2. repeat split; auto.
  - exists [], x, on. repeat split; auto.
Qed.

Lemma pop_on_ok on f on1 :
  pop_on on f = Ok on1 ->
  exists pre,
    on = pre ++ on1
    /\ Forall (fun x => le_off x f = true) pre
    /\ match on1 with [] => False | o :: _ => le_off o f = false end.
Proof.
  induction on as [|x on IH]; simpl; intros H; [discriminate|].
  destruct (le_off x f) eqn:E.
  - destruct (IH H) as (pre & -> & H1 & H2).
    exists (x :: pre). repeat split; auto.
  - inversion H; subst. exists []. repeat split; auto.
Qed.

Lemma pop_of_ok of_ o of1 :
  pop_of of_ o = Ok of1 ->
  exists pre,
    of_ = pre ++ of1
    /\ Forall (fun f => off_lt f o = true) pre
    /\ match of1 with [] => False | f :: _ => off_lt f o = false end.
Proof.
  induction of_ as [|x of_ IH]; simpl; intros H; [discriminate|].
  destruct (off_lt x o) eqn:E.
  - destruct (IH H) as (pre & -> & H1 & H2).
    exists (x :: pre). repeat split; auto.
  - inversion H; subst. exists []. repeat split; auto.
Qed.

(** [of.pop(0)] cannot empty [of] when [of] ends with a value that is not
    below [on[0]]. *)
Lemma pop_of_guarded pre g o :
  off_lt g o = false ->
  exists pre' f of', pop_of (pre ++ [g]) o = Ok (f :: of')
                     /\ f :: of' = pre' ++ [g].
Proof.
  intros Hg. induction pre as [|x pre IH]; simpl.
  - rewrite Hg. exists [], g, []. auto.
  - destruct (off_lt x o).
    + exact IH.
    + exists (x :: pre), x, (pre ++ [g]). auto.
Qed.

(** ** One pass of the outer loop *)

(** The three ways in which a pass leads to another one. *)
Lemma pass_again ml del on of_ pick on2 of2 pick2 :
  pass ml del on of_ pick = Again on2 of2 pick2 ->
  exists lst f0 o on' f of',
    last_item on = Ok lst /\ first_item of_ = Ok f0
    /\ gt_off lst f0 = true
    /\ pop_on on f0 = Ok (o :: on')
    /\ pop_of of_ o = Ok (f :: of')
    /\ ((exceeds f o ml = true /\ del = true
         /\ on2 = on' /\ of2 = f :: of' /\ pick2 = pick)
        \/ (exceeds f o ml = true /\ del = false
            /\ on2 = o :: on' /\ of2 = plus_maxlen o ml :: f :: of'
            /\ pick2 = pick ++ [(o, plus_maxlen o ml)])
        \/ (exceeds f o ml = false
            /\ on2 = o :: on' /\ of2 = f :: of'
            /\ pick2 = pick ++ [(o, f)])).
Proof.
  unfold pass. intros H.
  destruct (last_item on) as [lst|] eqn:E1; [|discriminate].
  destruct (first_item of_) as [f0|] eqn:E2; [|discriminate].
  destruct (gt_off lst f0) eqn:E3; [|discriminate].
  destruct (pop_on on f0) as [[|o on']|] eqn:E4; try discriminate.
  destruct (pop_of of_ o) as [[|f of']|] eqn:E5; try discriminate.
  exists lst, f0, o, on', f, of'. repeat (split; [reflexivity || assumption|]).
  destruct (exceeds f o ml) eqn:E6; [destruct del|];
    inversion H; subst; auto 10.
Qed.

Lemma pass_done ml del on of_ pick r :
  pass ml del on of_ pick = Done r -> r = pick.
Proof.
  unfold pass. intros H.
  destruct (last_item on) as [lst|]; [|discriminate].
  destruct (first_item of_) as [f0|]; [|discriminate].
  destruct (gt_off lst f0); [|congruence].
  destruct (pop_on on f0) as [[|o on']|]; try discriminate.
  destruct (pop_of of_ o) as [[|f of']|]; try discriminate.
  destruct (exceeds f o ml); [destruct del|]; discriminate.
Qed.

(** ** Invariants of the outer loop *)

Section LoopInvariant.

Variable ml : maxlen.
Variable del : bool.
Variable I : list Z -> list off -> list interval -> Prop.
Hypothesis I_pass :
  forall on of_ pick on2 of2 pick2,
    I on of_ pick -> pass ml del on of_ pick = Again on2 of2 pick2 ->
    I on2 of2 pick2.

(** The picks that the loop returns come from a state that satisfies the
    invariant. *)
Lemma loop_invariant fuel : forall on of_ pick r,
  I on of_ pick -> loop fuel ml del on of_ pick = Some (Ok r) ->
  exists on' of', I on' of' r.
Proof.
  induction fuel as [|fuel IH]; simpl; intros on of_ pick r HI H;
    [discriminate|].
  destruct (pass ml del on of_ pick) as [p|e|on2 of2 pick2] eqn:E.
  - apply pass_done in E. inversion H; subst. eauto.
  - discriminate.
  - eapply IH; [|exact H]. eapply I_pass; eauto.
Qed.

(** When no pass fails under the invariant, the loop raises nothing. *)
Hypothesis I_safe :
  forall on of_ pick e, I on of_ pick -> pass ml del on of_ pick <> Fails e.

Lemma loop_safe fuel : forall on of_ pick e,
  I on of_ pick -> loop fuel ml del on of_ pick <> Some (Raise e).
Proof.
  induction fuel as [|fuel IH]; simpl; intros on of_ pick e HI H;
    [discriminate|].
  destruct (pass ml del on of_ pick) as [p|e'|on2 of2 pick2] eqn:E.
  - discriminate.
  - apply (I_safe HI E).
  - eapply IH; [|exact H]. eapply I_pass; eauto.
Qed.

End LoopInvariant.

(** ** Termination of the outer loop *)

Lemma off_lt_false_le f o : off_lt f o = false -> le_off o f = true.
Proof. destruct f; simpl; intros H; [lia | reflexivity]. Qed.

Lemma le_off_plus_maxlen o ml : nonneg ml -> le_off o (plus_maxlen o ml) = true.
Proof. destruct ml; simpl; intros H; [lia | reflexivity]. Qed.

Lemma first_item_ok {A : Type} (l : list A) x :
  first_item l = Ok x -> exists t, l = x :: t.
Proof. destruct l; simpl; intros H; inversion H; eauto. Qed.

Lemma loop_terminates ml del :
  del = true \/ nonneg ml ->
  forall fuel on of_ pick,
    (2 * length on + 1 <= fuel \/ (stale on of_ /\ 2 * length on <= fuel))%nat ->
    loop fuel ml del on of_ pick <> None.
Proof.
  intros Hml. induction fuel as [|fuel IH]; intros on of_ pick Hfuel.
  - exfalso. destruct Hfuel as [H|[Hst H]]; [lia|].
    destruct on; simpl in *; [contradiction | lia].
  - simpl. destruct (pass ml del on of_ pick) as [p|e|on2 of2 pick2] eqn:E;
      try discriminate.
    apply pass_again in E.
    destruct E as (lst & f0 & o & on' & f & of' & _ & Hf0 & _ & Hpon & Hpof & E).
    apply first_item_ok in Hf0. destruct Hf0 as (t0 & ->).
    apply pop_on_ok in Hpon. destruct Hpon as (pre & Hon & Hpre & Ho).
    apply pop_of_ok in Hpof. destruct Hpof as (_ & _ & _ & Hf).
    assert (Hlen : length on = (length pre + S (length on'))%nat)
      by (rewrite Hon, length_app; reflexivity).
    assert (Hstale : stale on (f0 :: t0) -> (1 <= length pre)%nat).
    { rewrite Hon. destruct pre as [|x pre]; simpl; [congruence | lia]. }
    destruct E as [(_ & _ & -> & -> & ->)
                  |[(_ & Hdel & -> & -> & ->)|(_ & -> & -> & ->)]];
      apply IH.
    + left. destruct Hfuel as [H|[_ H]]; lia.
    + right. split.
      * simpl. apply le_off_plus_maxlen.
        destruct Hml as [Hd|Hn]; [congruence | exact Hn].
      * simpl length. destruct Hfuel as [H|[Hst H]];
          [|specialize (Hstale Hst)]; lia.
    + right. split.
      * simpl. apply off_lt_false_le. exact Hf.
      * simpl length. destruct Hfuel as [H|[Hst H]];
          [|specialize (Hstale Hst)]; lia.
Qed.

(** ** The maximum duration *)

Lemma pop_of_suffix_Forall (P : off -> Prop) of_ o of1 :
  pop_of of_ o = Ok of1 -> Forall P of_ -> Forall P of1.
Proof.
  intros H HP. apply pop_of_ok in H. destruct H as (pre & -> & _).
  apply Forall_app in HP. tauto.
Qed.

Lemma pop_on_suffix_Forall (P : Z -> Prop) on f on1 :
  pop_on on f = Ok on1 -> Forall P on -> Forall P on1.
Proof.
  intros H HP. apply pop_on_ok in H. destruct H as (pre & -> & _).
  apply Forall_app in HP. tauto.
Qed.

Lemma bounded_pass m on of_ pick on2 of2 pick2 :
  bounded m of_ pick ->
  pass (Len m) false on of_ pick = Again on2 of2 pick2 ->
  bounded m of2 pick2.
Proof.
  intros [Hof Hpick] H. apply pass_again in H.
  destruct H as (lst & f0 & o & on' & f & of' & _ & _ & _ & _ & Hpof & E).
  apply (@pop_of_suffix_Forall _ _ _ _ Hpof) in Hof.
  destruct E as [(_ & Hdel & _)
                |[(_ & _ & -> & -> & ->)|(Hex & -> & -> & ->)]];
    [discriminate| |]; split; auto.
  - constructor; [eexists; reflexivity | exact Hof].
  - apply Forall_app. split; [exact Hpick|].
    constructor; [|constructor]. simpl. eexists; split; [reflexivity|]. lia.
  - apply Forall_app. split; [exact Hpick|].
    constructor; [|constructor].
    inversion Hof as [|? ? [z ->] _]; subst. simpl in *.
    eexists; split; [reflexivity|]. lia.
Qed.

(** The lists before the loop when the last event is kept. *)
Lemma candidates_keep ind1 ind2 first on of_ :
  candidates false ind1 ind2 first = Ok (on, of_) ->
  exists lst,
    last_item ind2 = Ok lst
    /\ on = first :: gap_starts ind1
    /\ of_ = Idx (-1) :: map Idx (gap_ends ind2) ++ [Idx lst].
Proof.
  unfold candidates. intros H.
  apply bind_ok in H. destruct H as (lst & Hl & H).
  inversion H; subst. exists lst. repeat split; auto.
Qed.

(** The lists before the loop when the last event is dropped. *)
Lemma candidates_drop ind1 ind2 first :
  exists lst,
    last_item (first :: gap_starts ind1) = Ok lst
    /\ candidates true ind1 ind2 first
       = Ok ((first :: gap_starts ind1) ++ [lst],
             (Idx (-1) :: map Idx (gap_ends ind2)) ++ [Sentinel]).
Proof.
  unfold candidates. simpl app.
  destruct (last_item (first :: gap_starts ind1)) as [lst|e] eqn:E.
  - exists lst. split; reflexivity.
  - unfold last_item in E. simpl in E.
    destruct (rev (gap_starts ind1) ++ [first]) eqn:E'; [|discriminate].
    destruct (rev (gap_starts ind1)); discriminate.
Qed.

(** C4: when an on-candidate [o] is paired with an off-candidate [f] such
    that [f - o > max_len] and events are not deleted, the pass emits
    [(o, o + max_len)] and the loop goes on with the same [on], so that a
    later on-candidate can start a new pick; no returned pick is longer
    than [max_len]; and an event of five samples with [max_len = 1] is
    returned as a pick of length one from the same on index. *)
Theorem max_len_truncates :
  (forall m on of_ pick lst f0 o on' f of',
      last_item on = Ok lst -> first_item of_ = Ok f0 ->
      gt_off lst f0 = true ->
      pop_on on f0 = Ok (o :: on') -> pop_of of_ o = Ok (f :: of') ->
      exceeds f o (Len m) = true ->
      pass (Len m) false on of_ pick
      = Again (o :: on') (Idx (o + m) :: f :: of')
              (pick ++ [(o, Idx (o + m))]))
  /\ (forall charfct thres1 thres2 m picks,
         triggerOnset charfct thres1 thres2 (Len m) false = Some (Ok picks) ->
         forall o f, In (o, f) picks ->
                     exists z, f = Idx z /\ (z - o <= m)%Z)
  /\ triggerOnset [0; 0; 5; 5; 5; 5; 5; 0; 0]%float 3 1 NoLimit false
     = Some (Ok [(2%Z, Idx 6)])
  /\ triggerOnset [0; 0; 5; 5; 5; 5; 5; 0; 0]%float 3 1 (Len 1) false
     = Some (Ok [(2%Z, Idx 3)])
  /\ triggerOnset [0; 5; 5; 5; 5; 5; 2; 5; 2; 0]%float 3 1 (Len 1) false
     = Some (Ok [(1%Z, Idx 2); (7%Z, Idx 8)]).
Proof.
  split; [|split; [|repeat split; vm_compute; reflexivity]].
  - intros m on of_ pick lst f0 o on' f of' H1 H2 H3 H4 H5 H6.
    unfold pass. rewrite H1, H2, H3, H4, H5, H6. reflexivity.
  - intros charfct thres1 thres2 m picks H o f Hin.
    unfold triggerOnset in H.
    destruct (where_gt charfct thres1) as [|first ind1'] eqn:E1.
    { inversion H; subst. contradiction. }
    destruct (candidates false (first :: ind1') (where_gt charfct thres2) first)
      as [[on of_]|e] eqn:E2; [|discriminate].
    apply candidates_keep in E2. destruct E2 as (lst & _ & _ & Hof).
    assert (Hinit : bounded m of_ []).
    { split; [|constructor]. subst of_.
      constructor; [eexists; reflexivity|].
      apply Forall_app. split.
      - apply Forall_map, Forall_forall. intros z _. eexists; reflexivity.
      - constructor; [eexists; reflexivity | constructor]. }
    assert (Hpass : forall on of_ pick on2 of2 pick2,
               bounded m of_ pick ->
               pass (Len m) false on of_ pick = Again on2 of2 pick2 ->
               bounded m of2 pick2)
      by (intros; eapply bounded_pass; eauto).
    destruct (@loop_invariant (Len m) false
                (fun _ of_ pick => bounded m of_ pick) Hpass
                _ _ _ _ _ Hinit H) as (_ & _ & _ & Hb).
    rewrite Forall_forall in Hb. apply (Hb (o, f) Hin).
Qed.

Lemma max_len_truncates_witness :
  pass (Len 1) false [2%Z] [Idx (-1); Idx 6] []
  = Again [2%Z] [Idx 3; Idx 6] [(2%Z, Idx 3)].
Proof.
  apply (proj1 max_len_truncates 1%Z [2%Z] [Idx (-1); Idx 6] []
               2%Z (Idx (-1)) 2%Z [] (Idx 6) []); reflexivity.
Defined.

(** ** The index lists *)

(** The indices above a threshold, counted from [k], increase and start
    at [k] or later. *)
Lemma where_gt_from_sorted charfct thres : forall k,
  StronglySorted Z.lt (where_gt_from k charfct thres)
  /\ Forall (fun i => (k <= i)%Z) (where_gt_from k charfct thres).
Proof.
  induction charfct as [|x t IH]; intros k; simpl.
  - split; constructor.
  - destruct (IH (k + 1)%Z) as [Hs Hf].
    assert (Hf' : Forall (fun i => (k < i)%Z) (where_gt_from (k + 1) t thres))
      by (eapply Forall_impl; [|exact Hf]; simpl; intros; lia).
    destruct (PrimFloat.ltb thres x).
    + split; constructor; auto; try lia.
      eapply Forall_impl; [|exact Hf']; simpl; intros; lia.
    + split; auto. eapply Forall_impl; [|exact Hf']; simpl; intros; lia.
Qed.

Lemma gap_starts_incl ind : forall z, In z (gap_starts ind) -> In z (tl ind).
Proof.
  induction ind as [|x [|y t] IH]; simpl; intros z Hz; try contradiction.
  destruct (1 <? y - x)%Z.
  - destruct Hz as [<-|Hz]; [left; reflexivity|].
    right. apply (IH z Hz).
  - right. apply (IH z Hz).
Qed.

Lemma gap_ends_incl ind : forall z, In z (gap_ends ind) -> In z ind.
Proof.
  induction ind as [|x [|y t] IH]; simpl; intros z Hz; try contradiction.
  destruct (1 <? y - x)%Z.
  - destruct Hz as [<-|Hz]; [left; reflexivity|].
    right. apply (IH z Hz).
  - right. apply (IH z Hz).
Qed.

(** In an increasing list the last element bounds the others. *)
Lemma sorted_last_bound ind lst :
  StronglySorted Z.lt ind -> last_item ind = Ok lst ->
  Forall (fun i => (i <= lst)%Z) ind.
Proof.
  intros Hs. induction Hs as [|x l Hs IH Hx]; intros Hl; [constructor|].
  destruct l as [|y l'].
  - unfold last_item in Hl; simpl in Hl. inversion Hl; subst.
    constructor; [lia | constructor].
  - rewrite last_item_cons in Hl. specialize (IH Hl).
    constructor; [|exact IH].
    inversion Hx; subst. inversion IH; subst. lia.
Qed.

(** ** Order of the picks *)

Lemma well_ordered_nil : well_ordered [].
Proof.
  split; [constructor|]. intros i j p q _ H. destruct i; discriminate.
Qed.

Lemma well_ordered_snoc pick o f :
  well_ordered pick ->
  Forall (fun p => off_lt (snd p) o = true) pick ->
  le_off o f = true ->
  well_ordered (pick ++ [(o, f)]).
Proof.
  intros [Hv Ho] Hlt Hle. split.
  - apply Forall_app. split; [exact Hv | constructor; [exact Hle | constructor]].
  - intros i j p q Hij Hi Hj.
    assert (Hjl : (j < length (pick ++ [(o, f)]))%nat)
      by (apply nth_error_Some; congruence).
    rewrite length_app in Hjl. simpl in Hjl.
    rewrite nth_error_app1 in Hi by lia.
    destruct (Nat.eq_dec j (length pick)) as [->|Hne].
    + rewrite nth_error_app2, Nat.sub_diag in Hj by lia.
      inversion Hj; subst q; simpl.
      apply nth_error_In in Hi.
      rewrite Forall_forall in Hv, Hlt.
      specialize (Hv _ Hi). specialize (Hlt _ Hi).
      split; [|exact Hlt].
      destruct (snd p); simpl in *; [lia | discriminate].
    + rewrite nth_error_app1 in Hj by lia. exact (Ho i j p q Hij Hi Hj).
Qed.

Lemma off_le_refl f : off_le f f.
Proof. destruct f; simpl; [lia | exact I]. Qed.

Lemma before_next_on (g f0 : off) o :
  off_le g f0 -> le_off o f0 = false -> off_lt g o = true.
Proof. destruct g, f0; simpl; intros; try lia; try discriminate. Qed.

Lemma before_next_off (g f : off) o :
  off_lt g o = true -> le_off o f = true -> off_le g f.
Proof. destruct g, f; simpl; intros; try lia; try discriminate; auto. Qed.

Lemma ordered_pass ml del on of_ pick on2 of2 pick2 :
  del = true \/ nonneg ml ->
  ordered_inv of_ pick ->
  pass ml del on of_ pick = Again on2 of2 pick2 ->
  ordered_inv of2 pick2.
Proof.
  intros Hml [Hwo Hhead] H. apply pass_again in H.
  destruct H as (lst & f0 & o & on' & f & of' & _ & Hf0 & _ & Hpon & Hpof & E).
  apply first_item_ok in Hf0. destruct Hf0 as (t0 & ->).
  apply pop_on_ok in Hpon. destruct Hpon as (_ & _ & _ & Ho).
  apply pop_of_ok in Hpof. destruct Hpof as (_ & _ & _ & Hf).
  apply off_lt_false_le in Hf.
  assert (Hbefore : Forall (fun p => off_lt (snd p) o = true) pick).
  { destruct Hhead as [->|(h & t & Eh & Hh)]; [constructor|].
    inversion Eh; subst h t.
    eapply Forall_impl; [|exact Hh]. simpl. intros p Hp.
    eapply before_next_on; eauto. }
  assert (Hkeep : forall g, le_off o g = true ->
                            Forall (fun p => off_le (snd p) g) pick).
  { intros g Hg. eapply Forall_impl; [|exact Hbefore]. simpl. intros p Hp.
    eapply before_next_off; eauto. }
  destruct E as [(_ & _ & -> & -> & ->)
                |[(_ & Hdel & -> & -> & ->)|(_ & -> & -> & ->)]].
  - split; [exact Hwo|]. right. exists f, of'. auto.
  - assert (Ht : le_off o (plus_maxlen o ml) = true).
    { apply le_off_plus_maxlen.
      destruct Hml as [Hd|Hn]; [congruence | exact Hn]. }
    split; [apply well_ordered_snoc; auto|].
    right. eexists _, _. split; [reflexivity|].
    apply Forall_app. split; [auto|].
    constructor; [apply off_le_refl | constructor].
  - split; [apply well_ordered_snoc; auto|].
    right. eexists _, _. split; [reflexivity|].
    apply Forall_app. split; [auto|].
    constructor; [apply off_le_refl | constructor].
Qed.

Lemma sentinel_value_pos : (0 < sentinel_value)%Z.
Proof. reflexivity. Qed.

Lemma endless_loop m :
  (m < 0)%Z ->
  forall fuel on of_ pick r,
    endless on of_ -> loop fuel (Len m) false on of_ pick <> Some (Ok r).
Proof.
  intros Hm. induction fuel as [|fuel IH]; simpl;
    intros on of_ pick r Hend H; [discriminate|].
  destruct Hend as (o & on' & h & t & lst & -> & -> & Hl & Hle & Hh).
  assert (Hgt : gt_off lst h = true).
  { destruct h; simpl in *; [lia | discriminate]. }
  unfold pass in H. rewrite Hl in H. simpl in H. rewrite Hgt, Hh in H.
  destruct (off_lt h o) eqn:Hho.
  2:{ destruct h; simpl in *; [lia | discriminate]. }
  destruct (pop_of t o) as [[|f of']|] eqn:Hpof; try discriminate.
  apply pop_of_ok in Hpof. destruct Hpof as (_ & _ & _ & Hf).
  assert (Hex : exceeds f o (Len m) = true).
  { pose proof sentinel_value_pos. destruct f; simpl in *; lia. }
  rewrite Hex in H. revert H. apply IH.
  exists o, on', (plus_maxlen o (Len m)), (f :: of'), lst.
  repeat split; auto. simpl. lia.
Qed.

Lemma last_item_nonempty {A : Type} (x : A) l :
  exists pre y, x :: l = pre ++ [y] /\ last_item (x :: l) = Ok y.
Proof.
  destruct (@exists_last _ (x :: l)) as (pre & y & E); [discriminate|].
  exists pre, y. split; [exact E|]. rewrite E. apply last_item_app.
Qed.

Lemma last_item_split {A : Type} (l : list A) y :
  last_item l = Ok y -> exists pre, l = pre ++ [y].
Proof.
  destruct l as [|x l]; [discriminate|]. intros H.
  destruct (last_item_nonempty x l) as (pre & z & E & Hz).
  exists pre. congruence.
Qed.

(** The first on-candidate is an index, and no on-candidate is below it. *)
Lemma on_candidates_bounds charfct thres first rest lst :
  where_gt charfct thres = first :: rest ->
  last_item (first :: gap_starts (first :: rest)) = Ok lst ->
  (0 <= first <= lst)%Z.
Proof.
  intros E Hl. destruct (where_gt_from_sorted charfct thres 0) as [Hs Hf].
  unfold where_gt in E. rewrite E in Hs, Hf.
  inversion Hf; subst. inversion Hs; subst. split; [assumption|].
  apply last_item_In in Hl. destruct Hl as [->|Hl]; [lia|].
  apply gap_starts_incl in Hl. simpl in Hl.
  match goal with H : Forall (Z.lt first) rest |- _ =>
    rewrite Forall_forall in H; specialize (H _ Hl) end.
  lia.
Qed.

(** What the detector returns is well ordered. *)
Lemma triggerOnset_well_ordered charfct thres1 thres2 ml del picks :
  triggerOnset charfct thres1 thres2 ml del = Some (Ok picks) ->
  well_ordered picks.
Proof.
  unfold triggerOnset. intros H.
  destruct (where_gt charfct thres1) as [|first rest] eqn:E1.
  { inversion H; subst. apply well_ordered_nil. }
  destruct (candidates del (first :: rest) (where_gt charfct thres2) first)
    as [[on of_]|e] eqn:E2; [|discriminate].
  assert (Hcases : (del = true \/ nonneg ml)
                   \/ (del = false /\ exists m, ml = Len m /\ (m < 0)%Z)).
  { destruct del; [left; left; reflexivity|].
    destruct ml as [m|]; [|left; right; exact I].
    destruct (Z_lt_le_dec m 0); [right; eauto | left; right; assumption]. }
  destruct Hcases as [Hml|(-> & m & -> & Hm)].
  - assert (Hpass : forall on of_ pick on2 of2 pick2,
               ordered_inv of_ pick ->
               pass ml del on of_ pick = Again on2 of2 pick2 ->
               ordered_inv of2 pick2)
      by (intros; eapply ordered_pass; eauto).
    destruct (@loop_invariant ml del (fun _ of_ pick => ordered_inv of_ pick)
                Hpass _ _ _ _ _
                (conj well_ordered_nil (or_introl eq_refl)) H)
      as (_ & _ & Hwo & _).
    exact Hwo.
  - exfalso. apply candidates_keep in E2.
    destruct E2 as (lst2 & _ & -> & ->).
    destruct (last_item_nonempty first (gap_starts (first :: rest)))
      as (pre & lst & _ & Hl).
    pose proof (on_candidates_bounds _ _ E1 Hl) as Hb.
    apply (@endless_loop m Hm _ _ _ _ picks) in H; [exact H|].
    exists first, (gap_starts (first :: rest)), (Idx (-1)),
      (map Idx (gap_ends (where_gt charfct thres2)) ++ [Idx lst2]), lst.
    repeat split; auto; simpl; lia.
Qed.

(** ** The detector raises nothing *)

Lemma first_item_app {A : Type} (pre : list A) x :
  exists y, first_item (pre ++ [x]) = Ok y.
Proof. destruct pre; simpl; eauto. Qed.

Lemma keep_safe_pass ml on of_ pick :
  keep_safe on of_ ->
  (forall e, pass ml false on of_ pick <> Fails e)
  /\ forall on2 of2 pick2,
       pass ml false on of_ pick = Again on2 of2 pick2 -> keep_safe on2 of2.
Proof.
  intros (Hne & pre & L & -> & HL).
  destruct on as [|x on]; [congruence|]. clear Hne.
  destruct (last_item_nonempty x on) as (_ & lst & _ & Hl).
  destruct (first_item_app pre (Idx L)) as (f0 & Hf0).
  unfold pass. rewrite Hl, Hf0.
  destruct (gt_off lst f0) eqn:Hgt; [|split; intros; discriminate].
  destruct (@pop_on_spec _ _ _ Hl Hgt) as (pre0 & o & on' & -> & Hon & _ & _ & _).
  rewrite Hon in HL. apply Forall_app in HL. destruct HL as [_ HL].
  assert (Ho : off_lt (Idx L) o = false)
    by (inversion HL; subst; simpl; lia).
  destruct (@pop_of_guarded pre _ _ Ho) as (pre' & f & of' & -> & Hof).
  destruct (exceeds f o ml); split; intros; try discriminate;
    match goal with H : Again _ _ _ = Again _ _ _ |- _ =>
      inversion H; subst end;
    (split; [discriminate|]).
  - exists (plus_maxlen o ml :: pre'), L. rewrite Hof. auto.
  - exists pre', L. auto.
Qed.

Lemma dup_tail_suffix (f0 : off) a : forall pre0 pre (s : list Z),
  pre ++ [a; a] = pre0 ++ s ->
  Forall (fun x => le_off x f0 = true) pre0 ->
  le_off a f0 = false ->
  exists pre1, s = pre1 ++ [a; a].
Proof.
  induction pre0 as [|x pre0 IH]; intros pre s E Hpre Ha.
  - exists pre. simpl in E. congruence.
  - inversion Hpre as [|? ? Hx Hpre']; subst.
    destruct pre as [|y pre]; simpl in E.
    + inversion E; subst. congruence.
    + inversion E; subst. eapply IH; eauto.
Qed.

Lemma drop_safe_pass ml on of_ pick :
  drop_safe on of_ ->
  (forall e, pass ml true on of_ pick <> Fails e)
  /\ forall on2 of2 pick2,
       pass ml true on of_ pick = Again on2 of2 pick2 -> drop_safe on2 of2.
Proof.
  intros ((pre & ->) & Hon).
  destruct (first_item_app pre Sentinel) as (f0 & Hf0).
  unfold pass.
  destruct Hon as [(pre0 & a & ->)|(a & h & t & -> & Eh & Hah)].
  - assert (Hl : last_item (pre0 ++ [a; a]) = Ok a)
      by (change [a; a] with ([a] ++ [a]); rewrite app_assoc;
          apply last_item_app).
    rewrite Hl, Hf0.
    destruct (gt_off a f0) eqn:Hgt; [|split; intros; discriminate].
    destruct (@pop_on_spec _ _ _ Hl Hgt) as (pre1 & o & on' & -> & Hon & _ & Hpre1 & _).
    assert (Ha : le_off a f0 = false)
      by (rewrite gt_off_le_off in Hgt; destruct (le_off a f0);
          [discriminate | reflexivity]).
    destruct (@dup_tail_suffix _ _ _ _ _ Hon Hpre1 Ha) as (pre2 & Hs).
    assert (Ho : off_lt Sentinel o = false) by reflexivity.
    destruct (@pop_of_guarded pre _ _ Ho) as (pre' & f & of' & Hpof & Hof).
    rewrite Hpof.
    assert (Hfo : le_off o f = true).
    { apply pop_of_ok in Hpof. destruct Hpof as (_ & _ & _ & Hf).
      apply off_lt_false_le. exact Hf. }
    destruct (exceeds f o ml); split; intros; try discriminate;
      match goal with H : Again _ _ _ = Again _ _ _ |- _ =>
        inversion H; subst end;
      (split; [exists pre'; exact Hof|]).
    + destruct pre2 as [|y pre2]; simpl in Hs; inversion Hs; subst.
      * right. exists a, f, of'. auto.
      * left. eauto.
    + left. eauto.
  - rewrite Eh. unfold last_item. simpl.
    replace (gt_off a h) with false
      by (rewrite gt_off_le_off, Hah; reflexivity).
    split; intros; discriminate.
Qed.

Lemma where_gt_from_incl charfct thres1 thres2 :
  (forall x, In x charfct ->
             PrimFloat.ltb thres1 x = true -> PrimFloat.ltb thres2 x = true) ->
  forall k z, In z (where_gt_from k charfct thres1) ->
              In z (where_gt_from k charfct thres2).
Proof.
  induction charfct as [|x t IH]; simpl; intros Hthr k z Hz; [contradiction|].
  assert (Ht : forall y, In y t -> PrimFloat.ltb thres1 y = true ->
                         PrimFloat.ltb thres2 y = true) by auto.
  destruct (PrimFloat.ltb thres1 x) eqn:E1.
  - rewrite (Hthr x (or_introl eq_refl) E1).
    destruct Hz as [<-|Hz]; [left; reflexivity | right; auto].
  - destruct (PrimFloat.ltb thres2 x); [right|]; auto.
Qed.

(** The loop returns when it neither runs out of fuel nor raises. *)
Lemma loop_returns ml del (I : list Z -> list off -> list interval -> Prop)
      on of_ pick :
  del = true \/ nonneg ml ->
  (forall on of_ pick, I on of_ pick ->
     (forall e, pass ml del on of_ pick <> Fails e)
     /\ forall on2 of2 pick2,
          pass ml del on of_ pick = Again on2 of2 pick2 -> I on2 of2 pick2) ->
  I on of_ pick ->
  exists picks, loop (passes on) ml del on of_ pick = Some (Ok picks).
Proof.
  intros Hml HI Hinit.
  destruct (loop (passes on) ml del on of_ pick) as [[picks|e]|] eqn:E.
  - eauto.
  - exfalso. revert E.
    apply (@loop_safe ml del I); auto.
    + intros ? ? ? ? ? ? H1 H2. exact (proj2 (HI _ _ _ H1) _ _ _ H2).
    + intros ? ? ? ? H1. exact (proj1 (HI _ _ _ H1) _).
  - exfalso. revert E. apply loop_terminates; [exact Hml|].
    left. unfold passes. lia.
Qed.

(** The detector returns a sequence of picks when the last event is
    dropped, and also when it is kept, [max_len] is not negative and every
    sample above [thres1] is above [thres2]. *)
Lemma triggerOnset_returns charfct thres1 thres2 ml del :
  del = true
  \/ (nonneg ml
      /\ forall x, In x charfct ->
                   PrimFloat.ltb thres1 x = true -> PrimFloat.ltb thres2 x = true) ->
  exists picks, triggerOnset charfct thres1 thres2 ml del = Some (Ok picks).
Proof.
  intros H. unfold triggerOnset.
  destruct (where_gt charfct thres1) as [|first rest] eqn:E1; [eauto|].
  destruct del.
  - destruct (candidates_drop (first :: rest) (where_gt charfct thres2) first)
      as (lst & Hl & ->).
    apply (@loop_returns ml true (fun on of_ _ => drop_safe on of_)).
    + left; reflexivity.
    + intros on of_ pick. apply drop_safe_pass.
    + split; [eauto|]. left.
      apply last_item_split in Hl. destruct Hl as (pre & ->).
      exists pre, lst. rewrite <- app_assoc. reflexivity.
  - destruct H as [H|[Hml Hthr]]; [discriminate|].
    pose proof (@where_gt_from_incl _ _ _ Hthr 0%Z) as Hincl.
    fold (where_gt charfct thres1) in Hincl.
    fold (where_gt charfct thres2) in Hincl.
    rewrite E1 in Hincl.
    destruct (where_gt charfct thres2) as [|y ind2] eqn:E2.
    { destruct (Hincl first (or_introl eq_refl)). }
    destruct (last_item_nonempty y ind2) as (_ & lst & _ & Hl).
    unfold candidates. rewrite Hl. cbn [Py.bind].
    apply (@loop_returns ml false (fun on of_ _ => keep_safe on of_)).
    + right; exact Hml.
    + intros on of_ pick. apply keep_safe_pass.
    + split; [discriminate|].
      exists (Idx (-1) :: map Idx (gap_ends (y :: ind2))), lst.
      split; [reflexivity|].
      destruct (where_gt_from_sorted charfct thres2 0) as [Hs _].
      fold (where_gt charfct thres2) in Hs. rewrite E2 in Hs.
      pose proof (sorted_last_bound Hs Hl) as Hb.
      rewrite Forall_forall in Hb.
      apply Forall_forall. intros o Ho. apply Hb, Hincl.
      destruct Ho as [<-|Ho]; [left; reflexivity|].
      right. apply (gap_starts_incl _ _ Ho).
Qed.

(** C2: the sequence of picks that the detector returns has increasing on
    indices, every pick has its on index at or before its off index, and
    every pick ends before the next one starts; this holds for every
    characteristic function, all thresholds and every [max_len] and
    [max_len_delete].  The detector does return such a sequence when
    [max_len_delete] is set, and also when it is not set, [max_len] is not
    negative and every sample above [thres1] is above [thres2]. *)
Theorem triggerOnset_ordered (charfct : list float) (thres1 thres2 : float)
        (max_len : maxlen) (max_len_delete : bool) :
  (forall picks,
      triggerOnset charfct thres1 thres2 max_len max_len_delete
      = Some (Ok picks) ->
      (forall o f, In (o, f) picks -> le_off o f = true)
      /\ forall i j oi fi oj fj,
           (i < j)%nat ->
           nth_error picks i = Some (oi, fi) ->
           nth_error picks j = Some (oj, fj) ->
           (oi < oj)%Z /\ off_lt fi oj = true)
  /\ (max_len_delete = true
      \/ (nonneg max_len
          /\ forall x, In x charfct ->
                       PrimFloat.ltb thres1 x = true ->
                       PrimFloat.ltb thres2 x = true) ->
      exists picks,
        triggerOnset charfct thres1 thres2 max_len max_len_delete
        = Some (Ok picks)).
Proof.
  split; [|apply triggerOnset_returns].
  intros picks H. apply triggerOnset_well_ordered in H.
  destruct H as [Hv Ho]. split.
  - intros o f Hin. rewrite Forall_forall in Hv. exact (Hv _ Hin).
  - intros i j oi fi oj fj Hij Hi Hj. exact (Ho _ _ _ _ Hij Hi Hj).
Qed.

Lemma triggerOnset_ordered_witness :
  exists picks,
    triggerOnset [0; 5; 0; 0; 5; 5; 0; 5; 0]%float 3 1 (Len 10) false
    = Some (Ok picks).
Proof.
  apply (proj2 (triggerOnset_ordered [0; 5; 0; 0; 5; 5; 0; 5; 0]%float 3 1
                  (Len 10) false)).
  right. split; [simpl; lia|].
  intros x Hx. simpl in Hx.
  repeat (destruct Hx as [<-|Hx]; [vm_compute; auto|]).
  contradiction.
Defined.

(** The picks of a trace with three events. *)
Example triggerOnset_three_events :
  triggerOnset [0; 5; 0; 0; 5; 5; 0; 5; 0]%float 3 1 (Len 10) false
  = Some (Ok [(1%Z, Idx 1); (4%Z, Idx 5); (7%Z, Idx 7)]).
Proof. vm_compute. reflexivity. Qed.

(** ** The last event when events are deleted *)

Lemma gap_ends_gap_starts ind z :
  In z (gap_ends ind) -> exists w l, gap_starts ind = w :: l.
Proof.
  induction ind as [|x [|y t] IH]; simpl; intros Hz; try contradiction.
  destruct (1 <? y - x)%Z; [eauto | auto].
Qed.

Lemma last_run_start_In ind s : last_run_start ind = Some s -> In s ind.
Proof.
  unfold last_run_start.
  destruct (last_item (run_starts ind)) as [s'|] eqn:E; [|discriminate].
  intros H; inversion H; subst. apply last_item_In in E.
  destruct ind as [|x t]; [contradiction|].
  destruct E as [->|E]; [left; reflexivity|].
  right. apply (gap_starts_incl _ _ E).
Qed.

Lemma gap_starts_cons x y t :
  gap_starts (x :: y :: t)
  = if (1 <? y - x)%Z then y :: gap_starts (y :: t) else gap_starts (y :: t).
Proof. reflexivity. Qed.

Lemma last_run_start_cons x y t :
  (1 <? y - x)%Z = true \/ (exists z, In z (gap_ends (y :: t))) ->
  last_run_start (x :: y :: t) = last_run_start (y :: t).
Proof.
  intros H. unfold last_run_start, run_starts.
  rewrite gap_starts_cons. destruct (1 <? y - x)%Z eqn:E.
  - rewrite last_item_cons. reflexivity.
  - destruct H as [H|[z Hz]]; [discriminate|].
    destruct (gap_ends_gap_starts _ _ Hz) as (w & l & ->).
    rewrite !last_item_cons. reflexivity.
Qed.

(** Every index followed by a gap lies at least two indices before the
    last run. *)
Lemma gap_ends_before_last_run ind :
  StronglySorted Z.lt ind ->
  forall z s, In z (gap_ends ind) -> last_run_start ind = Some s ->
              (z + 1 < s)%Z.
Proof.
  intros Hs. induction Hs as [|x l Hs IH Hx]; intros z s Hz Hl;
    [contradiction|].
  destruct l as [|y t]; [contradiction|].
  assert (Hcons : last_run_start (x :: y :: t) = last_run_start (y :: t)).
  { apply last_run_start_cons. simpl in Hz.
    destruct (1 <? y - x)%Z; [left; reflexivity | right; eauto]. }
  rewrite Hcons in Hl. simpl in Hz.
  destruct (1 <? y - x)%Z eqn:E; [|auto].
  destruct Hz as [<-|Hz]; [|auto].
  apply last_run_start_In in Hl.
  apply Z.ltb_lt in E.
  destruct Hl as [->|Hl]; [lia|].
  inversion Hs; subst.
  match goal with H : Forall (Z.lt y) t |- _ =>
    rewrite Forall_forall in H; specialize (H _ Hl) end.
  lia.
Qed.

Lemma from_gaps_pass G m on of_ pick on2 of2 pick2 :
  (m < sentinel_value)%Z ->
  from_gaps G on of_ pick ->
  pass (Len m) true on of_ pick = Again on2 of2 pick2 ->
  from_gaps G on2 of2 pick2.
Proof.
  intros Hm (Hon & Hof & Hpick) H. apply pass_again in H.
  destruct H as (lst & f0 & o & on' & f & of' & _ & _ & _ & Hpon & Hpof & E).
  apply (@pop_on_suffix_Forall _ _ _ _ Hpon) in Hon.
  apply (@pop_of_suffix_Forall _ _ _ _ Hpof) in Hof.
  apply pop_of_ok in Hpof. destruct Hpof as (_ & _ & _ & Hf).
  destruct E as [(_ & _ & -> & -> & ->)
                |[(_ & Hdel & _)|(Hex & -> & -> & ->)]];
    [|discriminate|].
  - inversion Hon; subst. repeat split; auto.
  - repeat split; auto. apply Forall_app. split; [exact Hpick|].
    constructor; [|constructor]. simpl.
    inversion Hon; subst. inversion Hof as [|? ? Hf0 _]; subst.
    destruct Hf0 as [->|[->|(z & -> & Hz)]].
    + simpl in Hex. lia.
    + simpl in Hf. lia.
    + eauto.
Qed.

(** X15: when [max_len_delete] is set and [max_len] is below the
    sentinel [1e99] (any number of samples), the detector returns picks
    that all end at an index followed by a gap in the indices above
    [thres2], at least two indices before the last run of such indices
    starts; so the event of the last run is absent, also when it ended
    before the end of the trace and was not longer than [max_len]. *)
Theorem last_event_dropped (charfct : list float) (thres1 thres2 : float)
        (m : Z) :
  (m < sentinel_value)%Z ->
  (exists picks,
      triggerOnset charfct thres1 thres2 (Len m) true = Some (Ok picks)
      /\ forall o f, In (o, f) picks ->
           exists z, f = Idx z /\ (o <= z)%Z
                     /\ In z (gap_ends (where_gt charfct thres2))
                     /\ forall s, last_run_start (where_gt charfct thres2) = Some s ->
                                  (z + 1 < s)%Z)
  /\ triggerOnset [0; 0; 5; 5; 5; 0; 0]%float 3 1 (Len 10) true = Some (Ok [])
  /\ triggerOnset [0; 0; 5; 5; 5; 0; 0]%float 3 1 (Len 10) false
     = Some (Ok [(2%Z, Idx 4)]).
Proof.
  intros Hm. split; [|split; vm_compute; reflexivity].
  destruct (@triggerOnset_returns charfct thres1 thres2 (Len m) true
              (or_introl eq_refl)) as (picks & H).
  exists picks. split; [exact H|]. intros o f Hin.
  pose proof (triggerOnset_well_ordered _ _ _ _ _ H) as [Hv _].
  rewrite Forall_forall in Hv. specialize (Hv _ Hin). simpl in Hv.
  unfold triggerOnset in H.
  destruct (where_gt charfct thres1) as [|first rest] eqn:E1.
  { inversion H; subst. contradiction. }
  set (ind2 := where_gt charfct thres2) in *.
  destruct (candidates_drop (first :: rest) ind2 first) as (lst & Hl & Ec).
  rewrite Ec in H.
  assert (Hpass : forall on of_ pick on2 of2 pick2,
             from_gaps (gap_ends ind2) on of_ pick ->
             pass (Len m) true on of_ pick = Again on2 of2 pick2 ->
             from_gaps (gap_ends ind2) on2 of2 pick2)
    by (intros; eapply from_gaps_pass; eauto).
  assert (Hinit : from_gaps (gap_ends ind2)
                    ((first :: gap_starts (first :: rest)) ++ [lst])
                    ((Idx (-1) :: map Idx (gap_ends ind2)) ++ [Sentinel]) []).
  { destruct (where_gt_from_sorted charfct thres1 0) as [_ Hf].
    fold (where_gt charfct thres1) in Hf. rewrite E1 in Hf.
    rewrite Forall_forall in Hf.
    assert (Hon : forall x, In x (first :: gap_starts (first :: rest)) ->
                            (0 <= x)%Z).
    { intros x [<-|Hx]; [apply Hf; left; reflexivity|].
      apply Hf. right. apply (gap_starts_incl _ _ Hx). }
    repeat split.
    - apply Forall_app. split; [apply Forall_forall; exact Hon|].
      constructor; [|constructor]. apply Hon. apply (last_item_In _ Hl).
    - apply Forall_app. split; [|constructor; [auto | constructor]].
      constructor; [auto|].
      apply Forall_map, Forall_forall. intros z Hz. eauto.
    - constructor. }
  destruct (@loop_invariant (Len m) true (from_gaps (gap_ends ind2)) Hpass
              _ _ _ _ _ Hinit H) as (_ & _ & _ & _ & Hp).
  rewrite Forall_forall in Hp. destruct (Hp _ Hin) as (z & Hz & Hg).
  simpl in Hz. subst f. simpl in Hv.
  exists z. repeat split; auto; [lia|].
  intros s Hs.
  destruct (where_gt_from_sorted charfct thres2 0) as [Hsorted _].
  exact (gap_ends_before_last_run Hsorted _ Hg Hs).
Qed.

Lemma last_event_dropped_witness :
  exists picks,
    triggerOnset [0; 5; 0; 0; 5; 5; 0; 5; 0]%float 3 1 (Len 10) true
    = Some (Ok picks)
    /\ forall o f, In (o, f) picks ->
         exists z, f = Idx z /\ (o <= z)%Z
           /\ In z (gap_ends (where_gt [0; 5; 0; 0; 5; 5; 0; 5; 0]%float 1))
           /\ forall s,
                last_run_start (where_gt [0; 5; 0; 0; 5; 5; 0; 5; 0]%float 1)
                = Some s -> (z + 1 < s)%Z.
Proof.
  apply (@last_event_dropped [0; 5; 0; 0; 5; 5; 0; 5; 0]%float 3 1 10).
  reflexivity.
Defined.

(** * Further properties of the onset detector *)

(** ** The indices above a threshold *)

Lemma where_gt_from_In charfct thres : forall k z,
  In z (where_gt_from k charfct thres)
  <-> exists n, z = (k + Z.of_nat n)%Z /\ (n < length charfct)%nat
                /\ PrimFloat.ltb thres (nth n charfct 0%float) = true.
Proof.
  induction charfct as [|x t IH]; intros k z; simpl.
  - split; [contradiction | intros (n & _ & H & _); lia].
  - assert (Hrec : In z (where_gt_from (k + 1) t thres)
                   <-> exists n, z = (k + Z.of_nat (S n))%Z
                                 /\ (n < length t)%nat
                                 /\ PrimFloat.ltb thres (nth n t 0%float) = true).
    { rewrite IH. split; intros (n & H1 & H2 & H3); exists n;
        repeat split; auto; lia. }
    destruct (PrimFloat.ltb thres x) eqn:E; simpl; rewrite ?Hrec; split.
    + intros [<-|(n & H1 & H2 & H3)].
      * exists 0%nat. repeat split; auto; lia.
      * exists (S n). repeat split; auto; lia.
    + intros ([|n] & H1 & H2 & H3).
      * left. lia.
      * right. exists n. repeat split; auto; lia.
    + intros (n & H1 & H2 & H3). exists (S n). repeat split; auto; lia.
    + intros ([|n] & H1 & H2 & H3).
      * simpl in H3. congruence.
      * exists n. repeat split; auto; lia.
Qed.

Lemma where_gt_above charfct thres z :
  In z (where_gt charfct thres) <-> above charfct thres z = true.
Proof.
  unfold where_gt, above. rewrite where_gt_from_In. split.
  - intros (n & -> & Hn & H). simpl. rewrite Nat2Z.id, H.
    replace (0 <=? Z.of_nat n)%Z with true by (symmetry; apply Z.leb_le; lia).
    replace (Z.of_nat n <? Z.of_nat (length charfct))%Z with true
      by (symmetry; apply Z.ltb_lt; lia).
    reflexivity.
  - intros H. apply andb_prop in H. destruct H as [H H3].
    apply andb_prop in H. destruct H as [H1 H2].
    apply Z.leb_le in H1. apply Z.ltb_lt in H2.
    exists (Z.to_nat z). repeat split; auto; lia.
Qed.

(** An index preceded by a gap is in the list, and its predecessor is
    not. *)
Lemma gap_starts_run_start ind :
  StronglySorted Z.lt ind ->
  forall y, In y (gap_starts ind) -> In y ind /\ ~ In (y - 1)%Z ind.
Proof.
  intros Hs. induction Hs as [|x l Hs IH Hx]; intros y Hy; [contradiction|].
  destruct l as [|y0 t]; [contradiction|].
  rewrite gap_starts_cons in Hy.
  assert (Hx' := Hx). rewrite Forall_forall in Hx'.
  assert (Hy0 : forall z, In z t -> (y0 < z)%Z).
  { inversion Hs; subst.
    match goal with H : Forall (Z.lt y0) t |- _ =>
      rewrite Forall_forall in H; exact H end. }
  assert (Hrec : In y (gap_starts (y0 :: t)) ->
                 In y (x :: y0 :: t) /\ ~ In (y - 1)%Z (x :: y0 :: t)).
  { intros H. destruct (IH _ H) as [H1 H2]. split; [right; exact H1|].
    apply gap_starts_incl in H. simpl in H. specialize (Hy0 _ H).
    specialize (Hx' y0 (or_introl eq_refl)).
    intros [E|E]; [lia | exact (H2 E)]. }
  destruct (1 <? y0 - x)%Z eqn:E; [|auto].
  destruct Hy as [<-|Hy]; [|auto].
  apply Z.ltb_lt in E. split; [right; left; reflexivity|].
  intros [E'|[E'|E']]; try lia. specialize (Hy0 _ E'). lia.
Qed.

Lemma run_starts_run_start ind :
  StronglySorted Z.lt ind ->
  forall y, In y (run_starts ind) -> In y ind /\ ~ In (y - 1)%Z ind.
Proof.
  intros Hs y Hy. destruct ind as [|x l]; [contradiction|].
  destruct Hy as [<-|Hy]; [|apply gap_starts_run_start; assumption].
  split; [left; reflexivity|].
  inversion Hs as [|? ? _ Hx]; subst. rewrite Forall_forall in Hx.
  intros [E|E]; [lia | specialize (Hx _ E); lia].
Qed.

(** ** Where the picks start *)

Lemma on_from_pass R ml del on of_ pick on2 of2 pick2 :
  on_from R on pick ->
  pass ml del on of_ pick = Again on2 of2 pick2 ->
  on_from R on2 pick2.
Proof.
  intros [Hon Hpick] H. apply pass_again in H.
  destruct H as (lst & f0 & o & on' & f & of' & _ & _ & _ & Hpon & _ & E).
  apply (@pop_on_suffix_Forall _ _ _ _ Hpon) in Hon.
  inversion Hon as [|? ? Ho Hon']; subst.
  destruct E as [(_ & _ & -> & -> & ->)
                |[(_ & _ & -> & -> & ->)|(_ & -> & -> & ->)]];
    split; auto; apply Forall_app; split; auto.
Qed.

(** The lists before the loop, in both modes: [on] holds run starts of
    [ind1] only. *)
Lemma candidates_on del ind1 ind2 first rest on of_ :
  ind1 = first :: rest ->
  candidates del ind1 ind2 first = Ok (on, of_) ->
  Forall (fun o => In o (run_starts ind1)) on.
Proof.
  intros -> H. destruct del.
  - destruct (candidates_drop (first :: rest) ind2 first) as (lst & Hl & E).
    assert (Hon : on = (first :: gap_starts (first :: rest)) ++ [lst])
      by congruence.
    rewrite Hon.
    apply Forall_app. split.
    + apply Forall_forall. auto.
    + constructor; [|constructor]. apply (last_item_In _ Hl).
  - apply candidates_keep in H. destruct H as (lst & _ & -> & _).
    apply Forall_forall. auto.
Qed.

(** The on index of every pick is the first index of a run of indices
    above [thres1]. *)
Lemma triggerOnset_on_from charfct thres1 thres2 ml del picks :
  triggerOnset charfct thres1 thres2 ml del = Some (Ok picks) ->
  Forall (fun p => In (fst p) (run_starts (where_gt charfct thres1))) picks.
Proof.
  unfold triggerOnset. intros H.
  destruct (where_gt charfct thres1) as [|first rest] eqn:E1.
  { inversion H; subst. constructor. }
  destruct (candidates del (first :: rest) (where_gt charfct thres2) first)
    as [[on of_]|e] eqn:E2; [|discriminate].
  pose proof (candidates_on _ _ eq_refl E2) as Hon.
  assert (Hpass : forall on of_ pick on2 of2 pick2,
             on_from (run_starts (first :: rest)) on pick ->
             pass ml del on of_ pick = Again on2 of2 pick2 ->
             on_from (run_starts (first :: rest)) on2 pick2)
    by (intros; eapply on_from_pass; eauto).
  destruct (@loop_invariant ml del
              (fun on _ pick => on_from (run_starts (first :: rest)) on pick)
              Hpass _ _ _ _ _ (conj Hon (Forall_nil _)) H)
    as (_ & _ & _ & Hp).
  exact Hp.
Qed.

Lemma well_ordered_NoDup picks : well_ordered picks -> NoDup (map fst picks).
Proof.
  intros [_ Ho]. apply NoDup_nth_error. intros i j Hi E.
  rewrite length_map in Hi. rewrite !nth_error_map in E.
  unfold interval in *.
  destruct (nth_error picks i) as [p|] eqn:Ei;
    [|apply nth_error_None in Ei; lia].
  destruct (nth_error picks j) as [q|] eqn:Ej; simpl in E; [|discriminate].
  inversion E as [Epq].
  destruct (Nat.lt_trichotomy i j) as [Hlt|[Heq|Hgt]]; [|exact Heq|].
  - destruct (Ho _ _ _ _ Hlt Ei Ej). lia.
  - destruct (Ho _ _ _ _ Hgt Ej Ei). lia.
Qed.

(** X1: every pick starts at the first sample of a run of samples above
    [thres1]: the sample at the on index is above [thres1] and the sample
    before it is not (or the on index is 0); and there are at most as many
    picks as there are such runs. *)
Theorem triggerOnset_on_is_run_start (charfct : list float)
        (thres1 thres2 : float) (max_len : maxlen) (max_len_delete : bool)
        (picks : list interval) :
  triggerOnset charfct thres1 thres2 max_len max_len_delete = Some (Ok picks) ->
  (forall o f, In (o, f) picks ->
               above charfct thres1 o = true
               /\ above charfct thres1 (o - 1) = false)
  /\ (length picks <= length (run_starts (where_gt charfct thres1)))%nat.
Proof.
  intros H. pose proof (triggerOnset_on_from _ _ _ _ _ H) as Hp.
  rewrite Forall_forall in Hp. split.
  - intros o f Hin. specialize (Hp _ Hin). simpl fst in Hp.
    destruct (where_gt_from_sorted charfct thres1 0) as [Hs _].
    destruct (run_starts_run_start Hs _ Hp) as [H1 H2].
    fold (where_gt charfct thres1) in H1, H2.
    rewrite where_gt_above in H1, H2.
    split; [exact H1|]. destruct (above charfct thres1 (o - 1)); congruence.
  - unfold interval in *.
    replace (length picks) with (length (map fst picks))
      by apply length_map.
    apply NoDup_incl_length.
    + apply well_ordered_NoDup. eapply triggerOnset_well_ordered; eauto.
    + intros o Ho. apply in_map_iff in Ho. destruct Ho as (p & <- & Hin).
      auto.
Qed.

Lemma triggerOnset_on_is_run_start_witness :
  above [0; 5; 0; 0; 5; 5; 0; 5; 0]%float 3 4 = true
  /\ above [0; 5; 0; 0; 5; 5; 0; 5; 0]%float 3 (4 - 1) = false.
Proof.
  apply (proj1 (@triggerOnset_on_is_run_start
                  [0; 5; 0; 0; 5; 5; 0; 5; 0]%float 3 1 (Len 10) false
                  [(1%Z, Idx 1); (4%Z, Idx 5); (7%Z, Idx 7)]
                  ltac:(vm_compute; reflexivity)) 4%Z (Idx 5)).
  simpl; auto.
Defined.

(** ** Deleted events *)

Lemma within_pass m on of_ pick on2 of2 pick2 :
  (m < sentinel_value)%Z ->
  within m pick ->
  pass (Len m) true on of_ pick = Again on2 of2 pick2 ->
  within m pick2.
Proof.
  intros Hm Hpick H. apply pass_again in H.
  destruct H as (lst & f0 & o & on' & f & of' & _ & _ & _ & _ & _ & E).
  destruct E as [(_ & _ & -> & -> & ->)
                |[(_ & Hdel & _)|(Hex & -> & -> & ->)]];
    [exact Hpick | discriminate |].
  apply Forall_app. split; [exact Hpick|].
  constructor; [|constructor]. simpl.
  destruct f as [z|]; simpl in Hex; [|lia].
  exists z. split; [reflexivity | lia].
Qed.

(** X2: with [max_len_delete] set and [max_len] below the sentinel, the
    detector returns, and no returned pick is longer than [max_len]:
    [0 <= off - on <= max_len]. *)
Theorem deleted_events_bound (charfct : list float) (thres1 thres2 : float)
        (m : Z) :
  (m < sentinel_value)%Z ->
  exists picks,
    triggerOnset charfct thres1 thres2 (Len m) true = Some (Ok picks)
    /\ forall o f, In (o, f) picks ->
                   exists z, f = Idx z /\ (0 <= z - o <= m)%Z.
Proof.
  intros Hm.
  destruct (@triggerOnset_returns charfct thres1 thres2 (Len m) true
              (or_introl eq_refl)) as (picks & H).
  exists picks. split; [exact H|]. intros o f Hin.
  pose proof (triggerOnset_well_ordered _ _ _ _ _ H) as [Hv _].
  rewrite Forall_forall in Hv. specialize (Hv _ Hin). simpl in Hv.
  unfold triggerOnset in H.
  destruct (where_gt charfct thres1) as [|first rest] eqn:E1.
  { inversion H; subst. contradiction. }
  destruct (candidates true (first :: rest) (where_gt charfct thres2) first)
    as [[on of_]|e] eqn:E2; [|discriminate].
  assert (Hpass : forall on of_ pick on2 of2 pick2,
             within m pick ->
             pass (Len m) true on of_ pick = Again on2 of2 pick2 ->
             within m pick2)
    by (intros; eapply within_pass; eauto).
  destruct (@loop_invariant (Len m) true (fun _ _ pick => within m pick)
              Hpass _ _ _ _ _ (Forall_nil _) H) as (_ & _ & Hp).
  unfold within in Hp. rewrite Forall_forall in Hp.
  destruct (Hp _ Hin) as (z & Hz & Hlen). simpl in Hz, Hlen. subst f.
  simpl in Hv. exists z. split; [reflexivity | lia].
Qed.

Lemma deleted_events_bound_witness :
  exists picks,
    triggerOnset [0; 5; 5; 5; 0; 5; 0; 5; 0]%float 3 1 (Len 1) true
    = Some (Ok picks)
    /\ forall o f, In (o, f) picks ->
                   exists z, f = Idx z /\ (0 <= z - o <= 1)%Z.
Proof.
  apply (@deleted_events_bound [0; 5; 5; 5; 0; 5; 0; 5; 0]%float 3 1 1).
  reflexivity.
Defined.

(** ** Thresholds and the warm-up prefix *)

(** The order of binary64 values: [v <= t] excludes [t < v]. *)
Lemma float_le_not_gt (v t : float) :
  PrimFloat.leb v t = true -> PrimFloat.ltb t v = false.
Proof.
  rewrite leb_spec, ltb_spec. unfold SFleb, SFltb.
  destruct (Prim2SF v) as [s1|s1| |s1 m1 e1], (Prim2SF t) as [s2|s2| |s2 m2 e2];
    simpl; try discriminate; try reflexivity;
    try (destruct s1; try discriminate; try reflexivity; fail);
    try (destruct s2; try discriminate; try reflexivity; fail);
    try (destruct s1, s2; try discriminate; try reflexivity; fail).
  pose proof (Pos.compare_cont_antisym m1 m2 Eq) as Hm. simpl in Hm.
  pose proof (Z.compare_antisym e1 e2) as He.
  destruct s1, s2; try discriminate; try reflexivity;
    rewrite He; destruct (e1 ?= e2)%Z; simpl;
    try discriminate; try reflexivity;
    rewrite <- Hm; destruct (Pos.compare_cont Eq m1 m2); simpl;
    try discriminate; reflexivity.
Qed.

(** Zero divided by anything is a zero or NaN, which no threshold
    [t >= 0] is below. *)
Lemma zero_quotient_not_above (x t : float) :
  PrimFloat.leb 0 t = true -> PrimFloat.ltb t (0 / x) = false.
Proof.
  rewrite leb_spec, ltb_spec, div_spec. unfold SFleb, SFltb.
  change (Prim2SF 0) with (S754_zero false).
  destruct (Prim2SF x) as [sx|sx| |sx mx ex], (Prim2SF t) as [s2|s2| |s2 m2 e2];
    simpl; try discriminate; try reflexivity;
    try (destruct s2; try discriminate; reflexivity).
Qed.

Lemma pick_on_above charfct thres1 thres2 ml del picks o f :
  triggerOnset charfct thres1 thres2 ml del = Some (Ok picks) ->
  In (o, f) picks -> above charfct thres1 o = true.
Proof.
  intros H Hin. pose proof (triggerOnset_on_from _ _ _ _ _ H) as Hp.
  rewrite Forall_forall in Hp. specialize (Hp _ Hin). simpl fst in Hp.
  destruct (where_gt_from_sorted charfct thres1 0) as [Hs _].
  destruct (run_starts_run_start Hs _ Hp) as [H1 _].
  fold (where_gt charfct thres1) in H1. apply where_gt_above. exact H1.
Qed.

(** No pick starts in a prefix of the characteristic function whose
    values are not above [thres1]. *)
Lemma no_pick_in_prefix charfct thres1 thres2 ml del picks (w : Z) :
  (forall k, (Z.of_nat k < w)%Z -> (k < length charfct)%nat ->
             PrimFloat.ltb thres1 (nth k charfct 0%float) = false) ->
  triggerOnset charfct thres1 thres2 ml del = Some (Ok picks) ->
  forall o f, In (o, f) picks -> (w <= o)%Z.
Proof.
  intros Hw H o f Hin.
  pose proof (@pick_on_above _ _ _ _ _ _ _ _ H Hin) as Ha.
  unfold above in Ha. apply andb_prop in Ha. destruct Ha as [Ha H3].
  apply andb_prop in Ha. destruct Ha as [H1 H2].
  apply Z.leb_le in H1. apply Z.ltb_lt in H2.
  destruct (Z_lt_le_dec o w) as [Hlt|Hge]; [|exact Hge].
  rewrite (Hw (Z.to_nat o)) in H3 by lia. discriminate.
Qed.

(** X3: the detector never starts a pick in the warm-up prefix of a
    characteristic function.  For a threshold [thres1 >= 0] every on index
    is at least [nlta] on the output of the recursive and of the classic
    STA/LTA and at least [nlta + nsta + 50] on the output of the delayed
    STA/LTA; for [thres1 >= -1] every on index is at least [nlta] on the
    output of Carl-Sta-Trig. *)
Theorem no_onset_in_warmup (a : list float) (nsta nlta : Z)
        (thres1 thres2 : float) (max_len : maxlen) (max_len_delete : bool) :
  (0 <= nsta <= Z.of_nat (length a))%Z ->
  (0 <= nlta <= Z.of_nat (length a))%Z ->
  (forall cf picks,
      PrimFloat.leb 0 thres1 = true ->
      recSTALTAPy a nsta nlta = Ok cf
      \/ classicSTALTA a nsta nlta = Ok cf ->
      triggerOnset cf thres1 thres2 max_len max_len_delete = Some (Ok picks) ->
      forall o f, In (o, f) picks -> (nlta <= o)%Z)
  /\ (forall cf picks,
         PrimFloat.leb 0 thres1 = true ->
         delayedSTALTA a nsta nlta = Ok cf ->
         triggerOnset cf thres1 thres2 max_len max_len_delete = Some (Ok picks) ->
         forall o f, In (o, f) picks -> (nlta + nsta + 50 <= o)%Z)
  /\ (forall ratio quiet cf picks,
         PrimFloat.leb (-1) thres1 = true ->
         carlSTATrig a nsta nlta ratio quiet = Ok cf ->
         triggerOnset cf thres1 thres2 max_len max_len_delete = Some (Ok picks) ->
         forall o f, In (o, f) picks -> (nlta <= o)%Z).
Proof.
  intros Hs Hl. repeat split.
  - intros cf picks Ht [Hcf|Hcf] H;
      apply (@no_pick_in_prefix _ _ _ _ _ _ nlta) with (2 := H);
      intros k Hk Hlen.
    + rewrite (@recSTALTAPy_prefix _ _ _ _ Hcf) by exact Hk.
      apply float_le_not_gt. exact Ht.
    + destruct (@classicSTALTA_prefix a nsta nlta Hs Hl) as (cf' & E & Hp).
      assert (cf' = cf) by congruence. subst cf'.
      rewrite (Hp k Hk). apply zero_quotient_not_above. exact Ht.
  - intros cf picks Ht Hcf H.
    assert (Hlen : length cf = length a).
    { apply delayedSTALTA_shape in Hcf.
      destruct Hcf as (sta & lta & L1 & L2 & ->).
      rewrite zip_with_length; rewrite set_slice_length; congruence. }
    destruct (@delayedSTALTA_prefix a nsta nlta cf) as (lta & _ & Hp);
      [lia | exact Hcf |].
    apply (@no_pick_in_prefix _ _ _ _ _ _ (nlta + nsta + 50)) with (2 := H).
    intros k Hk Hk'. rewrite Hp by (auto; lia).
    apply zero_quotient_not_above. exact Ht.
  - intros ratio quiet cf picks Ht Hcf H.
    destruct (@carlSTATrig_shape a nsta nlta ratio quiet Hs Hl) as (eta & L & E).
    assert (cf = Py.set_slice eta 0 nlta (-1)%float) by congruence. subst cf.
    apply (@no_pick_in_prefix _ _ _ _ _ _ nlta) with (2 := H).
    intros k Hk Hlen. rewrite set_slice_length in Hlen.
    rewrite set_slice_prefix by lia.
    apply float_le_not_gt. exact Ht.
Qed.

Lemma no_onset_in_warmup_witness : (3 <= 5)%Z.
Proof.
  assert (E : exists cf,
             classicSTALTA [1; 1; 1; 1; 9; 9; 9; 1; 1; 1]%float 2 3 = Ok cf
             /\ triggerOnset cf 1.25 1 NoLimit false
                = Some (Ok [(5%Z, Idx 6)])).
  { eexists. split; [vm_compute; reflexivity | vm_compute; reflexivity]. }
  destruct E as (cf & E1 & E2).
  pose proof (@no_onset_in_warmup [1; 1; 1; 1; 9; 9; 9; 1; 1; 1]%float 2 3
                1.25 1 NoLimit false
                ltac:(simpl; lia) ltac:(simpl; lia)) as [T _].
  assert (L : PrimFloat.leb 0 1.25 = true) by (vm_compute; reflexivity).
  apply (T cf [(5%Z, Idx 6)] L (or_intror E1) E2 5%Z (Idx 6)).
  left; reflexivity.
Defined.

(** ** When the detector raises *)

Lemma pop_on_raises on f e : pop_on on f = Raise e -> e = IndexError.
Proof.
  induction on as [|x on IH]; simpl; intros H; [congruence|].
  destruct (le_off x f); [auto | discriminate].
Qed.

Lemma pop_of_raises of_ o e : pop_of of_ o = Raise e -> e = IndexError.
Proof.
  induction of_ as [|x of_ IH]; simpl; intros H; [congruence|].
  destruct (off_lt x o); [auto | discriminate].
Qed.

Lemma item_raises {A : Type} (l : list A) e :
  (last_item l = Raise e -> e = IndexError)
  /\ (first_item l = Raise e -> e = IndexError).
Proof.
  split.
  - unfold last_item. destruct (rev l); intros H; congruence.
  - destruct l; simpl; intros H; congruence.
Qed.

(** The only exception of the loop is [IndexError]. *)
Lemma pass_fails ml del on of_ pick e :
  pass ml del on of_ pick = Fails e -> e = IndexError.
Proof.
  unfold pass. intros H.
  destruct (last_item on) as [lst|e1] eqn:E1;
    [|inversion H; subst; exact (proj1 (item_raises on e) E1)].
  destruct (first_item of_) as [f0|e2] eqn:E2;
    [|inversion H; subst; exact (proj2 (item_raises of_ e) E2)].
  destruct (gt_off lst f0); [|discriminate].
  destruct (pop_on on f0) as [[|o on']|e3] eqn:E3;
    [congruence | | inversion H; subst; exact (pop_on_raises _ _ E3)].
  destruct (pop_of of_ o) as [[|f of']|e4] eqn:E4;
    [congruence | | inversion H; subst; exact (pop_of_raises _ _ E4)].
  destruct (exceeds f o ml); [destruct del|]; discriminate.
Qed.

Lemma loop_raises ml del fuel : forall on of_ pick e,
  loop fuel ml del on of_ pick = Some (Raise e) -> e = IndexError.
Proof.
  induction fuel as [|fuel IH]; simpl; intros on of_ pick e H; [discriminate|].
  destruct (pass ml del on of_ pick) as [p|e'|on2 of2 pick2] eqn:E.
  - discriminate.
  - inversion H; subst. exact (pass_fails _ _ _ _ _ E).
  - eauto.
Qed.

Lemma gap_starts_sorted ind :
  StronglySorted Z.lt ind -> StronglySorted Z.lt (gap_starts ind).
Proof.
  intros Hs. induction Hs as [|x l Hs IH Hx]; [constructor|].
  destruct l as [|y t]; [constructor|].
  rewrite gap_starts_cons. destruct (1 <? y - x)%Z; [|exact IH].
  constructor; [exact IH|].
  inversion Hs as [|? ? _ Hy]; subst. rewrite Forall_forall in Hy.
  apply Forall_forall. intros z Hz. apply gap_starts_incl in Hz.
  simpl in Hz. auto.
Qed.

Lemma run_starts_sorted ind :
  StronglySorted Z.lt ind -> StronglySorted Z.lt (run_starts ind).
Proof.
  intros Hs. destruct ind as [|x l]; [constructor|].
  unfold run_starts. constructor; [apply gap_starts_sorted; exact Hs|].
  inversion Hs as [|? ? _ Hx]; subst. rewrite Forall_forall in Hx.
  apply Forall_forall. intros z Hz. apply gap_starts_incl in Hz.
  simpl in Hz. auto.
Qed.

Lemma off_short_pass ml s on of_ pick :
  off_short s on of_ ->
  (forall r, pass ml false on of_ pick <> Done r)
  /\ forall on2 of2 pick2,
       pass ml false on of_ pick = Again on2 of2 pick2 -> off_short s on2 of2.
Proof.
  intros [Hl Hof]. split.
  - intros r H. unfold pass in H. rewrite Hl in H.
    destruct of_ as [|f0 t]; [discriminate|]. cbn [first_item] in H.
    inversion Hof as [|? ? Hf0 _]; subst.
    destruct Hf0 as (z & Ez & Hz). subst f0.
    replace (gt_off s (Idx z)) with true in H
      by (symmetry; apply Z.ltb_lt; exact Hz).
    destruct (pop_on on (Idx z)) as [[|o on']|]; try discriminate.
    destruct (pop_of (Idx z :: t) o) as [[|f of']|]; try discriminate.
    destruct (exceeds f o ml); discriminate.
  - intros on2 of2 pick2 H. apply pass_again in H.
    destruct H as (lst & f0 & o & on' & f & of' & Hl' & _ & Hgt & Hpon & Hpof & E).
    assert (lst = s) by congruence. subst lst.
    destruct (@pop_on_spec _ _ _ Hl Hgt) as (pre & o1 & on1 & Hp & _ & _ & _ & Hl1).
    assert (o1 :: on1 = o :: on') by congruence.
    apply (@pop_of_suffix_Forall _ _ _ _ Hpof) in Hof.
    inversion Hof as [|? ? Hf _]; subst.
    destruct Hf as (z & Ez & Hz). subst f.
    destruct E as [(_ & Hdel & _)
                  |[(Hex & _ & -> & -> & ->)|(_ & -> & -> & ->)]];
      [discriminate| |]; split; try congruence; auto.
    constructor; [|exact Hof].
    destruct ml as [m|]; simpl in Hex; [|discriminate].
    exists (o + m)%Z. split; [reflexivity | lia].
Qed.

Lemma off_short_loop ml s fuel : forall on of_ pick r,
  off_short s on of_ -> loop fuel ml false on of_ pick <> Some (Ok r).
Proof.
  induction fuel as [|fuel IH]; simpl; intros on of_ pick r Hs H;
    [discriminate|].
  destruct (off_short_pass ml pick Hs) as [Hd Ha].
  destruct (pass ml false on of_ pick) as [p|e|on2 of2 pick2] eqn:E.
  - exact (Hd p eq_refl).
  - discriminate.
  - exact (IH _ _ _ _ (Ha _ _ _ eq_refl) H).
Qed.

Lemma last_run_start_some ind s :
  last_run_start ind = Some s ->
  exists first rest, ind = first :: rest
                     /\ last_item (first :: gap_starts ind) = Ok s.
Proof.
  unfold last_run_start. destruct ind as [|first rest]; [discriminate|].
  unfold run_starts.
  destruct (last_item (first :: gap_starts (first :: rest))) eqn:E;
    [|discriminate].
  intros H; inversion H; subst. eauto.
Qed.

(** In keep mode with a [max_len] that is not negative: the detector
    returns when the last index above [thres2] is not before the last
    on-candidate, and raises [IndexError] otherwise. *)
Lemma keep_mode_outcome charfct thres1 thres2 ml s :
  nonneg ml ->
  last_run_start (where_gt charfct thres1) = Some s ->
  (forall lst, last_item (where_gt charfct thres2) = Ok lst -> (s <= lst)%Z ->
               exists picks,
                 triggerOnset charfct thres1 thres2 ml false = Some (Ok picks))
  /\ (where_gt charfct thres2 = []
      \/ (exists lst, last_item (where_gt charfct thres2) = Ok lst
                      /\ (lst < s)%Z) ->
      triggerOnset charfct thres1 thres2 ml false = Some (Raise IndexError)).
Proof.
  intros Hml Hs.
  destruct (last_run_start_some _ Hs) as (first & rest & E1 & Hl).
  rewrite E1 in Hl.
  destruct (where_gt_from_sorted charfct thres1 0) as [Hsort1 Hpos1].
  fold (where_gt charfct thres1) in Hsort1, Hpos1.
  destruct (where_gt_from_sorted charfct thres2 0) as [Hsort2 _].
  fold (where_gt charfct thres2) in Hsort2.
  assert (Hon : Forall (fun o => (o <= s)%Z) (first :: gap_starts (first :: rest))).
  { apply sorted_last_bound; [|exact Hl].
    apply (run_starts_sorted (ind := first :: rest)).
    rewrite <- E1. exact Hsort1. }
  assert (Hs0 : (0 <= s)%Z).
  { apply last_item_In in Hl.
    rewrite Forall_forall in Hpos1. apply Hpos1. rewrite E1.
    destruct Hl as [<-|Hl]; [left; reflexivity|].
    right. apply (gap_starts_incl _ _ Hl). }
  unfold triggerOnset. rewrite E1. split.
  - intros lst Hlst Hle. unfold candidates. rewrite Hlst. cbn [Py.bind].
    apply (@loop_returns ml false (fun on of_ _ => keep_safe on of_)).
    + right; exact Hml.
    + intros on of_ pick. apply keep_safe_pass.
    + split; [discriminate|].
      exists (Idx (-1) :: map Idx (gap_ends (where_gt charfct thres2))), lst.
      split; [reflexivity|].
      eapply Forall_impl; [|exact Hon]. simpl; intros; lia.
  - intros [E2|(lst & Hlst & Hlt)].
    + unfold candidates. rewrite E2. reflexivity.
    + unfold candidates. rewrite Hlst. cbn [Py.bind].
      set (on := [first] ++ gap_starts (first :: rest)).
      set (of_ := ([Idx (-1)] ++ map Idx (gap_ends (where_gt charfct thres2)))
                    ++ [Idx lst]).
      assert (Hshort : off_short s on of_).
      { split; [exact Hl|].
        unfold of_. apply Forall_app. split; [|constructor; [eauto | constructor]].
        constructor; [exists (-1)%Z; split; [reflexivity | lia]|].
        apply Forall_map, Forall_forall. intros z Hz.
        exists z. split; [reflexivity|].
        apply gap_ends_incl in Hz.
        pose proof (sorted_last_bound Hsort2 Hlst) as Hb.
        rewrite Forall_forall in Hb. specialize (Hb _ Hz). lia. }
      destruct (loop (passes on) ml false on of_ []) as [[picks|e]|] eqn:E.
      * exfalso. exact (@off_short_loop ml s _ _ _ _ _ Hshort E).
      * apply loop_raises in E. subst e. reflexivity.
      * exfalso. revert E. apply loop_terminates; [right; exact Hml|].
        left. unfold passes. lia.
Qed.

(** X4: without deletion and with a [max_len] that is not negative, the
    detector returns picks when some sample at or after the first index of
    the last run above [thres1] is above [thres2], and raises [IndexError]
    when none is. *)
Theorem triggerOnset_index_error (charfct : list float) (thres1 thres2 : float)
        (max_len : maxlen) (s : Z) :
  nonneg max_len ->
  last_run_start (where_gt charfct thres1) = Some s ->
  ((exists z, (s <= z)%Z /\ above charfct thres2 z = true) ->
   exists picks,
     triggerOnset charfct thres1 thres2 max_len false = Some (Ok picks))
  /\ ((forall z, (s <= z)%Z -> above charfct thres2 z = false) ->
      triggerOnset charfct thres1 thres2 max_len false
      = Some (Raise IndexError)).
Proof.
  intros Hml Hs. destruct (@keep_mode_outcome charfct thres1 thres2 max_len s Hml Hs)
    as [Hok Hraise].
  destruct (where_gt_from_sorted charfct thres2 0) as [Hsort2 _].
  fold (where_gt charfct thres2) in Hsort2.
  split.
  - intros (z & Hz & Ha). apply where_gt_above in Ha.
    destruct (where_gt charfct thres2) as [|y t] eqn:E2; [contradiction|].
    destruct (last_item_nonempty y t) as (_ & lst & _ & Hlst).
    apply (Hok lst Hlst).
    pose proof (sorted_last_bound Hsort2 Hlst) as Hb.
    rewrite Forall_forall in Hb. specialize (Hb _ Ha). lia.
  - intros Hnone. apply Hraise.
    destruct (where_gt charfct thres2) as [|y t] eqn:E2; [left; reflexivity|].
    right. destruct (last_item_nonempty y t) as (_ & lst & _ & Hlst).
    exists lst. split; [exact Hlst|].
    destruct (Z_lt_le_dec lst s) as [Hlt|Hge]; [exact Hlt|].
    apply last_item_In in Hlst. rewrite <- E2 in Hlst.
    apply where_gt_above in Hlst. rewrite (Hnone _ Hge) in Hlst. discriminate.
Qed.

Lemma triggerOnset_index_error_witness :
  triggerOnset [5; 0; 2]%float 1 3 NoLimit false = Some (Raise IndexError).
Proof.
  apply (proj2 (@triggerOnset_index_error [5; 0; 2]%float 1 3 NoLimit 2%Z
                  I ltac:(vm_compute; reflexivity))).
  intros z Hz. unfold above. simpl length.
  destruct (Z.eq_dec z 2) as [->|Hne]; [vm_compute; reflexivity|].
  replace (z <? Z.of_nat 3)%Z with false by (symmetry; apply Z.ltb_ge; lia).
  rewrite andb_false_r. reflexivity.
Defined.

(** ** A negative maximum length *)

Lemma runs_on_pass m lst_of on of_ pick :
  (m < 0)%Z ->
  runs_on lst_of on of_ ->
  exists of2,
    pass (Len m) false on of_ pick
    = Again on of2 (pick ++ [(hd 0%Z on, Idx (hd 0%Z on + m))])
    /\ runs_on lst_of on of2.
Proof.
  intros Hm (o & on' & lst & h & t & pre & -> & Hl & Hle & -> & Hh & Hpre & HL).
  assert (Hgt : gt_off lst h = true).
  { destruct h; simpl in *; [lia | discriminate]. }
  assert (Hg : off_lt (Idx lst_of) o = false) by (simpl; lia).
  destruct (@pop_of_guarded pre _ _ Hg) as (pre' & f & of' & Hpof & Hof).
  rewrite <- Hpre in Hpof.
  assert (Hf : off_lt f o = false).
  { apply pop_of_ok in Hpof. destruct Hpof as (_ & _ & _ & Hf). exact Hf. }
  assert (Hex : exceeds f o (Len m) = true).
  { pose proof sentinel_value_pos. destruct f; simpl in *; lia. }
  exists (Idx (o + m) :: f :: of'). split.
  - unfold pass. rewrite Hl. cbn [first_item]. rewrite Hgt.
    cbn [pop_on]. rewrite Hh, Hpof, Hex. reflexivity.
  - exists o, on', lst, (Idx (o + m)), (f :: of'), (Idx (o + m) :: pre').
    repeat split; auto.
    + simpl. lia.
    + rewrite Hof. reflexivity.
Qed.

Lemma runs_on_loop m lst_of :
  (m < 0)%Z ->
  forall fuel on of_ pick,
    runs_on lst_of on of_ -> loop fuel (Len m) false on of_ pick = None.
Proof.
  intros Hm. induction fuel as [|fuel IH]; intros on of_ pick Hr;
    [reflexivity|].
  destruct (@runs_on_pass m lst_of on of_ pick Hm Hr) as (of2 & E & Hr2).
  simpl. rewrite E. apply IH. exact Hr2.
Qed.

(** X5: a negative [max_len] without deletion makes the detector loop
    without end, whatever the number of passes, when the first index
    above [thres1] is not after the last index above [thres2]: each pass
    appends one more pick and changes neither [on] nor the loop
    condition. *)
Theorem negative_max_len_never_ends (charfct : list float)
        (thres1 thres2 : float) (m first lst : Z) (rest : list Z) :
  (m < 0)%Z ->
  where_gt charfct thres1 = first :: rest ->
  last_item (where_gt charfct thres2) = Ok lst ->
  (first <= lst)%Z ->
  exists on of_,
    candidates false (where_gt charfct thres1) (where_gt charfct thres2) first
    = Ok (on, of_)
    /\ (forall fuel, loop fuel (Len m) false on of_ [] = None)
    /\ triggerOnset charfct thres1 thres2 (Len m) false = None.
Proof.
  intros Hm E1 Hl Hle.
  assert (Ec : candidates false (where_gt charfct thres1)
                 (where_gt charfct thres2) first
               = Ok (first :: gap_starts (where_gt charfct thres1),
                     (Idx (-1) :: map Idx (gap_ends (where_gt charfct thres2)))
                       ++ [Idx lst])).
  { unfold candidates. rewrite Hl. reflexivity. }
  assert (Hr : runs_on lst (first :: gap_starts (where_gt charfct thres1))
                 ((Idx (-1) :: map Idx (gap_ends (where_gt charfct thres2)))
                    ++ [Idx lst])).
  { destruct (last_item_nonempty first (gap_starts (where_gt charfct thres1)))
      as (_ & l1 & _ & Hl1).
    assert (Hb : (0 <= first <= l1)%Z).
    { apply (@on_candidates_bounds charfct thres1 first rest l1 E1).
      rewrite <- E1. exact Hl1. }
    exists first, (gap_starts (where_gt charfct thres1)), l1, (Idx (-1)),
      (map Idx (gap_ends (where_gt charfct thres2)) ++ [Idx lst]),
      (Idx (-1) :: map Idx (gap_ends (where_gt charfct thres2))).
    repeat split; auto; simpl; lia. }
  eexists _, _. split; [exact Ec|]. split.
  - intros fuel. apply (@runs_on_loop m lst Hm). exact Hr.
  - unfold triggerOnset. rewrite E1. rewrite <- E1, Ec.
    apply (@runs_on_loop m lst Hm). exact Hr.
Qed.

Lemma negative_max_len_never_ends_witness :
  triggerOnset [0; 5; 5; 0]%float 3 1 (Len (-1)) false = None.
Proof.
  destruct (@negative_max_len_never_ends [0; 5; 5; 0]%float 3 1 (-1) 1 2 [2%Z]
              ltac:(lia) ltac:(vm_compute; reflexivity)
              ltac:(vm_compute; reflexivity) ltac:(lia))
    as (on & of_ & _ & _ & H).
  exact H.
Defined.

(** ** Runs of consecutive indices *)

Lemma gap_ends_cons x y t :
  gap_ends (x :: y :: t)
  = if (1 <? y - x)%Z then x :: gap_ends (y :: t) else gap_ends (y :: t).
Proof. reflexivity. Qed.

(** An index followed by a gap is in the list, and its successor is
    not. *)
Lemma gap_ends_run_end ind :
  StronglySorted Z.lt ind ->
  forall z, In z (gap_ends ind) -> In z ind /\ ~ In (z + 1)%Z ind.
Proof.
  intros Hs. induction Hs as [|x l Hs IH Hx]; intros z Hz; [contradiction|].
  destruct l as [|y t]; [contradiction|].
  rewrite gap_ends_cons in Hz.
  assert (Hx' := Hx). rewrite Forall_forall in Hx'.
  assert (Hrec : In z (gap_ends (y :: t)) ->
                 In z (x :: y :: t) /\ ~ In (z + 1)%Z (x :: y :: t)).
  { intros H. destruct (IH _ H) as [H1 H2]. split; [right; exact H1|].
    specialize (Hx' _ H1). intros [E|E]; [lia | exact (H2 E)]. }
  destruct (1 <? y - x)%Z eqn:E; [|auto].
  destruct Hz as [<-|Hz]; [|auto].
  apply Z.ltb_lt in E. split; [left; reflexivity|].
  intros [E'|[E'|E']]; try lia.
  inversion Hs as [|? ? _ Hy]; subst. rewrite Forall_forall in Hy.
  specialize (Hy _ E'). lia.
Qed.

(** Every index of an increasing list belongs to a run of consecutive
    indices that begins at a run start. *)
Lemma run_start_of ind :
  StronglySorted Z.lt ind ->
  forall z, In z ind ->
    exists r, In r (run_starts ind) /\ (r <= z)%Z
              /\ forall y, (r <= y <= z)%Z -> In y ind.
Proof.
  intros Hs. induction Hs as [|x l Hs IH Hx]; intros z Hz; [contradiction|].
  destruct Hz as [<-|Hz].
  { exists x. split; [left; reflexivity|]. split; [lia|].
    intros y Hy. left. lia. }
  destruct (IH _ Hz) as (r & Hr & Hrz & Hrun).
  destruct l as [|y0 t]; [contradiction|].
  unfold run_starts in Hr |- *. rewrite gap_starts_cons.
  destruct Hr as [<-|Hr].
  - (* the run of z begins at y0 *)
    destruct (1 <? y0 - x)%Z eqn:E.
    + exists y0. split; [right; left; reflexivity|]. split; [exact Hrz|].
      intros y Hy. right. apply Hrun. exact Hy.
    + apply Z.ltb_ge in E. inversion Hx; subst.
      exists x. split; [left; reflexivity|]. split; [lia|].
      intros y Hy. destruct (Z.eq_dec y x) as [->|Hne]; [left; reflexivity|].
      right. apply Hrun. lia.
  - exists r. split.
    + right. destruct (1 <? y0 - x)%Z; [right|]; exact Hr.
    + split; [exact Hrz|]. intros y Hy. right. apply Hrun. exact Hy.
Qed.

(** From an index of the list up to the first index followed by a gap,
    every index is in the list. *)
Lemma run_until_gap ind :
  StronglySorted Z.lt ind ->
  forall o f z,
    In o ind -> In f ind ->
    (forall g, In g (gap_ends ind) -> (g < f)%Z -> (g < o)%Z) ->
    (o <= z <= f)%Z -> In z ind.
Proof.
  intros Hs. induction Hs as [|x l Hs IH Hx]; intros o f z Ho Hf Hg Hz;
    [contradiction|].
  assert (Hx' := Hx). rewrite Forall_forall in Hx'.
  destruct (Z.eq_dec z x) as [->|Hzx]; [left; reflexivity|]. right.
  destruct l as [|y t].
  { destruct Ho as [<-|[]]. destruct Hf as [<-|[]]. lia. }
  assert (Hg' : forall o', (o <= o')%Z ->
                  forall g, In g (gap_ends (y :: t)) -> (g < f)%Z -> (g < o')%Z).
  { intros o' Ho' g Hin Hlt. rewrite gap_ends_cons in Hg.
    assert (g < o)%Z; [|lia]. apply Hg; [|exact Hlt].
    destruct (1 <? y - x)%Z; [right|]; exact Hin. }
  assert (Hf' : In f (y :: t)).
  { destruct Hf as [<-|Hf]; [|exact Hf].
    destruct Ho as [<-|Ho]; [lia|]. specialize (Hx' _ Ho). lia. }
  destruct Ho as [Exo|Ho].
  - (* o is the head: the next index follows without a gap *)
    subst x.
    assert (Hy : y = (o + 1)%Z).
    { rewrite gap_ends_cons in Hg. specialize (Hx' y (or_introl eq_refl)).
      destruct (1 <? y - o)%Z eqn:E; [|apply Z.ltb_ge in E; lia].
      specialize (Hg o (or_introl eq_refl)). lia. }
    apply (IH y f z); auto; [left; reflexivity | apply Hg'; lia | lia].
  - apply (IH o f z); auto. apply Hg'. lia.
Qed.

(** ** The default detector: every pick is a whole event *)

Lemma sorted_app_inv (l1 l2 : list Z) :
  StronglySorted Z.lt (l1 ++ l2) ->
  StronglySorted Z.lt l2
  /\ forall x y, In x l1 -> In y l2 -> (x < y)%Z.
Proof.
  induction l1 as [|a l1 IH]; simpl; intros H.
  - split; [exact H | contradiction].
  - inversion H as [|? ? Hs Ha]; subst. destruct (IH Hs) as [H2 Hlt].
    split; [exact H2|]. intros x y [<-|Hx] Hy; [|auto].
    rewrite Forall_forall in Ha. apply Ha. apply in_or_app. right. exact Hy.
Qed.

Lemma gap_ends_then_last ind lst :
  StronglySorted Z.lt ind -> last_item ind = Ok lst ->
  StronglySorted Z.lt (gap_ends ind ++ [lst]).
Proof.
  intros Hs. induction Hs as [|x l Hs IH Hx]; intros Hl; [discriminate|].
  destruct l as [|y t].
  - simpl. constructor; constructor.
  - rewrite last_item_cons in Hl. rewrite gap_ends_cons.
    destruct (1 <? y - x)%Z; [|auto].
    simpl. constructor; [auto|].
    rewrite Forall_forall in Hx. apply Forall_forall. intros z Hz.
    apply Hx. apply in_app_or in Hz. destruct Hz as [Hz|[<-|[]]].
    + apply gap_ends_incl. exact Hz.
    + apply last_item_In. exact Hl.
Qed.

Section DefaultMode.

Variables ind1 ind2 : list Z.
Variable lst : Z.
Hypothesis sorted1 : StronglySorted Z.lt ind1.
Hypothesis sorted2 : StronglySorted Z.lt ind2.
Hypothesis nonneg2 : Forall (fun i => (0 <= i)%Z) ind2.
Hypothesis incl12 : forall z, In z ind1 -> In z ind2.
Hypothesis last2 : last_item ind2 = Ok lst.

Lemma is_end_in z : is_end ind2 lst z -> In z ind2 /\ ~ In (z + 1)%Z ind2.
Proof.
  intros [H| ->].
  - apply gap_ends_run_end; assumption.
  - split; [apply last_item_In; exact last2|].
    intros H. pose proof (sorted_last_bound sorted2 last2) as Hb.
    rewrite Forall_forall in Hb. specialize (Hb _ H). lia.
Qed.

(** The run of [ind1] that holds an index beyond [h] starts beyond [h],
    when [h] is -1 or ends a run of [ind2]. *)
Lemma run_start_beyond h z :
  h = (-1)%Z \/ is_end ind2 lst h ->
  In z ind1 -> (h < z)%Z ->
  exists r, In r (run_starts ind1) /\ (h < r <= z)%Z.
Proof.
  intros Hh Hz Hlt.
  destruct (run_start_of sorted1 _ Hz) as (r & Hr & Hrz & Hrun).
  exists r. split; [exact Hr|]. split; [|exact Hrz].
  destruct (Z_lt_le_dec h r) as [H|H]; [exact H|]. exfalso.
  destruct Hh as [->|He].
  - assert (Hr2 : In r ind2)
      by (apply incl12, (run_starts_run_start sorted1); exact Hr).
    rewrite Forall_forall in nonneg2. specialize (nonneg2 _ Hr2). lia.
  - destruct (is_end_in He) as [_ Hn]. apply Hn, incl12, Hrun. lia.
Qed.

Lemma default_inv_init first rest :
  ind1 = first :: rest ->
  default_inv ind1 ind2 lst (first :: gap_starts ind1)
    ((Idx (-1) :: map Idx (gap_ends ind2)) ++ [Idx lst]) [].
Proof.
  intros E1.
  assert (Eon : first :: gap_starts ind1 = run_starts ind1)
    by (rewrite E1; reflexivity).
  rewrite Eon. split; [apply run_starts_sorted; exact sorted1|].
  split; [apply Forall_forall; auto|]. split; [|constructor].
  exists (-1)%Z, (gap_ends ind2 ++ [lst]).
  assert (Hpos : forall g, In g (gap_ends ind2 ++ [lst]) -> (0 <= g)%Z).
  { intros g Hg. rewrite Forall_forall in nonneg2. apply nonneg2.
    apply in_app_or in Hg. destruct Hg as [Hg|[<-|[]]].
    - apply gap_ends_incl. exact Hg.
    - apply last_item_In. exact last2. }
  repeat split.
  - simpl. rewrite map_app. reflexivity.
  - constructor; [apply gap_ends_then_last; assumption|].
    apply Forall_forall. intros g Hg. specialize (Hpos _ Hg). lia.
  - left; reflexivity.
  - apply Forall_forall. intros g Hg. apply in_app_or in Hg.
    destruct Hg as [Hg|[<-|[]]]; [left; exact Hg | right; reflexivity].
  - intros g [Hg| ->] _; right; apply in_or_app;
      [left; exact Hg | right; left; reflexivity].
  - auto.
  - intros z Hz. right. rewrite Forall_forall in nonneg2.
    specialize (nonneg2 _ (incl12 _ Hz)). lia.
Qed.

Lemma map_Idx_split (ez : list Z) (pre2 : list off) f of' :
  map Idx ez = pre2 ++ f :: of' ->
  exists p2 f' e', ez = p2 ++ f' :: e' /\ pre2 = map Idx p2
                   /\ f = Idx f' /\ of' = map Idx e'.
Proof.
  intros H. apply map_eq_app in H. destruct H as (p2 & l2 & -> & <- & H2).
  destruct l2 as [|f' e']; [discriminate|]. simpl in H2.
  inversion H2; subst. exists p2, f', e'. auto.
Qed.

Lemma default_inv_pass on of_ pick on2 of2 pick2 :
  default_inv ind1 ind2 lst on of_ pick ->
  pass NoLimit false on of_ pick = Again on2 of2 pick2 ->
  default_inv ind1 ind2 lst on2 of2 pick2.
Proof.
  intros (Hson & Hon & (h & ez & Eof & Hsez & Hh & Hez & Hall & Hstarts & Hcov)
          & Hpick) H.
  apply pass_again in H.
  destruct H as (lst0 & f0 & o & on' & f & of' & _ & Hf0 & _ & Hpon & Hpof & E).
  assert (Ef0 : f0 = Idx h) by (rewrite Eof in Hf0; simpl in Hf0; congruence).
  subst f0.
  apply pop_on_ok in Hpon. destruct Hpon as (pre & Eon & Hpre & Ho).
  apply pop_of_ok in Hpof. destruct Hpof as (pre2 & Eof2 & Hpre2 & Hf).
  simpl in Ho. apply Z.leb_gt in Ho.
  rewrite Eof in Eof2. apply map_Idx_split in Eof2.
  destruct Eof2 as (p2 & f' & e' & Eez & -> & -> & ->).
  simpl in Hf. apply Z.ltb_ge in Hf.
  assert (Hp2 : forall g, In g p2 -> (g < o)%Z).
  { intros g Hg. rewrite Forall_forall in Hpre2.
    specialize (Hpre2 (Idx g) (in_map Idx _ _ Hg)). simpl in Hpre2. lia. }
  rewrite Eez in Hsez. destruct (sorted_app_inv _ _ Hsez) as [Hsf Hlt].
  (* the head of [of] is popped *)
  destruct p2 as [|h0 p2']; [simpl in Eez; inversion Eez; subst; lia|].
  simpl in Eez. inversion Eez as [[Eh Eez']]. subst h0.
  assert (Hf'end : is_end ind2 lst f').
  { rewrite Forall_forall in Hez. apply Hez. rewrite Eez'.
    apply in_or_app. right. left. reflexivity. }
  assert (He'end : Forall (is_end ind2 lst) e').
  { rewrite Forall_forall in Hez |- *. intros g Hg. apply Hez. rewrite Eez'.
    apply in_or_app. right. right. exact Hg. }
  assert (Hends : forall g, is_end ind2 lst g -> (o <= g)%Z -> In g (f' :: e')).
  { intros g Hg Hge. specialize (Hall g Hg ltac:(lia)).
    destruct Hall as [->|Hin]; [lia|]. rewrite Eez' in Hin.
    apply in_app_or in Hin. destruct Hin as [Hin|Hin]; [|exact Hin].
    specialize (Hp2 g (or_intror Hin)). lia. }
  assert (Hleast : forall g, is_end ind2 lst g -> (o <= g)%Z -> (f' <= g)%Z).
  { intros g Hg Hge. destruct (Hends g Hg Hge) as [->|Hin]; [lia|].
    inversion Hsf as [|? ? _ Hfe]; subst. rewrite Forall_forall in Hfe.
    specialize (Hfe _ Hin). lia. }
  rewrite Eon in Hson. destruct (sorted_app_inv _ _ Hson) as [Hson1 _].
  rewrite Eon in Hon. apply Forall_app in Hon. destruct Hon as [_ Hon1].
  assert (Hpre' : forall x, In x pre -> (x <= h)%Z).
  { intros x Hx. rewrite Forall_forall in Hpre. specialize (Hpre _ Hx).
    simpl in Hpre. lia. }
  assert (Hstarts1 : forall r, In r (run_starts ind1) -> (h < r)%Z ->
                               In r (o :: on')).
  { intros r Hr Hlt'. specialize (Hstarts r Hr Hlt'). rewrite Eon in Hstarts.
    apply in_app_or in Hstarts. destruct Hstarts as [Hin|Hin]; [|exact Hin].
    specialize (Hpre' _ Hin). lia. }
  assert (Ho1 : In o ind1).
  { inversion Hon1; subst. apply (run_starts_run_start sorted1). assumption. }
  destruct E as [(Hex & _)|[(Hex & _)|(_ & -> & -> & ->)]];
    try (simpl in Hex; discriminate).
  split; [exact Hson1|]. split; [exact Hon1|]. split.
  - exists f', e'. repeat split; auto.
    + intros g Hg Hge. apply Hends; [exact Hg | lia].
    + intros r Hr Hlt'. apply Hstarts1; [exact Hr | lia].
    + intros z Hz. destruct (Hcov z Hz) as [(o0 & fz & Hin & Hr)|Hbeyond].
      * left. exists o0, fz. split; [apply in_or_app; left; exact Hin | exact Hr].
      * destruct (Z_le_gt_dec z f') as [Hle|Hgt]; [|right; lia].
        left. exists o, f'. split; [apply in_or_app; right; left; reflexivity|].
        split; [|exact Hle].
        destruct (run_start_beyond Hh Hz Hbeyond) as (r & Hr & Hhr & Hrz).
        specialize (Hstarts1 r Hr Hhr). destruct Hstarts1 as [->|Hin]; [lia|].
        inversion Hson1 as [|? ? _ Hoo]; subst. rewrite Forall_forall in Hoo.
        specialize (Hoo _ Hin). lia.
  - apply Forall_app. split; [exact Hpick|]. constructor; [|constructor].
    exists f'. simpl. repeat split; auto.
Qed.

End DefaultMode.

(** The state in which the loop ends satisfies the invariant, and the
    loop condition is false there. *)
Lemma loop_exit ml del (I : list Z -> list off -> list interval -> Prop) :
  (forall on of_ pick on2 of2 pick2,
      I on of_ pick -> pass ml del on of_ pick = Again on2 of2 pick2 ->
      I on2 of2 pick2) ->
  forall fuel on of_ pick r,
    I on of_ pick -> loop fuel ml del on of_ pick = Some (Ok r) ->
    exists on' of' lst f0,
      I on' of' r /\ last_item on' = Ok lst /\ first_item of' = Ok f0
      /\ gt_off lst f0 = false.
Proof.
  intros Hpass. induction fuel as [|fuel IH]; simpl;
    intros on of_ pick r HI H; [discriminate|].
  destruct (pass ml del on of_ pick) as [p|e|on2 of2 pick2] eqn:E.
  - inversion H; subst p. exists on, of_.
    pose proof (pass_done _ _ _ _ _ E) as Er. subst r.
    unfold pass in E.
    destruct (last_item on) as [l|]; [|discriminate].
    destruct (first_item of_) as [f0|]; [|discriminate].
    exists l, f0. destruct (gt_off l f0) eqn:G; [|auto].
    destruct (pop_on on f0) as [[|o on']|]; try discriminate.
    destruct (pop_of of_ o) as [[|f of']|]; try discriminate.
    destruct (exceeds f o ml); [destruct del|]; discriminate.
  - discriminate.
  - eapply IH; [|exact H]. eapply Hpass; eauto.
Qed.

(** What the default detector returns when every sample above [thres1]
    is above [thres2]. *)
Lemma default_picks charfct thres1 thres2 picks :
  (forall x, In x charfct ->
             PrimFloat.ltb thres1 x = true -> PrimFloat.ltb thres2 x = true) ->
  triggerOnset charfct thres1 thres2 NoLimit false = Some (Ok picks) ->
  (forall z, In z (where_gt charfct thres1) -> covered picks z)
  /\ Forall (fun p => exists f,
                 snd p = Idx f
                 /\ In (fst p) (where_gt charfct thres2)
                 /\ In f (where_gt charfct thres2)
                 /\ ~ In (f + 1)%Z (where_gt charfct thres2)
                 /\ forall z, (fst p <= z <= f)%Z ->
                              In z (where_gt charfct thres2)) picks.
Proof.
  intros Hthr H. unfold triggerOnset in H.
  pose proof (@where_gt_from_incl _ _ _ Hthr 0%Z) as Hincl.
  fold (where_gt charfct thres1) in Hincl.
  fold (where_gt charfct thres2) in Hincl.
  destruct (where_gt_from_sorted charfct thres1 0) as [Hs1 _].
  destruct (where_gt_from_sorted charfct thres2 0) as [Hs2 Hpos2].
  fold (where_gt charfct thres1) in Hs1.
  fold (where_gt charfct thres2) in Hs2, Hpos2.
  destruct (where_gt charfct thres1) as [|first rest] eqn:E1.
  { inversion H; subst. split; [contradiction | constructor]. }
  destruct (candidates false (first :: rest) (where_gt charfct thres2) first)
    as [[on of_]|e] eqn:E2; [|discriminate].
  apply candidates_keep in E2. destruct E2 as (lst & Hlst & -> & ->).
  set (ind2 := where_gt charfct thres2) in *.
  pose proof (@default_inv_init (first :: rest) ind2 lst Hs1 Hs2 Hpos2 Hincl
                Hlst first rest eq_refl) as Hinit.
  destruct (@loop_exit NoLimit false (default_inv (first :: rest) ind2 lst)
              (@default_inv_pass (first :: rest) ind2 lst Hs1 Hs2 Hpos2 Hincl Hlst)
              _ _ _ _ _ Hinit H)
    as (on' & of' & l & f0 & Hinv & Hl & Hf0 & Hgt).
  destruct Hinv as (Hson & Hon & (h & ez & Eof & _ & Hh & _ & _ & Hstarts & Hcov)
                    & Hpick).
  rewrite Eof in Hf0. simpl in Hf0. inversion Hf0; subst f0.
  simpl in Hgt. apply Z.ltb_ge in Hgt. split.
  - intros z Hz. destruct (Hcov z Hz) as [Hc|Hbeyond]; [exact Hc|]. exfalso.
    destruct (@run_start_beyond (first :: rest) ind2 lst Hs1 Hs2 Hpos2 Hincl
                Hlst h z Hh Hz Hbeyond) as (r & Hr & Hhr & _).
    specialize (Hstarts r Hr Hhr).
    pose proof (sorted_last_bound Hson Hl) as Hb.
    rewrite Forall_forall in Hb. specialize (Hb _ Hstarts). lia.
  - eapply Forall_impl; [|exact Hpick]. simpl.
    intros p (f & Ef & Ho & Hof & Hend & Hleast).
    destruct (@is_end_in ind2 lst Hs2 Hlst f Hend) as [Hfin Hfsucc].
    exists f. repeat split; auto.
    intros z Hz. apply (@run_until_gap ind2 Hs2 (fst p) f z); auto.
    intros g Hg Hgf. destruct (Z_lt_le_dec g (fst p)) as [Hlt|Hge]; [exact Hlt|].
    specialize (Hleast g (or_introl Hg) Hge). lia.
Qed.

(** X6: with the default [max_len], no deletion and thresholds such that
    every sample above [thres1] is above [thres2], every pick is a whole
    event: all samples from the on index to the off index are above
    [thres2], and the sample after the off index is not (or the trace
    ends there). *)
Theorem default_picks_are_whole_events (charfct : list float)
        (thres1 thres2 : float) (picks : list interval) :
  (forall x, In x charfct ->
             PrimFloat.ltb thres1 x = true -> PrimFloat.ltb thres2 x = true) ->
  triggerOnset charfct thres1 thres2 NoLimit false = Some (Ok picks) ->
  forall o f, In (o, f) picks ->
    exists z_off,
      f = Idx z_off
      /\ (forall z, (o <= z <= z_off)%Z -> above charfct thres2 z = true)
      /\ above charfct thres2 (z_off + 1) = false.
Proof.
  intros Hthr H o f Hin.
  destruct (@default_picks _ _ _ _ Hthr H) as [_ Hp].
  rewrite Forall_forall in Hp.
  destruct (Hp _ Hin) as (z_off & Ef & _ & _ & Hsucc & Hrun).
  simpl in Ef, Hrun. exists z_off. split; [exact Ef|]. split.
  - intros z Hz. apply where_gt_above. apply Hrun. exact Hz.
  - destruct (above charfct thres2 (z_off + 1)) eqn:E; [|reflexivity].
    exfalso. apply Hsucc. apply where_gt_above. exact E.
Qed.

(** X7: under the same conditions no onset is missed: every sample above
    [thres1] lies between the on index and the off index of a returned
    pick. *)
Theorem default_picks_cover_onsets (charfct : list float)
        (thres1 thres2 : float) (picks : list interval) :
  (forall x, In x charfct ->
             PrimFloat.ltb thres1 x = true -> PrimFloat.ltb thres2 x = true) ->
  triggerOnset charfct thres1 thres2 NoLimit false = Some (Ok picks) ->
  forall z, above charfct thres1 z = true ->
    exists o z_off, In (o, Idx z_off) picks /\ (o <= z <= z_off)%Z.
Proof.
  intros Hthr H z Hz.
  destruct (@default_picks _ _ _ _ Hthr H) as [Hcov _].
  apply Hcov. apply where_gt_above. exact Hz.
Qed.

Lemma thresholds_example :
  forall x, In x [0; 5; 0; 0; 5; 5; 0; 5; 0]%float ->
            PrimFloat.ltb 3 x = true -> PrimFloat.ltb 1 x = true.
Proof.
  intros x Hx. simpl in Hx.
  repeat (destruct Hx as [<-|Hx]; [vm_compute; auto|]).
  contradiction.
Defined.

Lemma default_picks_are_whole_events_witness :
  exists z_off,
    Idx 5 = Idx z_off
    /\ (forall z, (4 <= z <= z_off)%Z ->
                  above [0; 5; 0; 0; 5; 5; 0; 5; 0]%float 1 z = true)
    /\ above [0; 5; 0; 0; 5; 5; 0; 5; 0]%float 1 (z_off + 1) = false.
Proof.
  apply (@default_picks_are_whole_events [0; 5; 0; 0; 5; 5; 0; 5; 0]%float 3 1
           [(1%Z, Idx 1); (4%Z, Idx 5); (7%Z, Idx 7)]
           thresholds_example ltac:(vm_compute; reflexivity) 4%Z (Idx 5)).
  simpl; auto.
Defined.

Lemma default_picks_cover_onsets_witness :
  exists o z_off,
    In (o, Idx z_off) [(1%Z, Idx 1); (4%Z, Idx 5); (7%Z, Idx 7)]
    /\ (o <= 5 <= z_off)%Z.
Proof.
  apply (@default_picks_cover_onsets [0; 5; 0; 0; 5; 5; 0; 5; 0]%float 3 1
           [(1%Z, Idx 1); (4%Z, Idx 5); (7%Z, Idx 7)]
           thresholds_example ltac:(vm_compute; reflexivity) 5%Z).
  vm_compute. reflexivity.
Defined.

(** ** A maximum length that no event can reach *)

Lemma in_trace_pass n m on of_ pick :
  (n <= m)%Z ->
  in_trace n on of_ ->
  pass (Len m) false on of_ pick = pass NoLimit false on of_ pick
  /\ forall on2 of2 pick2,
       pass NoLimit false on of_ pick = Again on2 of2 pick2 ->
       in_trace n on2 of2.
Proof.
  intros Hm [Hon Hof]. unfold pass.
  destruct (last_item on) as [l|]; [|split; [reflexivity | discriminate]].
  destruct (first_item of_) as [f0|]; [|split; [reflexivity | discriminate]].
  destruct (gt_off l f0); [|split; [reflexivity | discriminate]].
  destruct (pop_on on f0) as [[|o on']|e] eqn:Hpon;
    try (split; [reflexivity | discriminate]).
  destruct (pop_of of_ o) as [[|f of']|e] eqn:Hpof;
    try (split; [reflexivity | discriminate]).
  apply (@pop_on_suffix_Forall _ _ _ _ Hpon) in Hon.
  apply (@pop_of_suffix_Forall _ _ _ _ Hpof) in Hof.
  inversion Hon as [|? ? Ho _]; subst.
  inversion Hof as [|? ? Hf _]; subst. destruct Hf as (z & -> & Hz).
  replace (exceeds (Idx z) o (Len m)) with false
    by (symmetry; apply Z.ltb_ge; lia).
  simpl. split; [reflexivity|].
  intros on2 of2 pick2 H. inversion H; subst. split; assumption.
Qed.

Lemma in_trace_loop n m :
  (n <= m)%Z ->
  forall fuel on of_ pick,
    in_trace n on of_ ->
    loop fuel (Len m) false on of_ pick = loop fuel NoLimit false on of_ pick.
Proof.
  intros Hm. induction fuel as [|fuel IH]; intros on of_ pick Hin;
    [reflexivity|].
  destruct (@in_trace_pass n m on of_ pick Hm Hin) as [E Hnext].
  simpl. rewrite E.
  destruct (pass NoLimit false on of_ pick) as [p|e|on2 of2 pick2];
    try reflexivity.
  apply IH. apply (Hnext _ _ _ eq_refl).
Qed.

Lemma where_gt_bounds charfct thres z :
  In z (where_gt charfct thres) -> (0 <= z < Z.of_nat (length charfct))%Z.
Proof.
  intros H. apply where_gt_above in H. unfold above in H.
  apply andb_prop in H. destruct H as [H _].
  apply andb_prop in H. destruct H as [H1 H2].
  apply Z.leb_le in H1. apply Z.ltb_lt in H2. lia.
Qed.

(** X8: without deletion, a [max_len] of at least the length of the trace
    has no effect: the detector does exactly what it does with the default
    [max_len]. *)
Theorem long_max_len_is_no_limit (charfct : list float)
        (thres1 thres2 : float) (m : Z) :
  (Z.of_nat (length charfct) <= m)%Z ->
  triggerOnset charfct thres1 thres2 (Len m) false
  = triggerOnset charfct thres1 thres2 NoLimit false.
Proof.
  intros Hm. unfold triggerOnset.
  destruct (where_gt charfct thres1) as [|first rest] eqn:E1; [reflexivity|].
  destruct (candidates false (first :: rest) (where_gt charfct thres2) first)
    as [[on of_]|e] eqn:E2; [|reflexivity].
  apply candidates_keep in E2. destruct E2 as (lst & Hlst & -> & ->).
  apply (@in_trace_loop (Z.of_nat (length charfct)) m Hm).
  split.
  - apply Forall_forall. intros o Ho.
    assert (In o (where_gt charfct thres1)).
    { rewrite E1. destruct Ho as [<-|Ho]; [left; reflexivity|].
      right. apply (gap_starts_incl _ _ Ho). }
    pose proof (where_gt_bounds _ _ _ H). lia.
  - constructor; [exists (-1)%Z; split; [reflexivity | lia]|].
    apply Forall_app. split.
    + apply Forall_map, Forall_forall. intros z Hz.
      exists z. split; [reflexivity|].
      apply gap_ends_incl in Hz. pose proof (where_gt_bounds _ _ _ Hz). lia.
    + constructor; [|constructor]. exists lst. split; [reflexivity|].
      apply last_item_In in Hlst. pose proof (where_gt_bounds _ _ _ Hlst). lia.
Qed.

Lemma long_max_len_is_no_limit_witness :
  triggerOnset [0; 5; 5; 0]%float 3 1 (Len 4) false
  = triggerOnset [0; 5; 5; 0]%float 3 1 NoLimit false.
Proof.
  apply (@long_max_len_is_no_limit [0; 5; 5; 0]%float 3 1 4). simpl. lia.
Defined.

(** * Further properties of the characteristic functions *)

(** ** Windows that do not fit the trace *)

Lemma xrange_cons lo hi :
  (lo < hi)%Z -> Py.xrange lo hi = lo :: Py.xrange (lo + 1) hi.
Proof.
  intros H. unfold Py.xrange.
  replace (Z.to_nat (hi - lo)) with (S (Z.to_nat (hi - (lo + 1)))) by lia.
  cbn [seq map]. f_equal; [lia|].
  rewrite <- seq_shift, map_map. apply map_ext. intros k. lia.
Qed.

(** The first pass of a sliding sum over a window longer than the trace
    adds an array that cannot be broadcast to the accumulator. *)
Lemma add_pass_too_long (pad : Np.array) (src : Z -> res Np.array) s0 n acc :
  (2 <= length acc)%nat ->
  (Z.of_nat (length acc) < n)%Z ->
  length pad = Z.to_nat n ->
  src 0%Z = Ok s0 ->
  window_pass Np.add pad src n acc = Raise ValueError.
Proof.
  intros Hacc Hn Hpad Hsrc. unfold window_pass.
  rewrite xrange_cons by lia. cbn [Py.for_each]. rewrite Hsrc. cbn [Py.bind].
  unfold Np.add, Np.broadcast.
  assert (L : (length acc < length (pad ++ s0))%nat)
    by (rewrite length_app, Hpad; lia).
  destruct (Nat.eqb_spec (length acc) (length (pad ++ s0))) as [E|_]; [lia|].
  destruct acc as [|u [|v acc]]; simpl in Hacc; try lia.
  destruct (pad ++ s0) as [|w [|w' y]]; simpl in L; try lia.
  reflexivity.
Qed.

Lemma iadd_pass_too_long (pad : Np.array) (src : Z -> res Np.array) s0 n acc :
  (1 <= length acc)%nat ->
  (Z.of_nat (length acc) < n)%Z ->
  length pad = Z.to_nat n ->
  src 0%Z = Ok s0 ->
  window_pass Np.iadd pad src n acc = Raise ValueError.
Proof.
  intros Hacc Hn Hpad Hsrc. unfold window_pass.
  rewrite xrange_cons by lia. cbn [Py.for_each]. rewrite Hsrc. cbn [Py.bind].
  unfold Np.iadd, Np.broadcast_inplace.
  assert (L : (length acc < length (pad ++ s0))%nat)
    by (rewrite length_app, Hpad; lia).
  destruct (Nat.eqb_spec (length acc) (length (pad ++ s0))) as [E|_]; [lia|].
  destruct (pad ++ s0) as [|w [|w' y]]; simpl in L; try lia.
  reflexivity.
Qed.

Lemma classicSTALTA_outside a nsta nlta :
  (2 <= length a)%nat ->
  ~ ((0 <= nsta <= Z.of_nat (length a))%Z
     /\ (0 <= nlta <= Z.of_nat (length a))%Z) ->
  classicSTALTA a nsta nlta = Raise ValueError.
Proof.
  intros Ha Hout. unfold classicSTALTA, Np.zeros, Np.ones.
  destruct (Z.ltb_spec nsta 0) as [Hs|Hs];
    [rewrite (full_negative _ Hs); reflexivity|].
  rewrite (full_nonneg _ Hs). cbn [Py.bind].
  destruct (Z.leb_spec nsta (Z.of_nat (length a))) as [Hs'|Hs'].
  - destruct (@window_pass_total Np.add PrimFloat.add
                (broadcast_same PrimFloat.add)
                (length a) nsta (repeat 0%float (Z.to_nat nsta))
                (fun i => Ok (Np.square
                   (Py.slice a i (Z.of_nat (length a) - nsta + i)))))
      with (acc := Np.zeros_like a) as (sta & Esta & Lsta).
    { apply repeat_length. }
    { intros i Hi. eexists; split; [reflexivity|].
      rewrite square_length. apply window_slice_length; lia. }
    { lia. }
    { apply zeros_like_length. }
    rewrite Esta. cbn [Py.bind].
    destruct (Z.ltb_spec nlta 0) as [Hl|Hl];
      [rewrite (full_negative _ Hl); reflexivity|].
    rewrite (full_nonneg _ Hl). cbn [Py.bind].
    erewrite add_pass_too_long;
      [reflexivity | rewrite zeros_like_length; lia
       | rewrite zeros_like_length; lia | apply repeat_length | reflexivity].
  - erewrite add_pass_too_long;
      [reflexivity | rewrite zeros_like_length; lia
       | rewrite zeros_like_length; lia | apply repeat_length | reflexivity].
Qed.

Lemma zDetect_outside a nsta :
  (2 <= length a)%nat ->
  ~ (0 <= nsta <= Z.of_nat (length a))%Z ->
  zDetect a nsta = Raise ValueError.
Proof.
  intros Ha Hout. unfold zDetect, zDetect_sta, Np.zeros.
  destruct (Z.ltb_spec nsta 0) as [Hs|Hs];
    [rewrite (full_negative _ Hs); reflexivity|].
  rewrite (full_nonneg _ Hs). cbn [Py.bind].
  erewrite add_pass_too_long;
    [reflexivity | rewrite zeros_like_length; lia
     | rewrite zeros_like_length; lia | apply repeat_length | reflexivity].
Qed.

Lemma carlSTATrig_outside a nsta nlta ratio quiet :
  (1 <= length a)%nat ->
  ~ ((0 <= nsta <= Z.of_nat (length a))%Z
     /\ (0 <= nlta <= Z.of_nat (length a))%Z) ->
  carlSTATrig a nsta nlta ratio quiet = Raise ValueError.
Proof.
  intros Ha Hout. unfold carlSTATrig, Np.zeros.
  destruct (Z.ltb_spec nsta 0) as [Hs|Hs];
    [rewrite (full_negative _ Hs); reflexivity|].
  rewrite (full_nonneg _ Hs). cbn [Py.bind].
  destruct (Z.ltb_spec nlta 0) as [Hl|Hl];
    [rewrite (full_negative _ Hl); reflexivity|].
  rewrite (full_nonneg _ Hl). cbn [Py.bind].
  destruct (Z.leb_spec nsta (Z.of_nat (length a))) as [Hs'|Hs'].
  - destruct (@iadd_pass_total (length a) nsta
                (fun i => Ok (Py.slice a i (Z.of_nat (length a) - nsta + i)))
                (Np.zeros_like a))
      as (sta & Esta & Lsta); [lia | | apply zeros_like_length |].
    { intros i Hi. eexists; split; [reflexivity|].
      apply window_slice_length; lia. }
    rewrite Esta. cbn [Py.bind].
    erewrite iadd_pass_too_long;
      [reflexivity | rewrite zeros_like_length; lia
       | rewrite zeros_like_length; lia | apply repeat_length | reflexivity].
  - erewrite iadd_pass_too_long;
      [reflexivity | rewrite zeros_like_length; lia
       | rewrite zeros_like_length; lia | apply repeat_length | reflexivity].
Qed.

(** X9: on a trace of at least two samples the three variants built on
    sliding sums (classic STA/LTA, Carl-Sta-Trig, Z-detector) return an
    array of the length of the trace exactly when every window length lies
    between 0 and the length of the trace, both included; with any other
    window length they raise [ValueError]. *)
Theorem sliding_variants_window_range (a : Np.array) (nsta nlta : Z)
        (ratio quiet : float) :
  (2 <= length a)%nat ->
  (fits_trace a nsta /\ fits_trace a nlta ->
   (exists cf, classicSTALTA a nsta nlta = Ok cf /\ length cf = length a)
   /\ (exists cf, carlSTATrig a nsta nlta ratio quiet = Ok cf
                  /\ length cf = length a))
  /\ (fits_trace a nsta ->
      exists cf, zDetect a nsta = Ok cf /\ length cf = length a)
  /\ (~ (fits_trace a nsta /\ fits_trace a nlta) ->
      classicSTALTA a nsta nlta = Raise ValueError
      /\ carlSTATrig a nsta nlta ratio quiet = Raise ValueError)
  /\ (~ fits_trace a nsta -> zDetect a nsta = Raise ValueError).
Proof.
  intros Ha. unfold fits_trace. repeat split.
  - destruct H as [Hs Hl].
    destruct (classicSTALTA_shape a Hs Hl) as (sta & lta & L1 & L2 & E).
    eexists; split; [exact E|].
    rewrite zip_with_length; rewrite set_slice_length; congruence.
  - destruct H as [Hs Hl].
    destruct (carlSTATrig_shape a ratio quiet Hs Hl) as (eta & L & E).
    eexists; split; [exact E|]. rewrite set_slice_length. exact L.
  - intros Hs. apply zDetect_total. exact Hs.
  - apply classicSTALTA_outside; [exact Ha | exact H].
  - apply carlSTATrig_outside; [lia | exact H].
  - intros Hs. apply zDetect_outside; [exact Ha | exact Hs].
Qed.

Lemma sliding_variants_window_range_witness :
  classicSTALTA [1; 2; 3]%float 4 2 = Raise ValueError
  /\ carlSTATrig [1; 2; 3]%float 4 2 1 1 = Raise ValueError.
Proof.
  destruct (@sliding_variants_window_range [1; 2; 3]%float 4 2 1%float 1%float)
    as (_ & _ & H & _); [simpl; lia|].
  apply H. unfold fits_trace. simpl. lia.
Defined.

(** ** The first sample of the recursive STA/LTA *)

Lemma for_each_ext {S X : Type} (b1 b2 : S -> X -> res S) xs :
  (forall s x, In x xs -> b1 s x = b2 s x) ->
  forall s, Py.for_each b1 xs s = Py.for_each b2 xs s.
Proof.
  induction xs as [|x xs IH]; intros H s; [reflexivity|].
  cbn [Py.for_each]. rewrite (H s x (or_introl eq_refl)).
  destruct (b2 s x) as [s'|e]; [|reflexivity].
  cbn [Py.bind]. apply IH. intros s1 x1 Hx. apply H. right. exact Hx.
Qed.

Lemma get_item_tail {A : Type} (x y : A) (l : list A) (i : Z) :
  (1 <= i)%Z -> Py.get_item (x :: l) i = Py.get_item (y :: l) i.
Proof.
  intros Hi. unfold Py.get_item. cbn [length].
  destruct (i <? 0)%Z eqn:E; [apply Z.ltb_lt in E; lia|].
  destruct ((i <? 0)%Z || (Z.of_nat (S (length l)) <=? i)%Z); [reflexivity|].
  replace (Z.to_nat i) with (S (Z.to_nat (i - 1))) by lia. reflexivity.
Qed.

(** X10: the recursive STA/LTA never reads the first sample: replacing it
    changes neither the characteristic function nor the exception. *)
Theorem recSTALTAPy_ignores_first_sample (x y : float) (a : list float)
        (nsta nlta : Z) :
  recSTALTAPy (x :: a) nsta nlta = recSTALTAPy (y :: a) nsta nlta.
Proof.
  unfold recSTALTAPy. cbn [length].
  destruct (Fl.py_div 1 (Fl.of_int nsta)) as [csta|e]; [|reflexivity].
  destruct (Fl.py_div 1 (Fl.of_int nlta)) as [clta|e]; [|reflexivity].
  cbn [Py.bind]. f_equal. apply for_each_ext.
  intros [[sta lta] charfct] i Hi.
  pose proof (xrange_bounds 1 (Z.of_nat (S (length a)))) as B.
  rewrite Forall_forall in B. specialize (B i Hi).
  unfold rec_body. rewrite (get_item_tail x y a (proj1 B)). reflexivity.
Qed.

(** ** Negative indices of the delayed STA/LTA *)

Lemma get_item_raises {A : Type} (l : list A) (k : Z) e :
  Py.get_item l k = Raise e -> e = IndexError.
Proof.
  unfold Py.get_item.
  destruct (_ || _); [congruence|].
  destruct (nth_error _ _); congruence.
Qed.

Lemma get_item_below {A : Type} (l : list A) (k : Z) :
  (k < - Z.of_nat (length l))%Z -> Py.get_item l k = Raise IndexError.
Proof.
  intros H. unfold Py.get_item.
  destruct (k <? 0)%Z eqn:E; [|apply Z.ltb_ge in E; lia].
  destruct (k + Z.of_nat (length l) <? 0)%Z eqn:E'; [reflexivity|].
  apply Z.ltb_ge in E'. lia.
Qed.

(** The first pass of the loop reads [a[-nsta - nlta - 1]]. *)
Lemma delayed_body_first a nsta nlta st :
  (Z.of_nat (length a) < nsta + nlta + 1)%Z ->
  delayed_body a nsta nlta st 0%Z = Raise IndexError.
Proof.
  intros H. destruct st as [sta lta]. unfold delayed_body.
  repeat match goal with
  | |- context [Py.get_item a (0 - nsta - nlta - 1)%Z] =>
      rewrite (@get_item_below _ a (0 - nsta - nlta - 1)%Z) by lia
  end.
  repeat match goal with
  | |- Py.bind (Py.get_item ?l ?k) _ = _ =>
      let E := fresh "E" in
      destruct (Py.get_item l k) as [?|?e] eqn:E;
      [cbn [Py.bind] | apply get_item_raises in E; subst; reflexivity]
  end.
  reflexivity.
Qed.

(** X11: on a trace that is not empty and with positive window lengths,
    the delayed STA/LTA returns an array of the length of the trace exactly
    when [nsta + nlta + 1] is at most the length of the trace; otherwise
    it raises [IndexError] in the first pass of its loop. *)
Theorem delayedSTALTA_index_range (a : Np.array) (nsta nlta : Z) :
  (1 <= length a)%nat -> (0 < nsta)%Z -> (0 < nlta)%Z ->
  ((nsta + nlta + 1 <= Z.of_nat (length a))%Z ->
   exists cf, delayedSTALTA a nsta nlta = Ok cf /\ length cf = length a)
  /\ ((Z.of_nat (length a) < nsta + nlta + 1)%Z ->
      delayedSTALTA a nsta nlta = Raise IndexError).
Proof.
  intros Ha Hs Hl. split; intros H.
  - destruct (delayedSTALTA_total a Hs Hl H) as (cf & E).
    exists cf. split; [exact E|].
    destruct (delayedSTALTA_shape _ _ _ E) as (sta & lta & L1 & L2 & ->).
    rewrite zip_with_length; rewrite set_slice_length; congruence.
  - unfold delayedSTALTA. rewrite xrange_cons by lia.
    cbn [Py.for_each]. rewrite (@delayed_body_first a nsta nlta _ H). reflexivity.
Qed.

Lemma delayedSTALTA_index_range_witness :
  delayedSTALTA [1; 1; 1]%float 2 2 = Raise IndexError.
Proof.
  destruct (@delayedSTALTA_index_range [1; 1; 1]%float 2 2) as [_ H];
    [simpl; lia | lia | lia |].
  apply H. simpl. lia.
Defined.

(** ** The windows of the sliding sums *)

Lemma for_each_fold (g : Z -> float -> float) (k m : nat)
      (body : Np.array -> Z -> res Np.array) (Q : Z -> Prop) xs :
  (forall s i s', length s = m -> Q i -> body s i = Ok s' ->
                  length s' = m /\ nth k s' 0%float = g i (nth k s 0%float)) ->
  Forall Q xs ->
  forall s r, length s = m -> Py.for_each body xs s = Ok r ->
              nth k r 0%float = fold_left (fun v i => g i v) xs (nth k s 0%float).
Proof.
  intros Hbody HQ. induction HQ as [|x xs Hx _ IH]; simpl; intros s r Hs H.
  - congruence.
  - apply bind_ok in H. destruct H as (s1 & E & H).
    destruct (Hbody _ _ _ Hs Hx E) as [L1 N1].
    rewrite (IH _ _ L1 H), N1. reflexivity.
Qed.

Lemma square_nth (x : Np.array) j :
  (j < length x)%nat ->
  nth j (Np.square x) 0%float = (nth j x 0 * nth j x 0)%float.
Proof.
  revert j. induction x as [|u x IH]; intros [|j] H; simpl in *; try lia.
  - reflexivity.
  - apply IH. lia.
Qed.

Lemma window_slice_nth (x : Np.array) n i j :
  (0 <= n <= Z.of_nat (length x))%Z -> (0 <= i < n)%Z ->
  (j < length x - Z.to_nat n)%nat ->
  nth j (Py.slice x i (Z.of_nat (length x) - n + i)) 0%float
  = nth (Z.to_nat i + j) x 0%float.
Proof.
  intros Hn Hi Hj. unfold Py.slice.
  rewrite !clamp_id by lia.
  rewrite nth_firstn.
  destruct (Nat.ltb_spec j (Z.to_nat (Z.of_nat (length x) - n + i - i)));
    [|lia].
  apply nth_skipn.
Qed.

(** Beyond the padding, pass [i] of the sliding sum adds the square of
    the sample [n - i] places before the index. *)
Lemma window_pass_window (pad_value : float) (a acc r : Np.array) (n : Z) k :
  (0 <= n <= Z.of_nat (length a))%Z ->
  length acc = length a ->
  (n <= Z.of_nat k)%Z -> (k < length a)%nat ->
  window_pass Np.add (repeat pad_value (Z.to_nat n))
    (fun i => Ok (Np.square (Py.slice a i (Z.of_nat (length a) - n + i))))
    n acc = Ok r ->
  nth k r 0%float
  = fold_left (fun s i =>
                 let x := nth (Z.to_nat (Z.of_nat k - n + i)) a 0%float in
                 (s + x * x)%float)
              (Py.xrange 0 n) (nth k acc 0%float).
Proof.
  intros Hn Hacc Hk Hk' H. unfold window_pass in H.
  eapply (@for_each_fold
            (fun i s => let x := nth (Z.to_nat (Z.of_nat k - n + i)) a 0%float in
                        (s + x * x)%float)
            k (length a) _ (fun i => (0 <= i < n)%Z));
    [| apply xrange_bounds | exact Hacc | exact H].
  intros s i s' Ls Hi Hb. simpl in Hb.
  assert (L : length s
              = length (repeat pad_value (Z.to_nat n)
                          ++ Np.square (Py.slice a i (Z.of_nat (length a) - n + i)))).
  { rewrite length_app, repeat_length, square_length, window_slice_length; lia. }
  unfold Np.add in Hb. rewrite (broadcast_same _ _ _ L) in Hb.
  inversion Hb; subst s'. split.
  - rewrite zip_with_length; auto.
  - rewrite zip_with_nth by (auto; lia). cbv zeta. f_equal.
    rewrite app_nth2 by (rewrite repeat_length; lia).
    rewrite repeat_length.
    rewrite square_nth by (rewrite window_slice_length; lia).
    rewrite window_slice_nth by lia.
    replace (Z.to_nat i + (k - Z.to_nat n))%nat
      with (Z.to_nat (Z.of_nat k - n + i)) by lia.
    reflexivity.
Qed.

Lemma div_int_nth (x : Np.array) n k :
  (k < length x)%nat ->
  nth k (Np.div_int x n) 0%float = (nth k x 0 / Fl.of_int n)%float.
Proof.
  revert k. induction x as [|u x IH]; intros [|k] H; simpl in *; try lia.
  - reflexivity.
  - apply IH. lia.
Qed.

Lemma set_slice_beyond {A : Type} (l : list A) j v d k :
  (0 <= j <= Z.of_nat k)%Z -> (k < length l)%nat ->
  nth k (Py.set_slice l 0 j v) d = nth k l d.
Proof.
  intros Hj Hk. unfold Py.set_slice.
  rewrite !clamp_id by lia. cbn [Z.to_nat firstn app].
  rewrite Z.sub_0_r, Z.max_r by lia.
  rewrite app_nth2 by (rewrite repeat_length; lia).
  rewrite repeat_length, nth_skipn. f_equal. lia.
Qed.

(** X12: with windows that fit the trace, the classic STA/LTA at an index
    [k] that is at least [nsta] and [nlta] is the mean of the squares of
    the [nsta] samples before [k] over the mean of the squares of the
    [nlta] samples before [k]; the sample at [k] itself is in neither
    window. *)
Theorem classicSTALTA_windows (a : Np.array) (nsta nlta : Z) :
  fits_trace a nsta -> fits_trace a nlta ->
  exists cf,
    classicSTALTA a nsta nlta = Ok cf /\
    forall k, (nsta <= Z.of_nat k)%Z -> (nlta <= Z.of_nat k)%Z ->
              (k < length a)%nat ->
              nth k cf 0%float
              = ((window_sum a nsta k / Fl.of_int nsta)
                 / (window_sum a nlta k / Fl.of_int nlta))%float.
Proof.
  unfold fits_trace. intros Hs Hl. unfold classicSTALTA, Np.zeros, Np.ones.
  rewrite (full_nonneg _ (proj1 Hs)). cbn [Py.bind].
  destruct (@window_pass_total Np.add PrimFloat.add (broadcast_same PrimFloat.add)
              (length a) nsta (repeat 0%float (Z.to_nat nsta))
              (fun i => Ok (Np.square
                 (Py.slice a i (Z.of_nat (length a) - nsta + i)))))
    with (acc := Np.zeros_like a) as (sta & Esta & Lsta).
  { apply repeat_length. }
  { intros i Hi. eexists; split; [reflexivity|].
    rewrite square_length. apply window_slice_length; lia. }
  { lia. }
  { apply zeros_like_length. }
  rewrite Esta. cbn [Py.bind].
  rewrite (full_nonneg _ (proj1 Hl)). cbn [Py.bind].
  destruct (@window_pass_total Np.add PrimFloat.add (broadcast_same PrimFloat.add)
              (length a) nlta (repeat 1%float (Z.to_nat nlta))
              (fun i => Ok (Np.square
                 (Py.slice a i (Z.of_nat (length a) - nlta + i)))))
    with (acc := Np.zeros_like a) as (lta & Elta & Llta).
  { apply repeat_length. }
  { intros i Hi. eexists; split; [reflexivity|].
    rewrite square_length. apply window_slice_length; lia. }
  { lia. }
  { apply zeros_like_length. }
  rewrite Elta. cbn [Py.bind].
  assert (L : length (Py.set_slice (Np.div_int sta nsta) 0 nlta 0%float)
              = length (Np.div_int lta nlta))
    by (rewrite set_slice_length, !div_int_length; congruence).
  unfold Np.div. rewrite (broadcast_same _ _ _ L).
  eexists; split; [reflexivity|].
  intros k Hks Hkl Hk.
  rewrite zip_with_nth
    by (auto; rewrite set_slice_length, div_int_length; lia).
  rewrite set_slice_beyond by (rewrite ?div_int_length; lia).
  rewrite !div_int_nth by lia.
  rewrite (@window_pass_window 0%float a (Np.zeros_like a) sta nsta k
             Hs (zeros_like_length a) Hks Hk Esta).
  rewrite (@window_pass_window 1%float a (Np.zeros_like a) lta nlta k
             Hl (zeros_like_length a) Hkl Hk Elta).
  unfold Np.zeros_like. rewrite nth_repeat_lt by lia.
  reflexivity.
Qed.

Lemma classicSTALTA_windows_witness :
  exists cf,
    classicSTALTA [1; 2; 3; 4; 5; 6]%float 2 3 = Ok cf /\
    forall k, (2 <= Z.of_nat k)%Z -> (3 <= Z.of_nat k)%Z ->
              (k < length [1; 2; 3; 4; 5; 6]%float)%nat ->
              nth k cf 0%float
              = ((window_sum [1; 2; 3; 4; 5; 6] 2 k / Fl.of_int 2)
                 / (window_sum [1; 2; 3; 4; 5; 6] 3 k / Fl.of_int 3))%float.
Proof.
  apply (@classicSTALTA_windows [1; 2; 3; 4; 5; 6]%float 2 3);
    unfold fits_trace; simpl; lia.
Defined.

Lemma iter_add_zero n :
  Nat.iter n (fun s => (s + 0)%float) 0%float = 0%float.
Proof.
  induction n as [|n IH]; [reflexivity|].
  rewrite Nat.iter_succ, IH. reflexivity.
Qed.

(** X13: with a window that fits the trace, the Z-detector standardises
    the sliding sums of squares: the sum at an index below [nsta] is 0, the
    sum at an index [k] from [nsta] on is that of the squares of the [nsta]
    samples before [k], and every value of the result is such a sum minus
    the mean of all sums, over their standard deviation. *)
Theorem zDetect_windows (a : Np.array) (nsta : Z) :
  fits_trace a nsta ->
  exists sta,
    length sta = length a
    /\ (forall k, (Z.of_nat k < nsta)%Z -> nth k sta 0%float = 0%float)
    /\ (forall k, (nsta <= Z.of_nat k)%Z -> (k < length a)%nat ->
                  nth k sta 0%float = window_sum a nsta k)
    /\ zDetect a nsta
       = Ok (map (fun s => ((s - Np.mean sta) / Np.std sta)%float) sta).
Proof.
  unfold fits_trace. intros Hs.
  destruct (zDetect_sta_total a Hs) as (sta & E & L).
  exists sta. split; [exact L|]. split; [|split].
  - intros k Hk. unfold zDetect_sta, Np.zeros in E.
    rewrite (full_nonneg _ (proj1 Hs)) in E. cbn [Py.bind] in E.
    rewrite (@window_pass_padding 0%float a (Np.zeros_like a) sta nsta k
               Hs (zeros_like_length a) Hk E).
    unfold Np.zeros_like. rewrite nth_repeat_lt by lia.
    apply iter_add_zero.
  - intros k Hk Hk'. unfold zDetect_sta, Np.zeros in E.
    rewrite (full_nonneg _ (proj1 Hs)) in E. cbn [Py.bind] in E.
    rewrite (@window_pass_window 0%float a (Np.zeros_like a) sta nsta k
               Hs (zeros_like_length a) Hk Hk' E).
    unfold Np.zeros_like. rewrite nth_repeat_lt by lia.
    reflexivity.
  - unfold zDetect. rewrite E. cbn [Py.bind].
    unfold Np.div_scalar, Np.sub_scalar. rewrite map_map. reflexivity.
Qed.

Lemma zDetect_windows_witness :
  exists sta,
    length sta = length [1; 2; 3; 4]%float
    /\ (forall k, (Z.of_nat k < 2)%Z -> nth k sta 0%float = 0%float)
    /\ (forall k, (2 <= Z.of_nat k)%Z -> (k < length [1; 2; 3; 4]%float)%nat ->
                  nth k sta 0%float = window_sum [1; 2; 3; 4]%float 2 k)
    /\ zDetect [1; 2; 3; 4]%float 2
       = Ok (map (fun s => ((s - Np.mean sta) / Np.std sta)%float) sta).
Proof.
  apply (@zDetect_windows [1; 2; 3; 4]%float 2).
  unfold fits_trace. simpl. lia.
Defined.

(** ** The running sums of the delayed STA/LTA *)

Lemma get_item_wrapped (l : Np.array) (z : Z) x :
  Py.get_item l z = Ok x -> x = wrapped l z.
Proof.
  unfold Py.get_item, wrapped.
  destruct (_ || _); [discriminate|].
  destruct (nth_error _ _) eqn:E; [|discriminate].
  intros H. inversion H; subst. symmetry. apply nth_error_nth. exact E.
Qed.

(** [s[k - 1]] as the loop reads it: the value of the pass before, or the
    last element, still zero, in the first pass. *)
Lemma get_item_previous (s : Np.array) (f : nat -> float) (k : nat) x :
  (k < length s)%nat ->
  (forall j, (j < k)%nat -> nth j s 0%float = f j) ->
  (forall j, (k <= j)%nat -> nth j s 0%float = 0%float) ->
  Py.get_item s (Z.of_nat k - 1) = Ok x ->
  x = match k with O => 0%float | S j => f j end.
Proof.
  intros Hk Hlt Hge H. apply get_item_wrapped in H. subst x. unfold wrapped.
  destruct k as [|j].
  - cbn [Z.of_nat]. change (0 - 1 <? 0)%Z with true. apply Hge. lia.
  - destruct (Z.of_nat (S j) - 1 <? 0)%Z eqn:E; [apply Z.ltb_lt in E; lia|].
    replace (Z.to_nat (Z.of_nat (S j) - 1)) with j by lia.
    apply Hlt. lia.
Qed.

Lemma delayed_body_step a nsta nlta k st st' :
  (k < length a)%nat ->
  delayed_inv a nsta nlta k st ->
  delayed_body a nsta nlta st (Z.of_nat k) = Ok st' ->
  delayed_inv a nsta nlta (S k) st'.
Proof.
  destruct st as [sta lta]. intros Hk (L1 & L2 & Hlt & Hge) H.
  cbn [fst snd] in *. unfold delayed_body in H.
  apply bind_ok in H. destruct H as (x0 & Hx0 & H).
  apply bind_ok in H. destruct H as (x1 & Hx1 & H).
  apply bind_ok in H. destruct H as (s1 & Hs1 & H).
  apply bind_ok in H. destruct H as (x2 & Hx2 & H).
  apply bind_ok in H. destruct H as (x3 & Hx3 & H).
  apply bind_ok in H. destruct H as (l1 & Hl1 & H).
  apply get_item_wrapped in Hx0, Hx1, Hx2, Hx3.
  apply (@get_item_previous sta (delayed_sta a nsta) k s1) in Hs1;
    [| lia | intros j Hj; apply (Hlt j Hj) | intros j Hj; apply (Hge j Hj)].
  apply (@get_item_previous lta (delayed_lta a nsta nlta) k l1) in Hl1;
    [| lia | intros j Hj; apply (Hlt j Hj) | intros j Hj; apply (Hge j Hj)].
  rewrite Nat2Z.id in H. subst x0 x1 x2 x3.
  assert (Es : ((wrapped a (Z.of_nat k) * wrapped a (Z.of_nat k)
                 + wrapped a (Z.of_nat k - nsta) * wrapped a (Z.of_nat k - nsta))
                / Fl.of_int nsta + s1 = delayed_sta a nsta k)%float)
    by (subst s1; destruct k; reflexivity).
  assert (El : ((wrapped a (Z.of_nat k - nsta - 1)
                 * wrapped a (Z.of_nat k - nsta - 1)
                 + wrapped a (Z.of_nat k - nsta - nlta - 1)
                   * wrapped a (Z.of_nat k - nsta - nlta - 1))
                / Fl.of_int nlta + l1 = delayed_lta a nsta nlta k)%float)
    by (subst l1; destruct k; reflexivity).
  rewrite Es, El in H. inversion H; subst st'. clear H.
  unfold delayed_inv. cbn [fst snd]. rewrite !set_item_length.
  split; [exact L1|]. split; [exact L2|]. split.
  - intros j Hj. destruct (Nat.eq_dec j k) as [->|Hne].
    + rewrite !set_item_same by lia. auto.
    + rewrite !set_item_other by exact Hne. apply Hlt. lia.
  - intros j Hj. rewrite !set_item_other by lia. apply Hge. lia.
Qed.

Lemma delayed_loop_spec a nsta nlta n : forall k st st',
  (k + n <= length a)%nat ->
  delayed_inv a nsta nlta k st ->
  Py.for_each (delayed_body a nsta nlta)
              (map (fun j => (0 + Z.of_nat j)%Z) (seq k n)) st = Ok st' ->
  delayed_inv a nsta nlta (k + n) st'.
Proof.
  induction n as [|n IH]; simpl; intros k st st' Hk Hinv H.
  - inversion H; subst. rewrite Nat.add_0_r. exact Hinv.
  - apply bind_ok in H. destruct H as (s1 & E & H).
    replace (k + S n)%nat with (S k + n)%nat by lia.
    apply (IH (S k) s1 st'); [lia | | exact H].
    apply (@delayed_body_step a nsta nlta k st s1); [lia | exact Hinv | exact E].
Qed.

(** X14: the delayed STA/LTA divides two running sums over the whole trace,
    not two windowed averages.  With positive window lengths and
    [nsta + nlta + 1 <= len(a)], the value at an index [k] from
    [nlta + nsta + 50] on is [sta[k] / lta[k]], where
    [sta[i] = (a[i]^2 + a[i - nsta]^2) / nsta + sta[i - 1]] and
    [lta[i] = (a[i - nsta - 1]^2 + a[i - nsta - nlta - 1]^2) / nlta + lta[i - 1]]
    start from 0 at [i = 0], and a negative index into [a] reads from the
    end of the trace. *)
Theorem delayedSTALTA_running_sums (a : Np.array) (nsta nlta : Z) :
  (0 < nsta)%Z -> (0 < nlta)%Z ->
  (nsta + nlta + 1 <= Z.of_nat (length a))%Z ->
  exists cf,
    delayedSTALTA a nsta nlta = Ok cf /\
    forall k, (nlta + nsta + 50 <= Z.of_nat k)%Z -> (k < length a)%nat ->
              nth k cf 0%float
              = (delayed_sta a nsta k / delayed_lta a nsta nlta k)%float.
Proof.
  intros Hs Hl Hm.
  destruct (delayedSTALTA_total a Hs Hl Hm) as (cf & E).
  exists cf. split; [exact E|]. intros k Hk Hk'.
  unfold delayedSTALTA in E.
  apply bind_ok in E. destruct E as ([sta lta] & Hloop & E).
  unfold Py.xrange in Hloop. rewrite Z.sub_0_r, Nat2Z.id in Hloop.
  apply (@delayed_loop_spec a nsta nlta (length a) 0) in Hloop;
    [| lia |].
  - destruct Hloop as (L1 & L2 & Hlt & _). cbn [fst snd] in *.
    unfold Np.div in E. rewrite broadcast_same in E
      by (rewrite set_slice_length; congruence).
    inversion E; subst cf.
    rewrite zip_with_nth by (rewrite ?set_slice_length; lia).
    rewrite set_slice_beyond by lia.
    destruct (Hlt k Hk') as [-> ->]. reflexivity.
  - unfold delayed_inv. cbn [fst snd]. rewrite zeros_like_length.
    split; [reflexivity|]. split; [reflexivity|]. split; [intros j Hj; lia|].
    intros j _. unfold Np.zeros_like.
    destruct (Nat.lt_ge_cases j (length a)).
    + rewrite nth_repeat_lt by lia. auto.
    + rewrite nth_overflow by (rewrite repeat_length; lia). auto.
Qed.

Lemma delayedSTALTA_running_sums_witness :
  exists cf,
    delayedSTALTA (repeat 1%float 60) 1 2 = Ok cf /\
    forall k, (2 + 1 + 50 <= Z.of_nat k)%Z ->
              (k < length (repeat 1%float 60))%nat ->
              nth k cf 0%float
              = (delayed_sta (repeat 1%float 60) 1 k
                 / delayed_lta (repeat 1%float 60) 1 2 k)%float.
Proof.
  apply (@delayedSTALTA_running_sums (repeat 1%float 60) 1 2);
    [lia | lia | rewrite repeat_length; lia].
Defined.


(** * The last event with the default maximum length *)

Lemma sentinel_inv_pass s on of_ pick on2 of2 pick2 :
  sentinel_inv s on of_ pick ->
  pass NoLimit true on of_ pick = Again on2 of2 pick2 ->
  sentinel_inv s on2 of2 pick2.
Proof.
  intros (Hl & Hof & _) H. apply pass_again in H.
  destruct H as (lst & f0 & o & on' & f & of' & Hl' & _ & Hgt & Hpon & Hpof & E).
  assert (Ex : exceeds f o NoLimit = false) by (destruct f; reflexivity).
  destruct E as [(Hex & _)|[(Hex & _)|(_ & -> & -> & ->)]];
    try (rewrite Ex in Hex; discriminate).
  destruct (pop_on_spec on f0 Hl' Hgt) as (pre & o0 & on0 & Hp & _ & _ & _ & Hlast).
  assert (E0 : o0 :: on0 = o :: on') by congruence.
  rewrite E0 in Hlast.
  apply (@pop_of_suffix_Forall _ _ _ _ Hpof) in Hof.
  split; [congruence|]. split; [exact Hof|].
  right. exists o, f, of'. split; [reflexivity | apply last_item_app].
Qed.

(** C10: when [max_len_delete] is set and [max_len] is left at its
    default, the event of the last run is not absent from the output.  The
    sentinel [1e99] that the code appends to [of] in order to drop the
    last pick is below the default [max_len] of [9e99], so the test
    [of[0] - on[0] > max_len] fails on it: whenever every gap end of the
    indices above [thres2] lies before the last on-candidate, the detector
    returns picks whose last one has the sentinel as its off index.  On
    the trace [0, 0, 5, 5, 5, 0, 0], whose only event ends at index 4,
    before the end of the trace, the detector returns the pick
    [(2, 1e99)]; with a [max_len] of 10 samples it returns nothing, and
    without deletion it returns [(2, 4)]. *)
Theorem default_max_len_keeps_last_event (charfct : list float)
        (thres1 thres2 : float) (s : Z) :
  (last_run_start (where_gt charfct thres1) = Some s ->
   (forall z, In z (gap_ends (where_gt charfct thres2)) -> (z < s)%Z) ->
   exists picks o,
     triggerOnset charfct thres1 thres2 NoLimit true = Some (Ok picks)
     /\ last_item picks = Ok (o, Sentinel))
  /\ triggerOnset [0; 0; 5; 5; 5; 0; 0]%float 3 1 NoLimit true
     = Some (Ok [(2%Z, Sentinel)])
  /\ triggerOnset [0; 0; 5; 5; 5; 0; 0]%float 3 1 (Len 10) true = Some (Ok [])
  /\ triggerOnset [0; 0; 5; 5; 5; 0; 0]%float 3 1 NoLimit false
     = Some (Ok [(2%Z, Idx 4)]).
Proof.
  split; [|repeat split; vm_compute; reflexivity].
  intros Hs Hgaps.
  destruct (@triggerOnset_returns charfct thres1 thres2 NoLimit true
              (or_introl eq_refl)) as (picks & H).
  exists picks.
  assert (Hs0 : (0 <= s)%Z).
  { apply last_run_start_In in Hs.
    destruct (where_gt_from_sorted charfct thres1 0) as [_ Hf].
    fold (where_gt charfct thres1) in Hf.
    rewrite Forall_forall in Hf. apply (Hf _ Hs). }
  pose proof H as Hrun. unfold triggerOnset in Hrun.
  destruct (last_run_start_some _ Hs) as (first & rest & E1 & Hlast).
  rewrite E1 in Hrun, Hlast.
  set (ind2 := where_gt charfct thres2) in *.
  destruct (candidates_drop (first :: rest) ind2 first) as (lst & Hl & Ec).
  rewrite Ec in Hrun.
  assert (lst = s) by congruence. subst lst.
  assert (Hinit : sentinel_inv s
                    ((first :: gap_starts (first :: rest)) ++ [s])
                    ((Idx (-1) :: map Idx (gap_ends ind2)) ++ [Sentinel]) []).
  { split; [apply last_item_app|]. split.
    - apply Forall_app. split; [|constructor; [left; reflexivity | constructor]].
      constructor; [right; exists (-1)%Z; split; [reflexivity | lia]|].
      apply Forall_map, Forall_forall. intros z Hz.
      right. exists z. split; [reflexivity | apply (Hgaps _ Hz)].
    - left. split; [reflexivity|]. eexists. reflexivity. }
  destruct (@loop_exit NoLimit true (sentinel_inv s) (@sentinel_inv_pass s)
              _ _ _ _ _ Hinit Hrun)
    as (on' & of' & l & f0 & (Hl' & Hof & Hpick) & Hl'' & Hf0 & Hgt).
  assert (l = s) by congruence. subst l.
  apply first_item_ok in Hf0. destruct Hf0 as (t & ->).
  inversion Hof as [|? ? Hf _]; subst.
  assert (Ef : f0 = Sentinel).
  { destruct Hf as [->|(z & -> & Hz)]; [reflexivity|].
    simpl in Hgt. apply Z.ltb_ge in Hgt. lia. }
  subst f0.
  destruct Hpick as [(_ & t' & Et)|(o & f & t' & Et & Hlp)];
    [discriminate|].
  exists o. split; [exact H|]. congruence.
Qed.

Lemma default_max_len_keeps_last_event_witness :
  exists picks o,
    triggerOnset [0; 5; 0; 0; 5; 5; 0; 5; 0]%float 3 1 NoLimit true
    = Some (Ok picks)
    /\ last_item picks = Ok (o, Sentinel).
Proof.
  destruct (@default_max_len_keeps_last_event
              [0; 5; 0; 0; 5; 5; 0; 5; 0]%float 3 1 7) as [H _].
  apply H; [vm_compute; reflexivity|].
  intros z Hz. vm_compute in Hz. destruct Hz as [<-|[<-|[]]]; lia.
Defined.
